(** * Dead-stock pipeline: a shallow embedding of [src/data_pipeline.py]

    The development follows the Python module function by function:
    [_days_since_last_sale], [load_data], [engineer_features],
    [label_dead_stock], [prepare_dataset] and [train_test_split].

    Conventions of the embedding.
    - A table is the list of its rows, in table order; a typed record per
      pipeline stage stands for the columns present at that stage.
    - The numeric observations of an inventory record are finite rationals.
      Derived float columns are values of [num]: an exact rational, or one of
      the IEEE special values NaN, +inf, -inf that numpy produces on a
      division by zero.  The arithmetic of the derived columns is exact, and
      decimal literals of the source ([1e-3], [0.45], ...) stand for the
      rationals they denote.  The split index of [train_test_split] is an
      integer cut out of a float product, so there every operation is
      rounded to binary64 ([binary64], round to nearest, ties to even).
    - pandas and numpy primitives ([rolling], [groupby.transform], [quantile],
      [clip], [nan_to_num], [nanmin], ...) are embedded after their documented
      behaviour on such data. *)

From Stdlib Require Import ZArith QArith Qround Qpower Lia Lqa String OrdersEx.
From stdpp Require Import base list sorting gmap strings.

Local Open Scope Z_scope.

(** ** Float values *)

Inductive num : Type :=
| NaN
| PInf
| NInf
| Fin (q : Q).

Definition Qzero (q : Q) : bool := Qeq_bool q 0.
Definition Qpos (q : Q) : bool := negb (Qle_bool q 0).
Definition Qneg (q : Q) : bool := negb (Qle_bool 0 q).

(** Sign of a rational: [Lt] negative, [Eq] zero, [Gt] positive. *)
Definition Qsign (q : Q) : comparison := (q ?= 0)%Q.

Definition fadd (x y : num) : num :=
  match x, y with
  | NaN, _ | _, NaN => NaN
  | PInf, NInf | NInf, PInf => NaN
  | PInf, _ | _, PInf => PInf
  | NInf, _ | _, NInf => NInf
  | Fin a, Fin b => Fin (Qred (a + b))
  end.

Definition fsub (x y : num) : num :=
  match x, y with
  | NaN, _ | _, NaN => NaN
  | PInf, PInf | NInf, NInf => NaN
  | PInf, _ | _, NInf => PInf
  | NInf, _ | _, PInf => NInf
  | Fin a, Fin b => Fin (Qred (a - b))
  end.

(** An infinity of the sign of [s], [NaN] when [s] is zero. *)
Definition inf_of_sign (s : comparison) : num :=
  match s with
  | Gt => PInf
  | Lt => NInf
  | Eq => NaN
  end.

Definition flip_sign (s : comparison) : comparison := CompOpp s.

Definition fmul (x y : num) : num :=
  match x, y with
  | NaN, _ | _, NaN => NaN
  | PInf, PInf | NInf, NInf => PInf
  | PInf, NInf | NInf, PInf => NInf
  | PInf, Fin b | Fin b, PInf => inf_of_sign (Qsign b)
  | NInf, Fin b | Fin b, NInf => inf_of_sign (flip_sign (Qsign b))
  | Fin a, Fin b => Fin (Qred (a * b))
  end.

(** numpy float division: [x / 0] is an infinity of the sign of [x] and
    [0 / 0] is NaN (a warning, not an exception). *)
Definition fdiv (x y : num) : num :=
  match x, y with
  | NaN, _ | _, NaN => NaN
  | PInf, PInf | PInf, NInf | NInf, PInf | NInf, NInf => NaN
  | PInf, Fin b => if Qneg b then NInf else PInf
  | NInf, Fin b => if Qneg b then PInf else NInf
  | Fin _, PInf | Fin _, NInf => Fin 0
  | Fin a, Fin b =>
      if Qzero b then inf_of_sign (Qsign a) else Fin (Qred (a / b))
  end.

(** Comparisons: every comparison with NaN is false. *)
Definition fltb (x y : num) : bool :=
  match x, y with
  | NaN, _ | _, NaN => false
  | _, NInf => false
  | NInf, _ => true
  | PInf, _ => false
  | _, PInf => true
  | Fin a, Fin b => negb (Qle_bool b a)
  end.

Definition fleb (x y : num) : bool :=
  match x, y with
  | NaN, _ | _, NaN => false
  | NInf, _ => true
  | _, NInf => false
  | _, PInf => true
  | PInf, _ => false
  | Fin a, Fin b => Qle_bool a b
  end.

Definition fgtb (x y : num) : bool := fltb y x.

Definition feqb (x y : num) : bool :=
  match x, y with
  | PInf, PInf | NInf, NInf => true
  | Fin a, Fin b => Qeq_bool a b
  | _, _ => false
  end.

Definition isnan (x : num) : bool :=
  match x with NaN => true | _ => false end.

Definition is_finite (x : num) : bool :=
  match x with Fin _ => true | _ => false end.

(** Python truth value of a float: only zero is false (NaN is true). *)
Definition truthy (x : num) : bool :=
  match x with
  | Fin q => negb (Qzero q)
  | _ => true
  end.

(** [a or b] on floats. *)
Definition for_ (a b : num) : num := if truthy a then a else b.

(** Largest finite binary64 value, what [np.nan_to_num] puts for +inf. *)
Definition float_max : Q := inject_Z (2 ^ 1024 - 2 ^ 971).

Definition nan_to_num (x : num) : num :=
  match x with
  | NaN => Fin 0
  | PInf => Fin float_max
  | NInf => Fin (Qred (- float_max))
  | Fin q => Fin q
  end.

(** [Series.clip(lo, hi)]: NaN stays NaN. *)
Definition clip (lo hi x : num) : num :=
  match x with
  | NaN => NaN
  | _ => if fltb x lo then lo else if fltb hi x then hi else x
  end.

Definition of_Z (z : Z) : num := Fin (inject_Z z).
Definition of_Q (q : Q) : num := Fin (Qred q).

(** [Series.fillna(v)] on one cell. *)
Definition fillna (v x : num) : num := if isnan x then v else x.

(** ** Errors *)

(** The exceptions the module raises or lets through. *)
Inductive error : Type :=
| ValueError (msg : string)
| TypeError (msg : string)
| KeyError (column : string)
| OverflowError (msg : string)
| ReadError (msg : string).

Definition result (A : Type) : Type := error + A.

Definition ok {A} (a : A) : result A := inr a.
Definition raise {A} (e : error) : result A := inl e.

(** Exceptions propagate: the error monad, with stdpp's [x ← m; k]. *)
#[global] Instance result_ret : MRet result := λ A a, inr a.
#[global] Instance result_bind : MBind result := λ A B k m,
  match m with
  | inl e => inl e
  | inr a => k a
  end.
#[global] Instance result_fmap : FMap result := λ A B f m,
  match m with
  | inl e => inl e
  | inr a => inr (f a)
  end.

(** ** pandas and numpy primitives on columns *)

Fixpoint Qsum (xs : list Q) : Q :=
  match xs with
  | [] => 0%Q
  | x :: r => (x + Qsum r)%Q
  end.

(** Mean of the observations of a window. *)
Definition mean (xs : list Q) : num :=
  fdiv (of_Q (Qsum xs)) (of_Z (Z.of_nat (length xs))).

(** The trailing window of width [w] that ends at position [r]:
    positions [max 0 (r + 1 - w)] to [r]. *)
Definition window {A} (w : nat) (xs : list A) (r : nat) : list A :=
  drop (S r - w) (take (S r) xs).

(** [s.rolling(w, min_periods=mp).mean()] *)
Definition rolling_mean (w mp : nat) (xs : list Q) : list num :=
  (λ r, let win := window w xs r in
        if (length win <? mp)%nat then NaN else mean win)
    <$> seq 0 (length xs).

(** [s.pct_change()]: NaN at the first position, then [s[i] / s[i-1] - 1]. *)
Fixpoint pct_from (prev : Q) (xs : list Q) : list num :=
  match xs with
  | [] => []
  | x :: r => fsub (fdiv (of_Q x) (of_Q prev)) (of_Z 1) :: pct_from x r
  end.

Definition pct_change (xs : list Q) : list num :=
  match xs with
  | [] => []
  | x :: r => NaN :: pct_from x r
  end.

(** [np.fmin] and [np.fmax]: a NaN operand is ignored. *)
Definition fmin (a b : num) : num :=
  if isnan a then b else if isnan b then a else if fltb b a then b else a.

Definition fmax (a b : num) : num :=
  if isnan a then b else if isnan b then a else if fltb a b then b else a.

(** [np.nanmin] and [np.nanmax]; a zero-size array raises [ValueError]. *)
Definition nanmin (values : list num) : result num :=
  match values with
  | [] => raise (ValueError "zero-size array to reduction operation fmin which has no identity")
  | x :: r => ok (foldl fmin x r)
  end.

Definition nanmax (values : list num) : result num :=
  match values with
  | [] => raise (ValueError "zero-size array to reduction operation fmax which has no identity")
  | x :: r => ok (foldl fmax x r)
  end.

Definition dropna (xs : list num) : list num :=
  List.filter (λ x, negb (isnan x)) xs.

(** [Series.quantile(p)] with the default linear interpolation: missing
    values are dropped, the rest sorted, and the value at the fractional
    position [(n - 1) * p] is interpolated between its two neighbours. *)
Definition quantile (p : Q) (xs : list num) : num :=
  let s := merge_sort (λ a b, fleb a b) (dropna xs) in
  match s with
  | [] => NaN
  | x0 :: _ =>
      let pos := (inject_Z (Z.of_nat (length s) - 1) * p)%Q in
      let lo := Z.to_nat (Qfloor pos) in
      let frac := (pos - inject_Z (Qfloor pos))%Q in
      let a := nth lo s x0 in
      let b := nth (S lo) s a in
      fadd a (fmul (fsub b a) (of_Q frac))
  end.

(** *** groupby / transform *)

Section Transform.
Context {K : Type} `{EqDecision K} {A B : Type}.

(** The cells of the rows whose key is [k], in table order. *)
Definition group_of (keys : list K) (vals : list A) (k : K) : list A :=
  snd <$> List.filter (λ kv, bool_decide (kv.1 = k)) (zip keys vals).

(** Position of row [i] inside its group: the number of earlier rows with
    the same key. *)
Definition rank (keys : list K) (i : nat) (k : K) : nat :=
  length (List.filter (λ k', bool_decide (k' = k)) (take i keys)).

(** [df.groupby(keys, sort=False)[col].transform(f)]: [f] is applied to the
    cells of each group and every result is put back at the position of the
    row it belongs to.  [d] fills a position [f] returns nothing for (not
    reached when [f] preserves lengths). *)
Definition transform (keys : list K) (f : list A → list B) (d : B)
    (vals : list A) : list B :=
  imap (λ i k, default d (f (group_of keys vals k) !! rank keys i k)) keys.
End Transform.

(** ** [_days_since_last_sale] *)

(** The loop body, with the counter as accumulator. *)
Fixpoint days_loop (counter : Z) (values : list Q) : list Z :=
  match values with
  | [] => []
  | value :: rest =>
      let counter := if Qpos value then 0 else counter + 1 in
      counter :: days_loop counter rest
  end.

Definition _days_since_last_sale (values : list Q) : list Z :=
  days_loop 0 values.

(** ** Data model *)

(** One row of the inventory table, a field per column the module reads or
    passes on.  [Date] is a day number (days since 1970-01-01), the parsed
    form [pd.to_datetime] and [parse_dates] give the column. *)
Record Row : Type := {
  Date : Z;
  Store_ID : string;
  Product_ID : string;
  Category : string;
  Region : string;
  Weather_Condition : string;
  Seasonality : string;
  Inventory_Level : Q;
  Units_Sold : Q;
  Units_Ordered : Q;
  Demand_Forecast : Q;
  Price : Q;
  Discount : Q;
  Competitor_Pricing : Q;
  Holiday_Promotion : bool
}.

(** A row after [engineer_features]: the input columns and the derived ones. *)
Record ERow : Type := {
  e_raw : Row;
  rolling_sales_7 : num;
  rolling_sales_30 : num;
  rolling_inventory_30 : num;
  sell_through_rate : num;
  days_since_sale : Z;
  inventory_trend : num;
  forecast_error : num;
  order_gap : num;
  rolling_inventory_30_norm : num;
  days_since_sale_norm : num;
  sell_through_rate_norm : num
}.

(** A row after [label_dead_stock]. *)
Record LRow : Type := {
  l_eng : ERow;
  dead_stock_label : Z;
  risk_score : num
}.

(** A row of the model-ready view: the selected columns of [feature_cols]
    without [Date], and the three calendar columns. *)
Record FeatureRow : Type := {
  f_Inventory_Level : Q;
  f_Units_Sold : Q;
  f_Units_Ordered : Q;
  f_Demand_Forecast : Q;
  f_Price : Q;
  f_Discount : Q;
  f_Competitor_Pricing : Q;
  f_Holiday_Promotion : bool;
  f_Store_ID : string;
  f_Product_ID : string;
  f_Category : string;
  f_Region : string;
  f_Weather_Condition : string;
  f_Seasonality : string;
  f_rolling_sales_7 : num;
  f_rolling_sales_30 : num;
  f_rolling_inventory_30 : num;
  f_sell_through_rate : num;
  f_days_since_sale : Z;
  f_inventory_trend : num;
  f_forecast_error : num;
  f_order_gap : num;
  f_risk_score : num;
  day_of_year : Z;
  month : Z;
  is_weekend : bool
}.

Record PreparedData : Type := {
  features : list FeatureRow;
  labels : list Z;
  raw : list LRow
}.

(** An in-memory table handed to the loader: its column labels and rows.
    The [Date] field of a row means something only when ["Date"] is among
    the labels. *)
Record DataFrame : Type := {
  columns : list string;
  rows : list Row
}.

(** What [load_data] can be called with. *)
Inductive source : Type :=
| SrcPath (path : string)
| SrcFrame (df : DataFrame)
| SrcOther (type_name : string).

#[global] Instance num_inhabited : Inhabited num := populate NaN.

(** ** Calendar accessors of a day number ([Series.dt]) *)

(** Day number of the civil date [y]-[m]-[d] (proleptic Gregorian). *)
Definition days_from_civil (y m d : Z) : Z :=
  let y := if m <=? 2 then y - 1 else y in
  let era := y / 400 in
  let yoe := y - era * 400 in
  let doy := (153 * (if 2 <? m then m - 3 else m + 9) + 2) / 5 + d - 1 in
  let doe := yoe * 365 + yoe / 4 - yoe / 100 + doy in
  era * 146097 + doe - 719468.

(** Year and month of a day number. *)
Definition civil_from_days (days : Z) : Z * Z :=
  let z := days + 719468 in
  let era := z / 146097 in
  let doe := z - era * 146097 in
  let yoe := (doe - doe / 1460 + doe / 36524 - doe / 146096) / 365 in
  let doy := doe - (365 * yoe + yoe / 4 - yoe / 100) in
  let mp := (5 * doy + 2) / 153 in
  let m := if mp <? 10 then mp + 3 else mp - 9 in
  let y := yoe + era * 400 in
  (if m <=? 2 then y + 1 else y, m).

Definition dt_month (days : Z) : Z := (civil_from_days days).2.

Definition dt_dayofyear (days : Z) : Z :=
  days - days_from_civil (civil_from_days days).1 1 1 + 1.

(** Monday is 0; 1970-01-01 was a Thursday. *)
Definition dt_weekday (days : Z) : Z := (days + 3) mod 7.

(** ** [load_data] *)

(** A stable sort (insertion sort): rows the order does not tell apart keep
    the order they had, as with the sort pandas uses for several columns. *)
Section StableSort.
Context {A : Type} (R : relation A) `{∀ x y, Decision (R x y)}.

Fixpoint insert_sorted (x : A) (l : list A) : list A :=
  match l with
  | [] => [x]
  | y :: r => if decide (R x y) then x :: l else y :: insert_sorted x r
  end.

Fixpoint stable_sort (l : list A) : list A :=
  match l with
  | [] => []
  | x :: r => insert_sorted x (stable_sort r)
  end.
End StableSort.

(** Lexicographic order of [sort_values(["Store ID", "Product ID", "Date"])]. *)
Definition row_leb (a b : Row) : bool :=
  match String_as_OT.compare (Store_ID a) (Store_ID b) with
  | Lt => true
  | Gt => false
  | Eq =>
      match String_as_OT.compare (Product_ID a) (Product_ID b) with
      | Lt => true
      | Gt => false
      | Eq => Date a <=? Date b
      end
  end.

Definition row_le (a b : Row) : Prop := row_leb a b.

#[global] Instance row_le_dec a b : Decision (row_le a b) :=
  decide (Is_true (row_leb a b)).

Section Loader.
(** [pd.read_csv(path, parse_dates=["Date"])]: the table a path holds, or
    the exception raised on reading or parsing it. *)
Variable read_csv : string → result (list Row).

Definition load_data (source : source) : result (list Row) :=
  df ← match source with
       | SrcPath path => read_csv path
       | SrcFrame t =>
           (* df = source.copy() *)
           if bool_decide ("Date" ∈ columns t) then ok (rows t)
           else raise (ValueError "DataFrame must include a 'Date' column.")
       | SrcOther type_name =>
           raise (TypeError ("Unsupported data source type: " +:+ type_name))
       end;
  (* sort_values(...) then reset_index(drop=True) *)
  ok (stable_sort row_le df).
End Loader.

(** ** [engineer_features] *)

Definition eps : num := of_Q (1 # 1000).

Definition group_cols (r : Row) : string * string := (Store_ID r, Product_ID r).

(** The loop body for [rolling_inventory_30] and [days_since_sale]. *)
Definition minmax_norm (values : list num) : result (list num) :=
  min_val ← nanmin values;
  max_val ← nanmax values;
  let span := fsub max_val min_val in
  ok ((λ v, nan_to_num (fdiv (fsub v min_val)
                          (if truthy span then span else of_Z 1))) <$> values).

(** The loop body for [sell_through_rate]. *)
Definition max_norm (values : list num) : result (list num) :=
  m ← nanmax values;
  let max_val := for_ m (of_Z 1) in
  ok ((λ v, nan_to_num (fdiv v max_val)) <$> values).

Definition engineer_features (df : list Row) : result (list ERow) :=
  let keys := group_cols <$> df in
  let units_sold := Units_Sold <$> df in
  let inventory_level := Inventory_Level <$> df in
  let c_rolling_sales_7 := transform keys (rolling_mean 7 1) NaN units_sold in
  let c_rolling_sales_30 := transform keys (rolling_mean 30 1) NaN units_sold in
  let c_rolling_inventory_30 :=
    transform keys (rolling_mean 30 1) NaN inventory_level in
  let c_sell_through_rate :=
    zip_with (λ s i, fdiv s (fadd i eps)) c_rolling_sales_30 c_rolling_inventory_30 in
  let c_days_since_sale := transform keys _days_since_last_sale 0 units_sold in
  let c_inventory_trend :=
    transform keys (λ s, fillna (of_Z 0) <$> pct_change s) NaN inventory_level in
  let c_forecast_error :=
    (λ r, fdiv (fsub (of_Q (Units_Sold r)) (of_Q (Demand_Forecast r)))
            (fadd (of_Q (Demand_Forecast r)) eps)) <$> df in
  let c_order_gap :=
    (λ r, fsub (of_Q (Units_Ordered r)) (of_Q (Units_Sold r))) <$> df in
  (* for col in ["rolling_inventory_30", "days_since_sale", "sell_through_rate"] *)
  c_rolling_inventory_30_norm ← minmax_norm c_rolling_inventory_30;
  c_days_since_sale_norm ← minmax_norm (of_Z <$> c_days_since_sale);
  c_sell_through_rate_norm ← max_norm c_sell_through_rate;
  ok (imap (λ i r,
        {| e_raw := r;
           rolling_sales_7 := c_rolling_sales_7 !!! i;
           rolling_sales_30 := c_rolling_sales_30 !!! i;
           rolling_inventory_30 := c_rolling_inventory_30 !!! i;
           sell_through_rate := c_sell_through_rate !!! i;
           days_since_sale := c_days_since_sale !!! i;
           inventory_trend := c_inventory_trend !!! i;
           forecast_error := c_forecast_error !!! i;
           order_gap := c_order_gap !!! i;
           rolling_inventory_30_norm := c_rolling_inventory_30_norm !!! i;
           days_since_sale_norm := c_days_since_sale_norm !!! i;
           sell_through_rate_norm := c_sell_through_rate_norm !!! i |}) df).

(** ** [label_dead_stock] *)

(** The label and the score of one row; [threshold] is the 45th percentile
    of [rolling_inventory_30] over the whole table. *)
Definition label_row (threshold : num) (r : ERow) : LRow :=
  let high_inventory := fgtb (rolling_inventory_30 r) threshold in
  let slow_turnover :=
    fleb (rolling_sales_7 r) (fmul (of_Q (1 # 10)) (rolling_inventory_30 r)) in
  let weak_sell_through := fltb (sell_through_rate r) (of_Q (3 # 10)) in
  let overstock_vs_forecast :=
    fgtb (fsub (of_Q (Inventory_Level (e_raw r)))
               (of_Q (Demand_Forecast (e_raw r)))) (of_Z 50) in
  let no_sales_today := feqb (of_Q (Units_Sold (e_raw r))) (of_Z 0) in
  let low_units_sold := fleb (of_Q (Units_Sold (e_raw r))) (of_Z 5) in
  {| l_eng := r;
     dead_stock_label :=
       if (high_inventory && slow_turnover)
          || (overstock_vs_forecast && weak_sell_through)
          || (high_inventory && no_sales_today)
          || (high_inventory && low_units_sold)
       then 1 else 0;
     risk_score :=
       clip (of_Z 0) (of_Z 1)
         (fadd (fadd (fmul (of_Q (4 # 10)) (rolling_inventory_30_norm r))
                     (fmul (of_Q (3 # 10))
                           (fsub (of_Z 1) (sell_through_rate_norm r))))
               (fmul (of_Q (3 # 10))
                     (nan_to_num
                        (fsub (of_Z 1)
                              (clip (of_Z 0) (of_Z 1)
                                 (fdiv (rolling_sales_7 r)
                                       (fadd (rolling_inventory_30 r) eps)))))))
  |}.

Definition label_dead_stock (df : list ERow) : list LRow :=
  let threshold := quantile (45 # 100) (rolling_inventory_30 <$> df) in
  label_row threshold <$> df.

(** ** [prepare_dataset] *)

(** [df[feature_cols].copy()], the three calendar columns, [Date] dropped. *)
Definition feature_view (r : LRow) : FeatureRow :=
  let e := l_eng r in
  let x := e_raw e in
  {| f_Inventory_Level := Inventory_Level x;
     f_Units_Sold := Units_Sold x;
     f_Units_Ordered := Units_Ordered x;
     f_Demand_Forecast := Demand_Forecast x;
     f_Price := Price x;
     f_Discount := Discount x;
     f_Competitor_Pricing := Competitor_Pricing x;
     f_Holiday_Promotion := Holiday_Promotion x;
     f_Store_ID := Store_ID x;
     f_Product_ID := Product_ID x;
     f_Category := Category x;
     f_Region := Region x;
     f_Weather_Condition := Weather_Condition x;
     f_Seasonality := Seasonality x;
     f_rolling_sales_7 := rolling_sales_7 e;
     f_rolling_sales_30 := rolling_sales_30 e;
     f_rolling_inventory_30 := rolling_inventory_30 e;
     f_sell_through_rate := sell_through_rate e;
     f_days_since_sale := days_since_sale e;
     f_inventory_trend := inventory_trend e;
     f_forecast_error := forecast_error e;
     f_order_gap := order_gap e;
     f_risk_score := risk_score r;
     day_of_year := dt_dayofyear (Date x);
     month := dt_month (Date x);
     is_weekend := 5 <=? dt_weekday (Date x) |}.

Section Pipeline.
Variable read_csv : string → result (list Row).

Definition prepare_dataset (source : source) : result PreparedData :=
  df ← load_data read_csv source;
  df ← engineer_features df;
  let df := label_dead_stock df in
  ok {| features := feature_view <$> df;
        labels := dead_stock_label <$> df;
        raw := df |}.
End Pipeline.

(** ** [train_test_split] *)

(** *** Binary64 numbers

    Python floats are IEEE 754 binary64 numbers: 53 significant bits, the
    smallest quantum [2^-1074], and every operation returns the exact result
    rounded to the nearest such number, ties going to the even significand.
    A result of magnitude [2^1024] or more is an infinity. *)

Definition pow2 (e : Z) : Q := (2 ^ e)%Q.

(** For [0 < x], the exponent [e] with [2^e <= x < 2^(e+1)]. *)
Definition ilog2 (x : Q) : Z :=
  let e := Z.log2 (Qnum x) - Z.log2 (Z.pos (Qden x)) in
  if Qle_bool (pow2 e) x then e else e - 1.

(** The nearest integer, a tie going to the even one. *)
Definition rne (x : Q) : Z :=
  let f := Qfloor x in
  match (x - inject_Z f ?= 1 # 2)%Q with
  | Lt => f
  | Gt => f + 1
  | Eq => if Z.even f then f else f + 1
  end.

(** The exponent of the quantum of the binary64 numbers around [x], for
    [0 < x]: 52 below the exponent of [x], and [-1074] for subnormal [x]. *)
Definition quantum_exp (x : Q) : Z := Z.max (ilog2 x - 52) (-1074).

(** The nearest multiple of the quantum, for [0 < x]. *)
Definition round_pos (x : Q) : Q :=
  (inject_Z (rne (x / pow2 (quantum_exp x))) * pow2 (quantum_exp x))%Q.

(** Rounding is symmetric about zero. *)
Definition round64 (x : Q) : Q :=
  match (x ?= 0)%Q with
  | Eq => 0%Q
  | Gt => round_pos x
  | Lt => (- round_pos (- x))%Q
  end.

(** The binary64 number nearest to [x]; an infinity on overflow. *)
Definition binary64 (x : Q) : num :=
  let r := round64 x in
  if Qle_bool (pow2 1024) r then PInf
  else if Qle_bool r (- pow2 1024) then NInf
  else Fin (Qred r).

(** A float operation: the exact result, rounded. *)
Definition rounded (x : num) : num :=
  match x with
  | Fin q => binary64 q
  | _ => x
  end.

Definition fsub64 (x y : num) : num := rounded (fsub x y).
Definition fmul64 (x y : num) : num := rounded (fmul x y).

(** The float an [int] operand of a float operation is converted to. *)
Definition float_of_int (z : Z) : result num :=
  match binary64 (inject_Z z) with
  | Fin q => ok (Fin q)
  | _ => raise (OverflowError "int too large to convert to float")
  end.

(** Truncation towards zero. *)
Definition int_of (x : Q) : Z :=
  if Qle_bool 0 x then Qfloor x else Qceiling x.

(** [int(x)] on a float. *)
Definition int_ (x : num) : result Z :=
  match x with
  | NaN => raise (ValueError "cannot convert float NaN to integer")
  | PInf | NInf =>
      raise (OverflowError "cannot convert float infinity to integer")
  | Fin q => ok (int_of q)
  end.

(** [int(len(df) * (1 - test_size))] on a frame of [n] rows.  [test_size]
    is the number the caller writes; as a Python float it is the binary64
    number nearest to it. *)
Definition split_index (n : nat) (test_size : Q) : result Z :=
  len ← float_of_int (Z.of_nat n);
  int_ (fmul64 len (fsub64 (of_Z 1) (binary64 test_size))).

(** Where a Python slice bound [k] falls in a sequence of [n] items: a
    negative bound counts from the end, and the result is kept in [0, n]. *)
Definition slice_bound (n : nat) (k : Z) : nat :=
  if k <? 0 then Z.to_nat (Z.max 0 (Z.of_nat n + k))
  else Z.to_nat (Z.min k (Z.of_nat n)).

(** [df.iloc[:k]] and [df.iloc[k:]] *)
Definition iloc_to {A} (k : Z) (l : list A) : list A :=
  take (slice_bound (length l) k) l.
Definition iloc_from {A} (k : Z) (l : list A) : list A :=
  drop (slice_bound (length l) k) l.

(** A row of the frame the splitter works on: the feature columns with
    [dead_stock] and [Date] attached. *)
Record SplitRow : Type := {
  s_features : FeatureRow;
  dead_stock : Z;
  s_Date : Z
}.

(** [data.features.assign(dead_stock=data.labels, Date=data.raw["Date"].values)]:
    the three views share one index, so row [i] of the frame takes the
    features, the label and the date of row [i] of each. *)
Definition assign_dead_stock_Date (data : PreparedData) : list SplitRow :=
  zip_with (λ fl d, {| s_features := fl.1; dead_stock := fl.2; s_Date := d |})
    (zip (features data) (labels data))
    ((λ r, Date (e_raw (l_eng r))) <$> raw data).

Section Splitter.
(** The indexer [sort_values("Date")] orders the rows with: the positions
    of the column in ascending order of their dates.  pandas sorts one
    column with an unstable quicksort, so the order it gives rows of equal
    date is left open; the indexer is a function of the dates alone. *)
Variable argsort : list Z → list nat.

Definition sort_values_Date (df : list SplitRow) : list SplitRow :=
  omap (λ i, df !! i) (argsort (s_Date <$> df)).

Definition train_test_split (data : PreparedData) (test_size : Q)
    (random_state : Z)
  : result (list FeatureRow * list FeatureRow * list Z * list Z) :=
  let df := assign_dead_stock_Date data in
  let df := sort_values_Date df in
  split_idx ← split_index (length df) test_size;
  let train_df := iloc_to split_idx df in
  let test_df := iloc_from split_idx df in
  ok (s_features <$> train_df, s_features <$> test_df,
      dead_stock <$> train_df, dead_stock <$> test_df).
End Splitter.

(** What an indexer has to deliver: every position once, dates ascending. *)
Record argsort_spec (argsort : list Z → list nat) : Prop := {
  argsort_perm : ∀ dates, argsort dates ≡ₚ seq 0 (length dates);
  argsort_sorted :
    ∀ dates, Sorted Z.le (omap (λ i, dates !! i) (argsort dates))
}.

(** One instance of [argsort]: positions paired with their dates and
    merge-sorted on the date. *)
Definition by_date (a b : nat * Z) : Prop := a.2 ≤ b.2.

#[global] Instance by_date_dec a b : Decision (by_date a b) :=
  decide (a.2 ≤ b.2).

Definition merge_argsort (dates : list Z) : list nat :=
  fst <$> merge_sort by_date (zip (seq 0 (length dates)) dates).

(** ** Tables as objects: in-place updates *)

(** [engineer_features] and [label_dead_stock] assign columns on the frame
    object they are given and return that object.  A frame object holds the
    rows at one of three column sets. *)
Inductive frame : Type :=
| FLoaded (rows : list Row)
| FEngineered (rows : list ERow)
| FLabeled (rows : list LRow).

Definition loc : Type := positive.

Module Store.

(** The input columns of a frame, which [engineer_features] reads. *)
Definition input_rows (f : frame) : list Row :=
  match f with
  | FLoaded rows => rows
  | FEngineered rows => e_raw <$> rows
  | FLabeled rows => (e_raw ∘ l_eng) <$> rows
  end.

(** The derived columns of a frame, which [label_dead_stock] reads; a loaded
    frame has none. *)
Definition engineered_rows (f : frame) : option (list ERow) :=
  match f with
  | FLoaded _ => None
  | FEngineered rows => Some rows
  | FLabeled rows => Some (l_eng <$> rows)
  end.

(** The label columns of a frame, [dead_stock_label] and [risk_score], when
    it has them. *)
Definition label_columns (f : frame) : option (list (Z * num)) :=
  match f with
  | FLabeled rows => Some ((λ l, (dead_stock_label l, risk_score l)) <$> rows)
  | _ => None
  end.

(** The frame after the column assignments of [engineer_features]:
    derived columns are added, or overwritten when already there; label
    columns are not touched. *)
Definition engineered (f : frame) : result frame :=
  rows ← engineer_features (input_rows f);
  ok match f with
     | FLabeled old =>
         FLabeled (zip_with (λ e l, {| l_eng := e;
                                       dead_stock_label := dead_stock_label l;
                                       risk_score := risk_score l |}) rows old)
     | _ => FEngineered rows
     end.

(** The frame after the column assignments of [label_dead_stock]; reading
    a derived column of a frame that has none is a [KeyError]. *)
Definition labeled (f : frame) : result frame :=
  match f with
  | FLoaded _ => raise (KeyError "rolling_inventory_30")
  | FEngineered rows => ok (FLabeled (label_dead_stock rows))
  | FLabeled rows => ok (FLabeled (label_dead_stock (l_eng <$> rows)))
  end.

(** A call on the object at [df]: the object is updated where it lies and
    the same reference is returned.  (A reference always points to an
    object; the first case is there for totality.) *)
Definition update_in_place (step : frame → result frame)
    (h : gmap loc frame) (df : loc) : result (gmap loc frame * loc) :=
  match h !! df with
  | None => raise (KeyError "no such object")
  | Some f => f' ← step f; ok (<[df := f']> h, df)
  end.

Definition engineer_features := update_in_place engineered.
Definition label_dead_stock := update_in_place labeled.

End Store.

(** ** Vocabulary of the specification *)

(** Order on float values as propositions; nothing is related to NaN. *)
Definition flt (x y : num) : Prop :=
  match x, y with
  | Fin a, Fin b => (a < b)%Q
  | NInf, Fin _ | NInf, PInf | Fin _, PInf => True
  | _, _ => False
  end.

Definition fle (x y : num) : Prop :=
  match x, y with
  | Fin a, Fin b => (a <= b)%Q
  | NInf, Fin _ | NInf, PInf | Fin _, PInf | NInf, NInf | PInf, PInf => True
  | _, _ => False
  end.

(** The rule signals of the labeler, in the words of the specification. *)
Definition high_inventory (table : list ERow) (r : ERow) : Prop :=
  flt (quantile (45 # 100) (rolling_inventory_30 <$> table)) (rolling_inventory_30 r).
Definition slow_turnover (r : ERow) : Prop :=
  fle (rolling_sales_7 r) (fmul (Fin (1 # 10)) (rolling_inventory_30 r)).
Definition weak_sell_through (r : ERow) : Prop :=
  flt (sell_through_rate r) (Fin (3 # 10)).
Definition overstock_vs_forecast (r : ERow) : Prop :=
  (50 < Inventory_Level (e_raw r) - Demand_Forecast (e_raw r))%Q.
Definition no_sales_today (r : ERow) : Prop := (Units_Sold (e_raw r) == 0)%Q.
Definition low_units_sold (r : ERow) : Prop := (Units_Sold (e_raw r) <= 5)%Q.


(** Rows [a] and [b] belong to the same (store, product) group. *)
Definition same_group (a b : Row) : Prop :=
  Store_ID a = Store_ID b ∧ Product_ID a = Product_ID b.

Definition in_group_of (r x : Row) : bool :=
  bool_decide (group_cols x = group_cols r).

(** The rows of the group of [r] among the first [i + 1] rows of the table:
    row [i] and the rows of its group before it. *)
Definition group_prefix (df : list Row) (i : nat) (r : Row) : list Row :=
  List.filter (in_group_of r) (take (S i) df).

(** The last [n] items of a list (all of them when there are fewer). *)
Definition last_n {A} (n : nat) (l : list A) : list A :=
  drop (length l - n) l.

(** Row [i] opens its group: no earlier row of the table is in the group. *)
Definition first_of_group (df : list Row) (i : nat) (r : Row) : Prop :=
  ∀ j x, (j < i)%nat → df !! j = Some x → group_cols x ≠ group_cols r.

(** Row [j] is the row just before row [i] in the group of [r]. *)
Definition prev_in_group (df : list Row) (j i : nat) (r : Row) : Prop :=
  (j < i)%nat ∧
  (∃ x, df !! j = Some x ∧ group_cols x = group_cols r) ∧
  ∀ m x, (j < m < i)%nat → df !! m = Some x → group_cols x ≠ group_cols r.

(** The state of the counter of [_days_since_last_sale] after a run of
    values. *)
Definition counter_step (counter : Z) (value : Q) : Z :=
  if Qpos value then 0 else counter + 1.
Definition counter_after (counter : Z) (values : list Q) : Z :=
  foldl counter_step counter values.

(** The columns of the table [engineer_features] builds, as the function
    computes them. *)
Record columns_of (df : list Row) (e : list ERow) : Prop := {
  co_length : length e = length df;
  co_raw : e_raw <$> e = df;
  co_rolling_sales_7 :
    rolling_sales_7 <$> e
    = transform (group_cols <$> df) (rolling_mean 7 1) NaN (Units_Sold <$> df);
  co_rolling_sales_30 :
    rolling_sales_30 <$> e
    = transform (group_cols <$> df) (rolling_mean 30 1) NaN (Units_Sold <$> df);
  co_rolling_inventory_30 :
    rolling_inventory_30 <$> e
    = transform (group_cols <$> df) (rolling_mean 30 1) NaN (Inventory_Level <$> df);
  co_sell_through_rate :
    sell_through_rate <$> e
    = zip_with (λ s i, fdiv s (fadd i eps)) (rolling_sales_30 <$> e)
        (rolling_inventory_30 <$> e);
  co_days_since_sale :
    days_since_sale <$> e
    = transform (group_cols <$> df) _days_since_last_sale 0 (Units_Sold <$> df);
  co_rolling_inventory_30_norm :
    minmax_norm (rolling_inventory_30 <$> e) = inr (rolling_inventory_30_norm <$> e);
  co_days_since_sale_norm :
    minmax_norm (of_Z <$> (days_since_sale <$> e)) = inr (days_since_sale_norm <$> e);
  co_sell_through_rate_norm :
    max_norm (sell_through_rate <$> e) = inr (sell_through_rate_norm <$> e)
}.

(** ** Sample tables *)

Definition mk_row (day : Z) (store product : string)
    (inventory sold ordered forecast : Q) : Row :=
  {| Date := day; Store_ID := store; Product_ID := product;
     Category := "Toys"; Region := "North"; Weather_Condition := "Sunny";
     Seasonality := "Winter";
     Inventory_Level := inventory; Units_Sold := sold;
     Units_Ordered := ordered; Demand_Forecast := forecast;
     Price := 10; Discount := 0; Competitor_Pricing := 11;
     Holiday_Promotion := false |}.

(** One group of three days with sales 5, 0, 0. *)
Definition table_500 : list Row :=
  [ mk_row 18993 "S001" "P0001" 100 5 10 40;
    mk_row 18994 "S001" "P0001" 95 0 0 40;
    mk_row 18995 "S001" "P0001" 95 0 0 40 ].

(** A group that opens on a day without sales. *)
Definition table_0 : list Row :=
  [ mk_row 18993 "S001" "P0001" 100 0 10 40 ].

(** Two groups with their rows interleaved. *)
Definition table_two_groups : list Row :=
  [ mk_row 18994 "S002" "P0001" 30 2 0 3;
    mk_row 18993 "S001" "P0001" 100 0 10 40;
    mk_row 18993 "S002" "P0001" 20 4 5 3;
    mk_row 18994 "S001" "P0001" 90 7 0 40;
    mk_row 18995 "S001" "P0001" 80 0 0 40 ].

Definition all_columns : list string :=
  ["Date"; "Store ID"; "Product ID"; "Category"; "Region"; "Inventory Level";
   "Units Sold"; "Units Ordered"; "Demand Forecast"; "Weather Condition";
   "Holiday/Promotion"; "Competitor Pricing"; "Seasonality"; "Price";
   "Discount"].

(** The two-group table as an in-memory source, and one without dates. *)
Definition frame_two_groups : DataFrame :=
  {| columns := all_columns; rows := table_two_groups |}.

Definition frame_without_date : DataFrame :=
  {| columns := ["Store ID"; "Product ID"; "Inventory Level"; "Units Sold"];
     rows := table_two_groups |}.

(** A store with one loaded table, and one with an engineered table. *)
Definition store_loaded : gmap loc frame := {[ 1%positive := FLoaded table_0 ]}.

Definition store_engineered : gmap loc frame :=
  match engineer_features table_0 with
  | inr e => {[ 1%positive := FEngineered e ]}
  | inl _ => ∅
  end.

(** A reader that knows no file. *)
Definition no_files (path : string) : result (list Row) :=
  raise (ReadError path).

(** The prepared dataset of the two-group table. *)
Definition data_two_groups : PreparedData :=
  match prepare_dataset no_files (SrcFrame frame_two_groups) with
  | inr data => data
  | inl _ => {| features := []; labels := []; raw := [] |}
  end.

(** ** The dashboard ([app.py]) *)

(** A row of the table [run_inference] returns: a row of [raw] with the two
    columns of the model. *)
Record ScoredRow : Type := {
  sc_raw : LRow;
  model_probability : num;
  predicted_label : Z
}.

Definition sc_row (r : ScoredRow) : Row := e_raw (l_eng (sc_raw r)).

Section Dashboard.
Variable read_csv : string → result (list Row).

(** [joblib.load(MODEL_PATH)] and, on the model it gives,
    [predict_proba(features)[:, 1]]: the probability of the positive class,
    one per feature row the classifier is shown. *)
Variable load_model : result (list FeatureRow → list num).

Definition build_dataset (df : DataFrame) : result PreparedData :=
  prepare_dataset read_csv (SrcFrame df).

(** Assigning a column whose length is not that of the frame is a
    [ValueError] in pandas. *)
Definition run_inference (prepared : PreparedData) : result (list ScoredRow) :=
  model ← load_model;
  let probabilities := model (features prepared) in
  let result := raw prepared in
  if bool_decide (length probabilities = length result) then
    ok (zip_with
          (λ r p, {| sc_raw := r;
                     model_probability := p;
                     predicted_label := if fleb (of_Q (5 # 10)) p then 1 else 0 |})
          result probabilities)
  else raise (ValueError "Length of values does not match length of index").
End Dashboard.

(** [a > b] on two cells of a row. *)
Definition Qgtb (a b : Q) : bool := negb (Qle_bool a b).

(** The list [actions] that [generate_recommendation] joins. *)
Definition recommendation_actions (row : ScoredRow) : list string :=
  let actions : list string := [] in
  let actions :=
    if fleb (of_Q (75 # 100)) (model_probability row)
    then actions ++ ["Launch clearance promo"]
    else if fleb (of_Q (6 # 10)) (model_probability row)
         then actions ++ ["Bundle w/ fast movers"]
         else actions in
  let actions :=
    if Qgtb (Units_Ordered (sc_row row)) (Units_Sold (sc_row row))
    then actions ++ ["Freeze re-orders"] else actions in
  let actions :=
    if Qzero (Discount (sc_row row))
       && Qgtb (Inventory_Level (sc_row row)) (Demand_Forecast (sc_row row))
    then actions ++ ["Introduce markdown"] else actions in
  match actions with
  | [] => ["Monitor weekly trend"]
  | _ => actions
  end.

Definition generate_recommendation (row : ScoredRow) : string :=
  String.concat "; " (recommendation_actions row).

(** The mask of [filter_data] on one row; [between] includes both ends. *)
Definition filter_mask (stores categories : list string) (date_range : Z * Z)
    (r : ScoredRow) : bool :=
  bool_decide (Store_ID (sc_row r) ∈ stores)
  && bool_decide (Category (sc_row r) ∈ categories)
  && ((date_range.1 <=? Date (sc_row r)) && (Date (sc_row r) <=? date_range.2)).

Definition filter_data (df : list ScoredRow) (stores categories : list string)
    (date_range : Z * Z) : list ScoredRow :=
  List.filter (filter_mask stores categories date_range) df.

(** From [main]: the rows at or above the alert threshold, and their share
    of the filtered rows (0 when the filter leaves nothing). *)
Definition high_risk (filtered : list ScoredRow) (risk_threshold : Q)
  : list ScoredRow :=
  List.filter (λ r, fleb (of_Q risk_threshold) (model_probability r)) filtered.

Definition risk_ratio (filtered : list ScoredRow) (risk_threshold : Q) : Q :=
  if (length filtered =? 0)%nat then 0%Q
  else (inject_Z (Z.of_nat (length (high_risk filtered risk_threshold)))
        / inject_Z (Z.of_nat (length filtered)))%Q.

(** ** The column lists of the feature frame and of the training pipeline *)

Definition NUMERIC_FEATURES : list string :=
  ["Inventory Level"; "Units Sold"; "Units Ordered"; "Demand Forecast";
   "Price"; "Discount"; "Competitor Pricing"].

Definition CATEGORICAL_FEATURES : list string :=
  ["Store ID"; "Product ID"; "Category"; "Region"; "Weather Condition";
   "Seasonality"].

Definition BOOLEAN_FEATURES : list string := ["Holiday/Promotion"].

(** [feature_cols] of [prepare_dataset]. *)
Definition feature_cols : list string :=
  "Date" :: NUMERIC_FEATURES ++ BOOLEAN_FEATURES ++ CATEGORICAL_FEATURES
  ++ ["rolling_sales_7"; "rolling_sales_30"; "rolling_inventory_30";
      "sell_through_rate"; "days_since_sale"; "inventory_trend";
      "forecast_error"; "order_gap"; "risk_score"].

(** The column labels of [features]: the three calendar columns are added
    at the end and ["Date"] is dropped. *)
Definition features_columns : list string :=
  List.filter (λ c, negb (String.eqb c "Date"))
    (feature_cols ++ ["day_of_year"; "month"; "is_weekend"]).

(** The columns [build_pipeline] hands to its three transformers
    ([scripts/train_model.py]). *)
Definition pipeline_numeric_features : list string :=
  NUMERIC_FEATURES
  ++ ["rolling_sales_7"; "rolling_sales_30"; "rolling_inventory_30";
      "sell_through_rate"; "days_since_sale"; "inventory_trend";
      "forecast_error"; "order_gap"; "risk_score"; "day_of_year"; "month"].

Definition pipeline_boolean_features : list string :=
  BOOLEAN_FEATURES ++ ["is_weekend"].

Definition pipeline_categorical_features : list string := CATEGORICAL_FEATURES.

(** ** More vocabulary *)

(** No two rows of the table share (store, product, date). *)
Definition unique_keys (df : list Row) : Prop :=
  ∀ a b, a ∈ df → b ∈ df →
         Store_ID a = Store_ID b → Product_ID a = Product_ID b →
         Date a = Date b → a = b.

(** A row without a sale. *)
Definition no_sale (r : Row) : Prop := ¬ (0 < Units_Sold r)%Q.

(** A scored sample: the two-group dataset with fixed probabilities. *)
Definition sample_model (xs : list FeatureRow) : list num :=
  take (length xs) [of_Q (9 # 10); of_Q (65 # 100); of_Q (1 # 10);
                    of_Q (5 # 10); NaN].

Definition scored_two_groups : list ScoredRow :=
  match run_inference (inr sample_model) data_two_groups with
  | inr rows => rows
  | inl _ => []
  end.

(** The two-group table with its rows in the opposite order. *)
Definition frame_two_groups_rev : DataFrame :=
  {| columns := all_columns; rows := reverse table_two_groups |}.

(** The conditions the dashboard tests, as propositions: a probability at
    or above a level (never true of NaN), and the two stock conditions of
    [generate_recommendation]. *)
Definition at_least (q : Q) (p : num) : Prop := fle (of_Q q) p.
Definition reorders_exceed_sales (r : Row) : Prop :=
  (Units_Sold r < Units_Ordered r)%Q.
Definition undiscounted_overstock (r : Row) : Prop :=
  (Discount r == 0)%Q ∧ (Demand_Forecast r < Inventory_Level r)%Q.

(** The rows [filter_data] asks for. *)
Definition selected (stores categories : list string) (date_range : Z * Z)
    (r : Row) : Prop :=
  Store_ID r ∈ stores ∧ Category r ∈ categories
  ∧ date_range.1 ≤ Date r ≤ date_range.2.

(** A reader that holds the two-group table under one path. *)
Definition one_file (path : string) : result (list Row) :=
  if String.eqb path "retail_store_inventory.csv" then ok table_two_groups
  else raise (ReadError path).

(** The float product [len(df) * (1 - test_size)] of the splitter as a
    rational, when no operation overflows. *)
Definition cut_value (n : nat) (test_size : Q) : Q :=
  round64 (inject_Z (Z.of_nat n) * round64 (1 - round64 test_size)).

(** * Properties *)

(** ** The error monad *)

Lemma result_bind_inr {A B} (a : A) (k : A → result B) :
  (inr a : result A) ≫= k = k a.
Proof. reflexivity. Qed.

Lemma result_bind_inl {A B} (err : error) (k : A → result B) :
  (inl err : result A) ≫= k = inl err.
Proof. reflexivity. Qed.


(** ** Lists, groups and transforms *)

Section TransformFacts.
Context {R K A B : Type} `{EqDecision K}.
Implicit Types (key : R → K) (col : R → A) (df : list R).

Lemma length_transform (keys : list K) (f : list A → list B) d vals :
  length (transform keys f d vals) = length keys.
Proof. unfold transform. by rewrite length_imap. Qed.

Lemma group_of_fmap key col df k :
  group_of (key <$> df) (col <$> df) k
  = col <$> List.filter (λ r, bool_decide (key r = k)) df.
Proof.
  unfold group_of. induction df as [|r df IH]; [done|].
  cbn. destruct (bool_decide (key r = k)); cbn; by rewrite IH.
Qed.

Lemma rank_fmap key df i k :
  rank (key <$> df) i k
  = length (List.filter (λ r, bool_decide (key r = k)) (take i df)).
Proof.
  unfold rank. rewrite <- fmap_take.
  induction (take i df) as [|r l IH]; [done|].
  cbn. destruct (bool_decide (key r = k)); cbn; by rewrite IH.
Qed.

Lemma filter_middle (P : R → bool) df i r :
  df !! i = Some r → P r = true →
  List.filter P df
  = List.filter P (take i df) ++ r :: List.filter P (drop (S i) df).
Proof.
  intros Hi HP. rewrite <- (take_drop_middle df i r Hi) at 1.
  rewrite List.filter_app. cbn. by rewrite HP.
Qed.

(** The cell a transform puts at row [i]: [f] run on the cells of the
    group, read at the position of the row in the group. *)
Lemma transform_at key col (f : list A → list B) d df i r :
  df !! i = Some r →
  let P := λ x, bool_decide (key x = key r) in
  let pre := List.filter P (take i df) in
  let post := List.filter P (drop (S i) df) in
  transform (key <$> df) f d (col <$> df) !! i
  = Some (default d (f (col <$> (pre ++ r :: post)) !! length pre)).
Proof.
  intros Hi P pre post. subst P pre post. unfold transform.
  rewrite list_lookup_imap, list_lookup_fmap, Hi. cbn.
  rewrite group_of_fmap, rank_fmap.
  rewrite (filter_middle (λ x, bool_decide (key x = key r)) df i r Hi); [done|].
  by apply bool_decide_eq_true.
Qed.
End TransformFacts.

Lemma group_prefix_snoc df i r :
  df !! i = Some r →
  group_prefix df i r = List.filter (in_group_of r) (take i df) ++ [r].
Proof.
  intros Hi. unfold group_prefix.
  rewrite (take_S_r df i r Hi), List.filter_app. cbn.
  unfold in_group_of at 2. by rewrite bool_decide_eq_true_2.
Qed.

(** ** The counter of [_days_since_last_sale] *)

Lemma counter_after_snoc c values v :
  counter_after c (values ++ [v]) = counter_step (counter_after c values) v.
Proof. unfold counter_after. by rewrite foldl_app. Qed.

Lemma days_loop_length c values : length (days_loop c values) = length values.
Proof. revert c. induction values as [|v l IH]; intros c; cbn; [done|]. by rewrite IH. Qed.

(** The value the loop appends for an item is the state of the counter after
    that item. *)
Lemma days_loop_lookup c a v b :
  days_loop c (a ++ v :: b) !! length a = Some (counter_after c (a ++ [v])).
Proof.
  revert c. induction a as [|x a IH]; intros c; cbn; [done|].
  apply IH.
Qed.

(** ** Rolling means *)

Lemma rolling_mean_length w mp xs : length (rolling_mean w mp xs) = length xs.
Proof. unfold rolling_mean. by rewrite length_fmap, length_seq. Qed.

Lemma rolling_mean_lookup w mp a v b :
  rolling_mean w mp (a ++ v :: b) !! length a
  = Some (let win := last_n w (a ++ [v]) in
          if (length win <? mp)%nat then NaN else mean win).
Proof.
  unfold rolling_mean. rewrite list_lookup_fmap, lookup_seq_lt.
  2:{ rewrite length_app. cbn. lia. }
  cbn. unfold window, last_n.
  replace (take (S (length a)) (a ++ v :: b)) with (a ++ [v]).
  2:{ rewrite (take_S_r _ _ v).
      - by rewrite take_app_length.
      - by rewrite list_lookup_middle. }
  rewrite length_app. cbn.
  by replace (length a + 1 - w)%nat with (S (length a) - w)%nat by lia.
Qed.

(** ** Normalisation *)

Lemma minmax_norm_length values out :
  minmax_norm values = inr out → length out = length values.
Proof.
  unfold minmax_norm. destruct (nanmin values) as [?|mn]; [done|].
  destruct (nanmax values) as [?|mx]; [done|]. cbn.
  intros [= <-]. by rewrite length_fmap.
Qed.

Lemma max_norm_length values out :
  max_norm values = inr out → length out = length values.
Proof.
  unfold max_norm. destruct (nanmax values) as [?|mx]; [done|]. cbn.
  intros [= <-]. by rewrite length_fmap.
Qed.

Lemma minmax_norm_ok values :
  values ≠ [] → ∃ out, minmax_norm values = inr out.
Proof. destruct values; [done|]. intros _. unfold minmax_norm. cbn. eauto. Qed.

Lemma max_norm_ok values :
  values ≠ [] → ∃ out, max_norm values = inr out.
Proof. destruct values; [done|]. intros _. unfold max_norm. cbn. eauto. Qed.

(** ** [engineer_features], column by column *)

Lemma imap_column {X Y E : Type} `{Inhabited Y} (proj : E → Y)
    (build : nat → X → E) (col : list Y) (l : list X) :
  length col = length l →
  (∀ i x, proj (build i x) = col !!! i) →
  proj <$> imap build l = col.
Proof.
  intros Hlen Hb. apply list_eq. intros i.
  rewrite list_lookup_fmap, list_lookup_imap.
  destruct (l !! i) as [x|] eqn:Hx; cbn.
  - apply lookup_lt_Some in Hx.
    rewrite (list_lookup_lookup_total_lt col i) by lia. by rewrite Hb.
  - apply lookup_ge_None in Hx. rewrite lookup_ge_None_2; [done|lia].
Qed.

Lemma imap_raw {X E : Type} (proj : E → X) (build : nat → X → E) (l : list X) :
  (∀ i x, proj (build i x) = x) → proj <$> imap build l = l.
Proof.
  intros Hb. apply list_eq. intros i.
  rewrite list_lookup_fmap, list_lookup_imap.
  destruct (l !! i); cbn; [by rewrite Hb|done].
Qed.

Lemma engineer_features_columns df e :
  engineer_features df = inr e → columns_of df e.
Proof.
  unfold engineer_features. cbv zeta.
  set (cI := transform _ (rolling_mean 30 1) NaN (Inventory_Level <$> df)).
  set (cS := transform _ (rolling_mean 30 1) NaN (Units_Sold <$> df)).
  set (cD := transform _ _days_since_last_sale 0 _).
  unfold mbind, result_bind.
  destruct (minmax_norm cI) as [?|n1] eqn:E1; [done|].
  destruct (minmax_norm (of_Z <$> cD)) as [?|n2] eqn:E2; [done|].
  destruct (max_norm _) as [?|n3] eqn:E3; [done|].
  intros [= <-].
  match goal with |- columns_of _ (imap ?b _) => set (build := b) end.
  assert (LI : length cI = length df)
    by (subst cI; by rewrite length_transform, length_fmap).
  assert (LS : length cS = length df)
    by (subst cS; by rewrite length_transform, length_fmap).
  assert (LD : length cD = length df)
    by (subst cD; by rewrite length_transform, length_fmap).
  pose proof (minmax_norm_length _ _ E1) as L1.
  pose proof (minmax_norm_length _ _ E2) as L2.
  pose proof (max_norm_length _ _ E3) as L3.
  rewrite length_fmap in L2. rewrite length_zip_with in L3.
  assert (C30 : rolling_sales_30 <$> imap build df = cS)
    by (by apply imap_column).
  assert (CI : rolling_inventory_30 <$> imap build df = cI)
    by (by apply imap_column).
  assert (CD : days_since_sale <$> imap build df = cD)
    by (by apply imap_column).
  assert (CS : sell_through_rate <$> imap build df
               = zip_with (λ s i, fdiv s (fadd i eps)) cS cI)
    by (apply imap_column; [rewrite length_zip_with; lia | done]).
  split.
  - by rewrite length_imap.
  - by apply imap_raw.
  - apply imap_column; [by rewrite length_transform, length_fmap | done].
  - exact C30.
  - exact CI.
  - by rewrite CS, C30, CI.
  - exact CD.
  - rewrite CI, E1. f_equal. symmetry. apply imap_column; [lia | done].
  - rewrite CD, E2. f_equal. symmetry. apply imap_column; [lia | done].
  - rewrite CS, E3. f_equal. symmetry. apply imap_column; [lia | done].
Qed.

Lemma engineer_features_ok df :
  df ≠ [] → ∃ e, engineer_features df = inr e.
Proof.
  intros Hne. unfold engineer_features. cbv zeta.
  assert (Hlen : ∀ {X} (l : list X), length l = length df → l ≠ []).
  { intros X l Hl ->. destruct df; [done|]. cbn in Hl. lia. }
  destruct (minmax_norm_ok
    (transform (group_cols <$> df) (rolling_mean 30 1) NaN (Inventory_Level <$> df)))
    as [n1 ->].
  { apply Hlen. by rewrite length_transform, length_fmap. }
  unfold mbind at 1, result_bind at 1.
  destruct (minmax_norm_ok
    (of_Z <$> transform (group_cols <$> df) _days_since_last_sale 0 (Units_Sold <$> df)))
    as [n2 ->].
  { apply Hlen. by rewrite length_fmap, length_transform, length_fmap. }
  unfold mbind at 1, result_bind at 1.
  match goal with |- context [max_norm ?v] =>
    destruct (max_norm_ok v) as [n3 ->] end.
  { apply Hlen. rewrite length_zip_with, !length_transform, !length_fmap. lia. }
  unfold mbind, result_bind. eauto.
Qed.

(** ** [days_since_sale] *)

Lemma Qpos_true q : Qpos q = true ↔ (0 < q)%Q.
Proof.
  unfold Qpos. rewrite negb_true_iff, <- not_true_iff_false, Qle_bool_iff.
  split; [apply Qnot_le_lt | apply Qlt_not_le].
Qed.

Lemma filter_none {X} (P : X → bool) (l : list X) :
  (∀ m x, l !! m = Some x → P x = false) → List.filter P l = [].
Proof.
  induction l as [|y l IH]; intros H; [done|]. cbn.
  rewrite (H 0%nat y eq_refl). apply IH. intros m x Hm. by apply (H (S m)).
Qed.

Lemma in_group_of_false r x :
  group_cols x ≠ group_cols r → in_group_of r x = false.
Proof. intros. unfold in_group_of. by apply bool_decide_eq_false. Qed.

(** The counter a row gets is the state of the loop after the rows of its
    group up to and including that row. *)
Lemma days_since_sale_at df e i r er :
  engineer_features df = inr e → df !! i = Some r → e !! i = Some er →
  days_since_sale er = counter_after 0 (Units_Sold <$> group_prefix df i r).
Proof.
  intros He Hr Her. apply engineer_features_columns in He.
  pose proof (co_days_since_sale _ _ He) as Hc.
  apply (f_equal (λ l, l !! i)) in Hc.
  rewrite list_lookup_fmap, Her in Hc. cbn in Hc.
  rewrite (transform_at group_cols Units_Sold _ 0 df i r Hr) in Hc.
  cbv zeta in Hc. rewrite fmap_app, fmap_cons in Hc.
  unfold _days_since_last_sale in Hc.
  rewrite <- (length_fmap Units_Sold), days_loop_lookup in Hc.
  cbn in Hc. injection Hc as ->.
  rewrite (group_prefix_snoc df i r Hr), fmap_app. done.
Qed.

Lemma group_prefix_first df i r :
  df !! i = Some r → first_of_group df i r → group_prefix df i r = [r].
Proof.
  intros Hr Hf. rewrite (group_prefix_snoc df i r Hr).
  rewrite filter_none; [done|]. intros m x Hm.
  apply lookup_take_Some in Hm as [Hm Hlt].
  apply in_group_of_false. by eapply Hf.
Qed.

Lemma group_prefix_prev df j i r x :
  df !! i = Some r → df !! j = Some x → prev_in_group df j i r →
  group_prefix df i r = group_prefix df j x ++ [r].
Proof.
  intros Hr Hx (Hji & (x' & Hx' & Hk) & Hbetween).
  assert (x' = x) as -> by congruence.
  rewrite (group_prefix_snoc df i r Hr). f_equal.
  unfold group_prefix.
  replace i with (S j + (i - S j))%nat at 1 by lia.
  rewrite <- take_take_drop, List.filter_app.
  rewrite (filter_none _ (take (i - S j) (drop (S j) df))).
  - rewrite app_nil_r. apply List.filter_ext. intros y.
    unfold in_group_of. by rewrite Hk.
  - intros m y Hm. apply lookup_take_Some in Hm as [Hm Hlt].
    rewrite lookup_drop in Hm. apply in_group_of_false.
    eapply (Hbetween (S j + m)%nat); [lia|done].
Qed.

(** C1 (as the code has it): in every group, taken in table order,
    [days_since_sale] is 0 on a row with [units_sold > 0]; on the first row
    of a group without a sale it is 1; on any later row without a sale it is
    one more than the value of the previous row of the same group. *)
Theorem days_since_sale_steps df e i r er :
  engineer_features df = inr e → df !! i = Some r → e !! i = Some er →
  ((0 < Units_Sold r)%Q → days_since_sale er = 0) ∧
  (first_of_group df i r →
   days_since_sale er = if Qpos (Units_Sold r) then 0 else 1) ∧
  (¬ (0 < Units_Sold r)%Q →
   ∀ j ej, prev_in_group df j i r → e !! j = Some ej →
           days_since_sale er = days_since_sale ej + 1).
Proof.
  intros He Hr Her.
  pose proof (days_since_sale_at df e i r er He Hr Her) as Hd.
  split; [|split].
  - intros Hpos. rewrite Hd, (group_prefix_snoc df i r Hr), fmap_app.
    cbn. rewrite counter_after_snoc. unfold counter_step.
    by rewrite (proj2 (Qpos_true _) Hpos).
  - intros Hf. rewrite Hd, (group_prefix_first df i r Hr Hf). done.
  - intros Hnp j ej Hp Hej.
    assert (∃ x, df !! j = Some x) as [x Hx]
      by (destruct Hp as (_ & (x & ? & _) & _); eauto).
    rewrite Hd, (group_prefix_prev df j i r x Hr Hx Hp), fmap_app.
    cbn. rewrite counter_after_snoc.
    rewrite <- (days_since_sale_at df e j x ej He Hx Hej).
    unfold counter_step. destruct (Qpos (Units_Sold r)) eqn:Hq; [|done].
    by apply Qpos_true in Hq.
Qed.

(** On the table with sales 5, 0, 0 the second row is one day after the
    first: the theorem applies, and gives the values 0 and 0 + 1. *)
Lemma days_since_sale_steps_witness :
  ∃ e e0 e1 r0 r1,
    engineer_features table_500 = inr e ∧
    table_500 !! 0%nat = Some r0 ∧ e !! 0%nat = Some e0 ∧
    table_500 !! 1%nat = Some r1 ∧ e !! 1%nat = Some e1 ∧
    days_since_sale e0 = 0 ∧ days_since_sale e1 = days_since_sale e0 + 1.
Proof.
  eexists _, _, _, _, _.
  split; [vm_compute; reflexivity|].
  split; [reflexivity|]. split; [reflexivity|].
  split; [reflexivity|]. split; [reflexivity|].
  split.
  - refine (proj1 (days_since_sale_steps table_500 _ 0%nat _ _ _ _ _) _);
      [vm_compute; reflexivity | reflexivity | reflexivity
      | vm_compute; reflexivity].
  - refine (proj2 (proj2 (days_since_sale_steps table_500 _ 1%nat _ _ _ _ _))
              _ 0%nat _ _ _);
      [vm_compute; reflexivity | reflexivity | reflexivity | | | reflexivity].
    + intros H. vm_compute in H. discriminate H.
    + split; [lia|]. split; [eexists; split; reflexivity|].
      intros m x Hm. lia.
Defined.

(** C1 as the specification words it fails: a group that opens on a day
    without a sale gets 1 on its first row, not 0. *)
Lemma days_since_sale_first_row_counterexample :
  ¬ (∀ df e i r er,
       engineer_features df = inr e → df !! i = Some r → e !! i = Some er →
       first_of_group df i r → days_since_sale er = 0).
Proof.
  intros H.
  specialize (H table_0 _ 0%nat _ _
                ltac:(vm_compute; reflexivity) eq_refl eq_refl).
  assert (Hf : first_of_group table_0 0 (mk_row 18993 "S001" "P0001" 100 0 10 40))
    by (intros j x Hj; lia).
  specialize (H Hf). vm_compute in H. discriminate H.
Qed.

(** ** The order of a loaded table *)

Lemma str_compare_cases (a b : string) :
  (String_as_OT.compare a b = Lt ∧ String_as_OT.compare b a = Gt)
  ∨ (String_as_OT.compare a b = Eq ∧ a = b ∧ String_as_OT.compare b a = Eq)
  ∨ (String_as_OT.compare a b = Gt ∧ String_as_OT.compare b a = Lt).
Proof.
  pose proof (@StrictOrder_Irreflexive _ _ String_as_OT.lt_strorder) as Hirr.
  pose proof (@StrictOrder_Transitive _ _ String_as_OT.lt_strorder) as Htr.
  destruct (String_as_OT.compare_spec a b) as [Hab|Hab|Hab];
    destruct (String_as_OT.compare_spec b a) as [Hba|Hba|Hba];
    unfold String_as_OT.eq in *; subst; auto.
  all: try (exfalso; by eapply Hirr).
  all: exfalso; eapply Hirr; eapply Htr; eassumption.
Qed.

(** [row_leb] is the lexicographic order on (store, product, date). *)
Lemma row_le_spec a b :
  row_le a b ↔
  String_as_OT.lt (Store_ID a) (Store_ID b)
  ∨ (Store_ID a = Store_ID b
     ∧ (String_as_OT.lt (Product_ID a) (Product_ID b)
        ∨ (Product_ID a = Product_ID b ∧ Date a ≤ Date b))).
Proof.
  unfold row_le, row_leb, String_as_OT.lt.
  destruct (str_compare_cases (Store_ID a) (Store_ID b))
    as [[-> _]|[(-> & Hs & _)|[Hgt Hlt']]].
  - cbn. split; [by left|done].
  - destruct (str_compare_cases (Product_ID a) (Product_ID b))
      as [[-> _]|[(-> & Hp & _)|[Hgt Hlt']]].
    + cbn. split; [by right; split; [|left]|done].
    + rewrite Is_true_true, Z.leb_le. split; [by right; split; [|right]|].
      by intros [?|(_ & [?|(_ & ?)])].
    + rewrite Hgt. cbn. split; [done|].
      intros [?|(_ & [?|(Hp & _)])]; try discriminate.
      rewrite Hp in Hgt. congruence.
  - rewrite Hgt. cbn. split; [done|].
    intros [?|(Hs & _)]; try discriminate.
    rewrite Hs in Hgt. congruence.
Qed.

#[global] Instance row_le_total : Total row_le.
Proof.
  intros a b. rewrite !row_le_spec. unfold String_as_OT.lt.
  destruct (str_compare_cases (Store_ID a) (Store_ID b))
    as [[? ?]|[(_ & Hs & _)|[_ ?]]]; [by left; left| |by right; left].
  destruct (str_compare_cases (Product_ID a) (Product_ID b))
    as [[? ?]|[(_ & Hp & _)|[_ ?]]].
  - left. right. split; [done|]. by left.
  - destruct (Z.le_ge_cases (Date a) (Date b)).
    + left. right. split; [done|]. right. done.
    + right. right. split; [done|]. right. done.
  - right. right. split; [done|]. by left.
Qed.

#[global] Instance row_le_trans : Transitive row_le.
Proof.
  pose proof (@StrictOrder_Transitive _ _ String_as_OT.lt_strorder) as Htr.
  intros a b c. rewrite !row_le_spec.
  intros [Hab|(Hs1 & Hab)] [Hbc|(Hs2 & Hbc)].
  - left. by eapply Htr.
  - left. by rewrite <- Hs2.
  - left. by rewrite Hs1.
  - right. split; [congruence|].
    destruct Hab as [Hab|(Hp1 & Hab)], Hbc as [Hbc|(Hp2 & Hbc)].
    + left. by eapply Htr.
    + left. by rewrite <- Hp2.
    + left. by rewrite Hp1.
    + right. split; [congruence|lia].
Qed.

Section StableSortFacts.
Context {A : Type} (R : relation A) `{∀ x y, Decision (R x y)} `{!Total R}.

Lemma insert_sorted_HdRel a x l :
  R a x → HdRel R a l → HdRel R a (insert_sorted R x l).
Proof.
  intros Hax Hl. destruct l as [|y l]; cbn; [by constructor|].
  inversion_clear Hl. case_decide; by constructor.
Qed.

Lemma insert_sorted_Sorted x l :
  Sorted R l → Sorted R (insert_sorted R x l).
Proof.
  induction 1 as [|y l Hl IH Hhd]; cbn; [by repeat constructor|].
  case_decide as Hxy.
  - repeat constructor; done.
  - constructor; [done|]. apply insert_sorted_HdRel; [|done].
    by destruct (total R x y).
Qed.

Lemma stable_sort_Sorted l : Sorted R (stable_sort R l).
Proof.
  induction l as [|x l IH]; cbn; [constructor|].
  by apply insert_sorted_Sorted.
Qed.

Lemma insert_sorted_Permutation x l : insert_sorted R x l ≡ₚ x :: l.
Proof.
  induction l as [|y l IH]; cbn; [done|].
  case_decide; [done|]. rewrite IH. apply Permutation_swap.
Qed.

Lemma stable_sort_Permutation l : stable_sort R l ≡ₚ l.
Proof.
  induction l as [|x l IH]; cbn; [done|].
  by rewrite insert_sorted_Permutation, IH.
Qed.
End StableSortFacts.

Lemma StronglySorted_filter {A} (R : relation A) (P : A → bool) l :
  StronglySorted R l → StronglySorted R (List.filter P l).
Proof.
  induction 1 as [|x l Hl IH Hx]; cbn; [constructor|].
  destruct (P x); [|done]. constructor; [done|].
  rewrite Forall_forall in *. intros y Hy. apply Hx.
  apply list_elem_of_In, List.filter_In in Hy as [Hy _].
  by apply list_elem_of_In.
Qed.

Lemma StronglySorted_take {A} (R : relation A) n l :
  StronglySorted R l → StronglySorted R (take n l).
Proof.
  intros Hl. rewrite <- (take_drop n l) in Hl.
  by apply StronglySorted_app_1_l in Hl.
Qed.

Lemma load_data_sorted read_csv source df :
  load_data read_csv source = inr df → StronglySorted row_le df.
Proof.
  unfold load_data, mbind, result_bind.
  destruct (match source with SrcPath _ => _ | _ => _ end) as [?|df0]; [done|].
  intros [= <-]. apply Sorted_StronglySorted; [apply _|].
  apply stable_sort_Sorted. apply _.
Qed.

(** In a loaded table the rows of a group come in date order. *)
Lemma group_prefix_dates read_csv source df i r :
  load_data read_csv source = inr df →
  StronglySorted Z.le (Date <$> group_prefix df i r).
Proof.
  intros Hl. apply load_data_sorted in Hl.
  assert (Hs : StronglySorted row_le (group_prefix df i r))
    by (by apply StronglySorted_filter, StronglySorted_take).
  assert (Hg : Forall (λ x, group_cols x = group_cols r) (group_prefix df i r)).
  { apply Forall_forall. intros x Hx.
    apply list_elem_of_In, List.filter_In in Hx as [_ Hx].
    unfold in_group_of in Hx. by apply bool_decide_eq_true in Hx. }
  induction Hs as [|x l Hs IH Hx]; cbn; [constructor|].
  inversion_clear Hg as [|? ? Hkx Hkl]. constructor; [by apply IH|].
  rewrite Forall_fmap, Forall_forall in *. intros y Hy. cbn.
  specialize (Hx y Hy). specialize (Hkl y Hy).
  pose proof (@StrictOrder_Irreflexive _ _ String_as_OT.lt_strorder) as Hirr.
  unfold group_cols in *.
  assert (Store_ID x = Store_ID y ∧ Product_ID x = Product_ID y) as [Es Ep]
    by (split; congruence).
  apply row_le_spec in Hx as [Hlt|(_ & [Hlt|(_ & ?)])]; [| |done].
  - rewrite Es in Hlt. exfalso. by eapply Hirr.
  - rewrite Ep in Hlt. exfalso. by eapply Hirr.
Qed.

(** ** Rolling columns *)

Lemma last_n_fmap {X Y} (f : X → Y) n l : last_n n (f <$> l) = f <$> last_n n l.
Proof. unfold last_n. by rewrite length_fmap, fmap_drop. Qed.

Lemma last_n_length {X} n (l : list X) : length (last_n n l) = (n `min` length l)%nat.
Proof. unfold last_n. rewrite length_drop. lia. Qed.

Lemma last_n_snoc_last {X} n (l : list X) x :
  (1 ≤ n)%nat → last (last_n n (l ++ [x])) = Some x.
Proof.
  intros Hn. unfold last_n. rewrite length_app. cbn.
  rewrite drop_app_le by lia. by rewrite last_snoc.
Qed.

Lemma mean_is_finite xs : xs ≠ [] → is_finite (mean xs) = true.
Proof.
  destruct xs as [|x xs]; [done|]. intros _. unfold mean, of_Q, of_Z, fdiv.
  by cbn.
Qed.

(** The cell a rolling transform puts at row [i]: the mean over the last [w]
    rows of the group of that row, up to the row itself. *)
Lemma transform_rolling_at (col : Row → Q) w df i r :
  (1 ≤ w)%nat → df !! i = Some r →
  transform (group_cols <$> df) (rolling_mean w 1) NaN (col <$> df) !! i
  = Some (mean (col <$> last_n w (group_prefix df i r))).
Proof.
  intros Hw Hr.
  rewrite (transform_at group_cols col _ NaN df i r Hr). cbv zeta.
  rewrite fmap_app, fmap_cons.
  rewrite <- (length_fmap col), rolling_mean_lookup. cbn [default]. cbv zeta.
  rewrite (group_prefix_snoc df i r Hr).
  replace (col <$> List.filter (λ x, bool_decide (group_cols x = group_cols r))
             (take i df)) with (col <$> List.filter (in_group_of r) (take i df))
    by done.
  replace ((col <$> List.filter (in_group_of r) (take i df)) ++ [col r])
    with (col <$> (List.filter (in_group_of r) (take i df) ++ [r]))
    by (by rewrite fmap_app).
  rewrite last_n_fmap, length_fmap, last_n_length, length_app.
  destruct (Nat.ltb_spec
              (w `min` (length (List.filter (in_group_of r) (take i df))
                        + length [r])) 1) as [Hlt|_]; [cbn in Hlt; lia|done].
Qed.

Lemma column_lookup {X Y} (proj : X → Y) (e : list X) (col : list Y) i x y :
  proj <$> e = col → e !! i = Some x → col !! i = Some y → proj x = y.
Proof.
  intros <- Hx. rewrite list_lookup_fmap, Hx. cbn. by intros [= <-].
Qed.

(** C8: in a loaded table, [rolling_sales_7] of a row is the mean of
    [units_sold] over that row and the up to 6 rows of its (store, product)
    group just before it, [rolling_sales_30] and [rolling_inventory_30] the
    same with 30 rows; the mean is never missing, since the window holds at
    least the row itself; the rows of the window are rows of the same group
    at or before the row, in date order. *)
Theorem rolling_means_window read_csv source df e i r er :
  load_data read_csv source = inr df → engineer_features df = inr e →
  df !! i = Some r → e !! i = Some er →
  let g := group_prefix df i r in
  (rolling_sales_7 er = mean (Units_Sold <$> last_n 7 g)
   ∧ rolling_sales_30 er = mean (Units_Sold <$> last_n 30 g)
   ∧ rolling_inventory_30 er = mean (Inventory_Level <$> last_n 30 g))
  ∧ (is_finite (rolling_sales_7 er) = true
     ∧ is_finite (rolling_sales_30 er) = true
     ∧ is_finite (rolling_inventory_30 er) = true)
  ∧ (last (last_n 7 g) = Some r ∧ length (last_n 7 g) = (7 `min` length g)%nat
     ∧ last (last_n 30 g) = Some r ∧ length (last_n 30 g) = (30 `min` length g)%nat
     ∧ (1 ≤ length g)%nat)
  ∧ (g = List.filter (in_group_of r) (take (S i) df)
     ∧ (∀ x, x ∈ g → same_group x r)
     ∧ StronglySorted Z.le (Date <$> g)).
Proof.
  intros Hl He Hr Her g. apply engineer_features_columns in He.
  pose proof (transform_rolling_at Units_Sold 7 df i r ltac:(lia) Hr) as H7.
  pose proof (transform_rolling_at Units_Sold 30 df i r ltac:(lia) Hr) as H30.
  pose proof (transform_rolling_at Inventory_Level 30 df i r ltac:(lia) Hr) as HI.
  pose proof (column_lookup _ _ _ _ _ _ (co_rolling_sales_7 _ _ He) Her H7) as E7.
  pose proof (column_lookup _ _ _ _ _ _ (co_rolling_sales_30 _ _ He) Her H30) as E30.
  pose proof (column_lookup _ _ _ _ _ _ (co_rolling_inventory_30 _ _ He) Her HI) as EI.
  assert (Hg : g = List.filter (in_group_of r) (take i df) ++ [r])
    by apply (group_prefix_snoc df i r Hr).
  assert (Hne : ∀ (col : Row → Q) n, (1 ≤ n)%nat → col <$> last_n n g ≠ []).
  { intros col n Hn Hnil. apply (f_equal length) in Hnil.
    rewrite length_fmap, last_n_length, Hg, length_app in Hnil. cbn in Hnil. lia. }
  split; [done|]. split.
  { rewrite E7, E30, EI. repeat split; apply mean_is_finite, Hne; lia. }
  split.
  { rewrite Hg. rewrite !last_n_snoc_last by lia. rewrite !last_n_length.
    rewrite length_app. cbn. repeat split; lia. }
  split; [done|]. split.
  - intros x Hx. apply list_elem_of_In, List.filter_In in Hx as [_ Hx].
    unfold in_group_of in Hx. apply bool_decide_eq_true in Hx.
    unfold group_cols in Hx. unfold same_group. by injection Hx.
  - by eapply group_prefix_dates.
Qed.

(** The third row of store S001 in the loaded two-group table: its window is
    the three S001 rows, with sales 0, 7, 0. *)
Lemma rolling_means_window_witness :
  ∃ df e r er,
    load_data no_files (SrcFrame frame_two_groups) = inr df ∧
    engineer_features df = inr e ∧
    df !! 2%nat = Some r ∧ e !! 2%nat = Some er ∧
    rolling_sales_7 er = mean (Units_Sold <$> last_n 7 (group_prefix df 2 r)) ∧
    rolling_sales_7 er = Fin (7 # 3).
Proof.
  eexists _, _, _, _.
  split; [vm_compute; reflexivity|].
  split; [vm_compute; reflexivity|].
  split; [reflexivity|]. split; [reflexivity|].
  split; [|reflexivity].
  refine (proj1 (proj1 (rolling_means_window no_files (SrcFrame frame_two_groups)
                          _ _ 2%nat _ _ _ _ _ _)));
    [vm_compute; reflexivity | vm_compute; reflexivity | reflexivity | reflexivity].
Defined.

(** ** Min-max normalisation of a constant column *)

Lemma fltb_irrefl v : fltb v v = false.
Proof.
  destruct v as [| | |q]; cbn; try done.
  apply negb_false_iff, Qle_bool_iff, Qle_refl.
Qed.

Lemma fmin_same v : fmin v v = v.
Proof. unfold fmin. rewrite fltb_irrefl. by destruct v. Qed.

Lemma fmax_same v : fmax v v = v.
Proof. unfold fmax. rewrite fltb_irrefl. by destruct v. Qed.

Lemma foldl_const (op : num → num → num) v l :
  op v v = v → Forall (eq v) l → foldl op v l = v.
Proof.
  intros Hop. induction 1 as [|x l Hx _ IH]; cbn; [done|].
  rewrite <- Hx. by rewrite Hop.
Qed.

Lemma Qred_sub_same q : Qred (q - q) = 0%Q.
Proof.
  change 0%Q with (Qred 0). apply Qred_complete. unfold Qminus.
  apply Qplus_opp_r.
Qed.

(** With span zero the loop divides by 1.0: every cell becomes 0. *)
Lemma norm_cell_same v :
  nan_to_num (fdiv (fsub v v)
                (if truthy (fsub v v) then fsub v v else of_Z 1)) = Fin 0.
Proof.
  destruct v as [| | |q]; cbn; try done.
  rewrite Qred_sub_same. done.
Qed.

Lemma minmax_norm_const values out v :
  Forall (eq v) values → minmax_norm values = inr out → Forall (eq (Fin 0)) out.
Proof.
  intros Hv. unfold minmax_norm, nanmin, nanmax.
  destruct values as [|x l]; [done|].
  inversion_clear Hv as [|? ? Hx Hl]. subst x.
  unfold mbind, result_bind, ok.
  rewrite (foldl_const fmin v l (fmin_same v) Hl).
  rewrite (foldl_const fmax v l (fmax_same v) Hl).
  intros [= <-]. apply Forall_forall. intros y Hy.
  apply elem_of_cons in Hy as [->|Hy]; [symmetry; apply norm_cell_same|].
  apply (list_elem_of_fmap_1 _ l y) in Hy as (z & -> & Hz).
  rewrite Forall_forall in Hl. rewrite <- (Hl z Hz).
  symmetry. apply norm_cell_same.
Qed.

Lemma column_const {X Y} (proj : X → Y) (e : list X) r :
  r ∈ e → (∀ a b, a ∈ e → b ∈ e → proj a = proj b) →
  Forall (eq (proj r)) (proj <$> e).
Proof.
  intros Hr Heq. rewrite Forall_fmap, Forall_forall. intros x Hx. cbn.
  by apply Heq.
Qed.

(** C9: on a table with at least one row [engineer_features] returns, and
    when [rolling_inventory_30] (or [days_since_sale]) takes one value on all
    rows, its min-max normalised companion is 0 on every row. *)
Theorem zero_range_norm_is_zero df :
  df ≠ [] →
  ∃ e, engineer_features df = inr e ∧
    ((∀ a b, a ∈ e → b ∈ e → rolling_inventory_30 a = rolling_inventory_30 b) →
     ∀ r, r ∈ e → rolling_inventory_30_norm r = Fin 0) ∧
    ((∀ a b, a ∈ e → b ∈ e → days_since_sale a = days_since_sale b) →
     ∀ r, r ∈ e → days_since_sale_norm r = Fin 0).
Proof.
  intros Hne. destruct (engineer_features_ok df Hne) as [e He].
  exists e. split; [done|]. apply engineer_features_columns in He.
  split; intros Heq r Hr.
  - pose proof (column_const rolling_inventory_30 e r Hr Heq) as Hc.
    pose proof (minmax_norm_const _ _ _ Hc
                  (co_rolling_inventory_30_norm _ _ He)) as Hz.
    rewrite Forall_fmap, Forall_forall in Hz. symmetry. by apply Hz.
  - pose proof (column_const days_since_sale e r Hr Heq) as Hc.
    assert (Hc' : Forall (eq (of_Z (days_since_sale r)))
                    (of_Z <$> (days_since_sale <$> e))).
    { rewrite Forall_fmap. eapply Forall_impl; [exact Hc|]. by intros ? <-. }
    pose proof (minmax_norm_const _ _ _ Hc'
                  (co_days_since_sale_norm _ _ He)) as Hz.
    rewrite Forall_fmap, Forall_forall in Hz. symmetry. by apply Hz.
Qed.

(** On the one-row table both columns are constant, and both companions
    are 0. *)
Lemma zero_range_norm_is_zero_witness :
  table_0 ≠ [] ∧
  (fmap rolling_inventory_30_norm <$> engineer_features table_0) = inr [Fin 0] ∧
  (fmap days_since_sale_norm <$> engineer_features table_0) = inr [Fin 0] ∧
  ∃ e, engineer_features table_0 = inr e ∧
    ((∀ a b, a ∈ e → b ∈ e → rolling_inventory_30 a = rolling_inventory_30 b) →
     ∀ r, r ∈ e → rolling_inventory_30_norm r = Fin 0) ∧
    ((∀ a b, a ∈ e → b ∈ e → days_since_sale a = days_since_sale b) →
     ∀ r, r ∈ e → days_since_sale_norm r = Fin 0).
Proof.
  split; [done|]. split; [vm_compute; reflexivity|].
  split; [vm_compute; reflexivity|].
  apply (zero_range_norm_is_zero table_0). done.
Defined.

(** ** The risk score *)




Lemma is_finite_Fin x : is_finite x = true → ∃ q, x = Fin q.
Proof. destruct x; try done. eauto. Qed.







Lemma label_dead_stock_lookup e i r :
  label_dead_stock e !! i = Some r →
  ∃ er, e !! i = Some er
        ∧ r = label_row (quantile (45 # 100) (rolling_inventory_30 <$> e)) er.
Proof.
  unfold label_dead_stock. rewrite list_lookup_fmap.
  destruct (e !! i) as [er|]; [|done]. cbn. intros [= <-]. eauto.
Qed.



(** ** The label rule *)

Lemma fltb_spec x y : fltb x y = true ↔ flt x y.
Proof.
  destruct x as [| | |a], y as [| | |b]; cbn; try done.
  rewrite negb_true_iff, <- not_true_iff_false, Qle_bool_iff.
  split; [apply Qnot_le_lt | apply Qlt_not_le].
Qed.

Lemma fleb_spec x y : fleb x y = true ↔ fle x y.
Proof.
  destruct x as [| | |a], y as [| | |b]; cbn; try done.
  apply Qle_bool_iff.
Qed.

Lemma no_sales_today_spec u : feqb (of_Q u) (of_Z 0) = true ↔ (u == 0)%Q.
Proof.
  unfold feqb, of_Q, of_Z. rewrite Qeq_bool_iff, Qred_correct. done.
Qed.

Lemma low_units_sold_spec u : fleb (of_Q u) (of_Z 5) = true ↔ (u <= 5)%Q.
Proof.
  unfold fleb, of_Q, of_Z. rewrite Qle_bool_iff, Qred_correct. done.
Qed.

Lemma overstock_spec inv fc :
  fgtb (fsub (of_Q inv) (of_Q fc)) (of_Z 50) = true ↔ (50 < inv - fc)%Q.
Proof.
  unfold fgtb. rewrite fltb_spec. unfold of_Q, of_Z, fsub, flt.
  rewrite !Qred_correct. done.
Qed.

(** C2: the label of a row is 1 exactly when one of the four rule
    conjunctions holds, with the signals as the specification words them;
    the percentile is taken over the whole table. *)
Theorem dead_stock_label_rule e i r :
  label_dead_stock e !! i = Some r →
  e !! i = Some (l_eng r) ∧
  (dead_stock_label r = 1 ↔
     (high_inventory e (l_eng r) ∧ slow_turnover (l_eng r))
     ∨ (overstock_vs_forecast (l_eng r) ∧ weak_sell_through (l_eng r))
     ∨ (high_inventory e (l_eng r) ∧ no_sales_today (l_eng r))
     ∨ (high_inventory e (l_eng r) ∧ low_units_sold (l_eng r))).
Proof.
  intros Hr. apply label_dead_stock_lookup in Hr as (er & Her & ->).
  split; [done|]. unfold label_row. cbn [dead_stock_label l_eng].
  unfold high_inventory, slow_turnover, weak_sell_through,
    overstock_vs_forecast, no_sales_today, low_units_sold.
  rewrite <- !fltb_spec, <- fleb_spec.
  rewrite <- overstock_spec, <- no_sales_today_spec, <- low_units_sold_spec.
  unfold fgtb.
  change (of_Q (1 # 10)) with (Fin (1 # 10)).
  change (of_Q (3 # 10)) with (Fin (3 # 10)).
  match goal with |- context [if ?c then 1 else 0] =>
    assert (Hc : (if c then 1 else 0) = 1 ↔ c = true) by (by destruct c);
    rewrite Hc; clear Hc end.
  rewrite !orb_true_iff, !andb_true_iff. tauto.
Qed.

Lemma dead_stock_label_rule_witness :
  ∃ e r,
    engineer_features table_two_groups = inr e ∧
    label_dead_stock e !! 1%nat = Some r ∧
    dead_stock_label r = 1 ∧
    (dead_stock_label r = 1 ↔
       (high_inventory e (l_eng r) ∧ slow_turnover (l_eng r))
       ∨ (overstock_vs_forecast (l_eng r) ∧ weak_sell_through (l_eng r))
       ∨ (high_inventory e (l_eng r) ∧ no_sales_today (l_eng r))
       ∨ (high_inventory e (l_eng r) ∧ low_units_sold (l_eng r))).
Proof.
  eexists _, _.
  split; [vm_compute; reflexivity|]. split; [vm_compute; reflexivity|].
  split; [reflexivity|].
  refine (proj2 (dead_stock_label_rule _ 1%nat _ _)). vm_compute; reflexivity.
Defined.

(** ** The loader's errors *)

(** C7: an in-memory table without a ["Date"] column makes [load_data]
    raise the [ValueError] the module keeps for a missing column (the
    schema-error kind of the specification); it is not the [TypeError] an
    unsupported source gets, and neither the loader nor the pipeline returns
    a table. *)
Theorem load_data_missing_date read_csv (t : DataFrame) :
  "Date" ∉ columns t →
  load_data read_csv (SrcFrame t)
  = inl (ValueError "DataFrame must include a 'Date' column.")
  ∧ prepare_dataset read_csv (SrcFrame t)
    = inl (ValueError "DataFrame must include a 'Date' column.")
  ∧ (∀ df, load_data read_csv (SrcFrame t) ≠ inr df)
  ∧ (∀ data, prepare_dataset read_csv (SrcFrame t) ≠ inr data)
  ∧ (∀ type_name,
       load_data read_csv (SrcOther type_name)
       = inl (TypeError ("Unsupported data source type: " +:+ type_name)))
  ∧ (∀ msg, ValueError "DataFrame must include a 'Date' column." ≠ TypeError msg).
Proof.
  intros Hno.
  assert (Hl : load_data read_csv (SrcFrame t)
               = inl (ValueError "DataFrame must include a 'Date' column.")).
  { unfold load_data. by rewrite bool_decide_eq_false_2. }
  assert (Hp : prepare_dataset read_csv (SrcFrame t)
               = inl (ValueError "DataFrame must include a 'Date' column.")).
  { unfold prepare_dataset. by rewrite Hl. }
  split; [done|]. split; [done|].
  split; [by rewrite Hl|]. split; [by rewrite Hp|].
  split; [done|]. done.
Qed.

Lemma load_data_missing_date_witness :
  ("Date" ∉ columns frame_without_date) ∧
  load_data no_files (SrcFrame frame_without_date)
  = inl (ValueError "DataFrame must include a 'Date' column.").
Proof.
  assert (H : "Date" ∉ columns frame_without_date)
    by (apply (bool_decide_eq_false_1 _); vm_compute; reflexivity).
  split; [exact H|].
  exact (proj1 (load_data_missing_date no_files frame_without_date H)).
Defined.

(** ** The assembled dataset *)

(** C4: when [prepare_dataset] returns, its three views have one length and
    one row order, and at every row index they describe one record: the
    label is the [dead_stock_label] of row [i] of [raw], and each of the 26
    columns of row [i] of [features] holds the value row [i] of [raw] has in
    the column of that name (the three calendar columns are those of its
    date); [raw] holds the rows of the loaded table in the loader's
    order. *)
Theorem prepared_views_aligned read_csv source data :
  prepare_dataset read_csv source = inr data →
  length (features data) = length (raw data)
  ∧ length (labels data) = length (raw data)
  ∧ (∀ i, (i < length (raw data))%nat →
       ∃ f l r,
         features data !! i = Some f
         ∧ labels data !! i = Some l
         ∧ raw data !! i = Some r
         ∧ l = dead_stock_label r
          ∧ f_Inventory_Level f = Inventory_Level (e_raw (l_eng r))
          ∧ f_Units_Sold f = Units_Sold (e_raw (l_eng r))
          ∧ f_Units_Ordered f = Units_Ordered (e_raw (l_eng r))
          ∧ f_Demand_Forecast f = Demand_Forecast (e_raw (l_eng r))
          ∧ f_Price f = Price (e_raw (l_eng r))
          ∧ f_Discount f = Discount (e_raw (l_eng r))
          ∧ f_Competitor_Pricing f = Competitor_Pricing (e_raw (l_eng r))
          ∧ f_Holiday_Promotion f = Holiday_Promotion (e_raw (l_eng r))
          ∧ f_Store_ID f = Store_ID (e_raw (l_eng r))
          ∧ f_Product_ID f = Product_ID (e_raw (l_eng r))
          ∧ f_Category f = Category (e_raw (l_eng r))
          ∧ f_Region f = Region (e_raw (l_eng r))
          ∧ f_Weather_Condition f = Weather_Condition (e_raw (l_eng r))
          ∧ f_Seasonality f = Seasonality (e_raw (l_eng r))
          ∧ f_rolling_sales_7 f = rolling_sales_7 (l_eng r)
          ∧ f_rolling_sales_30 f = rolling_sales_30 (l_eng r)
          ∧ f_rolling_inventory_30 f = rolling_inventory_30 (l_eng r)
          ∧ f_sell_through_rate f = sell_through_rate (l_eng r)
          ∧ f_days_since_sale f = days_since_sale (l_eng r)
          ∧ f_inventory_trend f = inventory_trend (l_eng r)
          ∧ f_forecast_error f = forecast_error (l_eng r)
          ∧ f_order_gap f = order_gap (l_eng r)
          ∧ f_risk_score f = risk_score r
          ∧ day_of_year f = dt_dayofyear (Date (e_raw (l_eng r)))
          ∧ month f = dt_month (Date (e_raw (l_eng r)))
          ∧ is_weekend f = (5 <=? dt_weekday (Date (e_raw (l_eng r)))))
  ∧ (∀ i, features data !! i = feature_view <$> raw data !! i
          ∧ labels data !! i = dead_stock_label <$> raw data !! i)
  ∧ (∃ df, load_data read_csv source = inr df
           ∧ (e_raw ∘ l_eng) <$> raw data = df).
Proof.
  unfold prepare_dataset, mbind, result_bind.
  destruct (load_data read_csv source) as [?|df] eqn:Hl; [done|].
  destruct (engineer_features df) as [?|e] eqn:He; [done|].
  intros [= <-]. cbn [features labels raw].
  rewrite !length_fmap. split; [done|]. split; [done|]. split; [|split].
  - intros i Hi. destruct (lookup_lt_is_Some_2 _ i Hi) as [r Hr].
    exists (feature_view r), (dead_stock_label r), r.
    rewrite !list_lookup_fmap, Hr. cbn [fmap option_fmap option_map].
    unfold feature_view. cbv zeta.
    cbn [f_Inventory_Level f_Units_Sold f_Units_Ordered f_Demand_Forecast
         f_Price f_Discount f_Competitor_Pricing f_Holiday_Promotion
         f_Store_ID f_Product_ID f_Category f_Region f_Weather_Condition
         f_Seasonality f_rolling_sales_7 f_rolling_sales_30
         f_rolling_inventory_30 f_sell_through_rate f_days_since_sale
         f_inventory_trend f_forecast_error f_order_gap f_risk_score
         day_of_year month is_weekend].
    repeat split.
  - intros i. by rewrite !list_lookup_fmap.
  - exists df. split; [done|].
    apply engineer_features_columns in He.
    unfold label_dead_stock. rewrite <- list_fmap_compose.
    rewrite <- (co_raw _ _ He). by apply list_fmap_ext.
Qed.

(** Row 0 of the prepared two-group dataset: the features row carries the
    store, the inventory level and the risk score of row 0 of [raw]. *)
Lemma prepared_views_aligned_witness :
  ∃ data f r,
    prepare_dataset no_files (SrcFrame frame_two_groups) = inr data ∧
    length (features data) = 5%nat ∧
    length (features data) = length (raw data) ∧
    length (labels data) = length (raw data) ∧
    features data !! 0%nat = Some f ∧ raw data !! 0%nat = Some r ∧
    f_Inventory_Level f = Inventory_Level (e_raw (l_eng r)) ∧
    f_Store_ID f = Store_ID (e_raw (l_eng r)) ∧
    f_risk_score f = risk_score r.
Proof.
  pose proof (prepared_views_aligned no_files (SrcFrame frame_two_groups) _
                ltac:(vm_compute; reflexivity)) as (H1 & H2 & Hrow & _).
  destruct (Hrow 0%nat ltac:(apply Nat.ltb_lt; vm_compute; reflexivity))
    as (f & l & r & Hf & _ & Hr & _ & Hinv & _ & _ & _ & _ & _ & _ & _ & Hstore
        & _ & _ & _ & _ & _ & _ & _ & _ & _ & _ & _ & _ & _ & Hrisk & _).
  eexists _, f, r. split; [vm_compute; reflexivity|].
  split; [vm_compute; reflexivity|].
  split; [exact H1|]. split; [exact H2|]. split; [exact Hf|].
  split; [exact Hr|]. split; [exact Hinv|]. split; [exact Hstore|exact Hrisk].
Defined.

(** ** The chronological split *)

(** C10: [random_state] is not read: two calls that differ only in it
    return the same four frames, whatever indexer sorts the dates. *)
Theorem train_test_split_ignores_random_state
    argsort data test_size (r1 r2 : Z) :
  train_test_split argsort data test_size r1
  = train_test_split argsort data test_size r2.
Proof. unfold train_test_split. reflexivity. Qed.

Lemma omap_lookup_seq {A} (l : list A) n m :
  omap (λ i, l !! i) (seq n m) = take m (drop n l).
Proof.
  revert n. induction m as [|m IH]; intros n; cbn; [done|].
  rewrite IH. destruct (l !! n) as [x|] eqn:Hn.
  - by rewrite (drop_S l x n Hn).
  - apply lookup_ge_None in Hn.
    rewrite !drop_ge by lia. by rewrite !take_nil.
Qed.

Lemma fmap_omap_lookup {A B} (f : A → B) (l : list A) (idx : list nat) :
  f <$> omap (λ i, l !! i) idx = omap (λ i, (f <$> l) !! i) idx.
Proof.
  induction idx as [|i idx IH]; cbn; [done|].
  rewrite list_lookup_fmap. destruct (l !! i); cbn; by rewrite IH.
Qed.

Section SplitterFacts.
Variable argsort : list Z → list nat.
Hypothesis argsort_ok : argsort_spec argsort.

Lemma sort_values_Date_Permutation df : sort_values_Date argsort df ≡ₚ df.
Proof.
  unfold sort_values_Date.
  rewrite (argsort_perm _ argsort_ok), length_fmap, omap_lookup_seq.
  by rewrite drop_0, take_ge.
Qed.

Lemma sort_values_Date_sorted df :
  StronglySorted Z.le (s_Date <$> sort_values_Date argsort df).
Proof.
  unfold sort_values_Date. rewrite fmap_omap_lookup.
  apply Sorted_StronglySorted; [apply _|].
  apply (argsort_sorted _ argsort_ok).
Qed.
End SplitterFacts.

Lemma slice_bound_le n k : (slice_bound n k ≤ n)%nat.
Proof. unfold slice_bound. destruct (Z.ltb_spec k 0); lia. Qed.

(** ** Binary64 rounding *)

(** *** Powers of two *)

Lemma pow2_pos e : (0 < pow2 e)%Q.
Proof. apply Qpower_0_lt. done. Qed.

Lemma pow2_plus a b : (pow2 (a + b) == pow2 a * pow2 b)%Q.
Proof. apply Qpower_plus. done. Qed.

Lemma pow2_le a b : a ≤ b → (pow2 a <= pow2 b)%Q.
Proof. intros. apply Qpower_le_compat_l; [done|]. done. Qed.

Lemma pow2_lt a b : a < b → (pow2 a < pow2 b)%Q.
Proof. intros. apply Qpower_lt_compat_l; [done|]. done. Qed.

Lemma pow2_Z e : 0 ≤ e → (pow2 e == inject_Z (2 ^ e))%Q.
Proof. intros. unfold pow2. by rewrite Zpower_Qpower. Qed.

Lemma pow2_succ e : (pow2 (e + 1) == 2 * pow2 e)%Q.
Proof. rewrite pow2_plus. change (pow2 1) with 2%Q. ring. Qed.

Lemma pow2_pred e : (pow2 (e - 1) == pow2 e / 2)%Q.
Proof.
  replace e with ((e - 1) + 1) at 2 by lia. rewrite pow2_succ. field.
Qed.

Lemma pow2_lt_inv a b : (pow2 a < pow2 b)%Q → a < b.
Proof. intros H. apply (Qpower_lt_compat_l_inv 2); done. Qed.

(** *** The exponent of a positive number *)

Lemma Qmult_lt_le_compat a b c d :
  (0 <= a)%Q → (a < b)%Q → (0 < c)%Q → (c <= d)%Q → (a * c < b * d)%Q.
Proof. intros. nra. Qed.

Lemma ilog2_spec x :
  (0 < x)%Q → (pow2 (ilog2 x) <= x)%Q ∧ (x < pow2 (ilog2 x + 1))%Q.
Proof.
  intros Hx. destruct x as [a b]. 
  assert (Ha : 0 < a) by (unfold Qlt in Hx; cbn in Hx; lia).
  unfold ilog2. cbn [Qnum Qden].
  set (la := Z.log2 a). set (lb := Z.log2 (Z.pos b)).
  assert (Hla : 0 ≤ la) by apply Z.log2_nonneg.
  assert (Hlb : 0 ≤ lb) by apply Z.log2_nonneg.
  destruct (Z.log2_spec a Ha) as [Ha1 Ha2]. fold la in Ha1, Ha2.
  destruct (Z.log2_spec (Z.pos b) ltac:(lia)) as [Hb1 Hb2]. fold lb in Hb1, Hb2.
  set (A := inject_Z a). set (B := inject_Z (Z.pos b)).
  assert (HxAB : (a # b == A / B)%Q) by apply Qmake_Qdiv.
  assert (HB : (0 < B)%Q) by (unfold B; change 0%Q with (inject_Z 0); rewrite <- Zlt_Qlt; lia).
  assert (HA1 : (pow2 la <= A)%Q) by (rewrite pow2_Z by done; unfold A; by rewrite <- Zle_Qle).
  assert (HA2 : (A < 2 * pow2 la)%Q).
  { rewrite <- pow2_succ, pow2_Z by lia. unfold A. rewrite <- Zlt_Qlt.
    by rewrite <- Z.add_1_r in Ha2. }
  assert (HB1 : (pow2 lb <= B)%Q) by (rewrite pow2_Z by done; unfold B; by rewrite <- Zle_Qle).
  assert (HB2 : (B < 2 * pow2 lb)%Q).
  { rewrite <- pow2_succ, pow2_Z by lia. unfold B. rewrite <- Zlt_Qlt.
    by rewrite <- Z.add_1_r in Hb2. }
  pose proof (pow2_pos la) as Hpa. pose proof (pow2_pos lb) as Hpb.
  assert (HE : (pow2 (la - lb) * pow2 lb == pow2 la)%Q).
  { rewrite <- pow2_plus. by replace (la - lb + lb) with la by lia. }
  pose proof (pow2_pos (la - lb)) as HEp.
  set (E := pow2 (la - lb)) in *.
  set (x := (a # b)%Q) in *.
  assert (HxB : (x * B == A)%Q) by (rewrite HxAB; field; lra).
  assert (Hup : (x < 2 * E)%Q).
  { assert (H1 : (E * pow2 lb <= E * B)%Q) by (apply Qmult_le_l; done).
    assert (H2 : (x * B < 2 * E * B)%Q) by lra.
    apply (Qmult_lt_r _ _ B); done. }
  assert (Hlow : (E / 2 < x)%Q).
  { assert (H1 : (x * B < x * (2 * pow2 lb))%Q) by (apply Qmult_lt_l; done).
    assert (H2 : (E * pow2 lb < 2 * x * pow2 lb)%Q) by lra.
    assert (H3 : (E < 2 * x)%Q) by (apply (Qmult_lt_r _ _ (pow2 lb)); done).
    apply Qlt_shift_div_r; lra. }
  destruct (Qle_bool E x) eqn:Hle.
  - apply Qle_bool_iff in Hle. split; [done|]. by rewrite pow2_succ.
  - assert (HltE : (x < E)%Q).
    { apply Qnot_le_lt. intros H. apply Qle_bool_iff in H. congruence. }
    rewrite pow2_pred. fold E. split; [lra|].
    by replace (la - lb - 1 + 1) with (la - lb) by lia.
Qed.

Lemma ilog2_unique x e :
  (pow2 e <= x)%Q → (x < pow2 (e + 1))%Q → ilog2 x = e.
Proof.
  intros H1 H2.
  assert (Hx : (0 < x)%Q) by (pose proof (pow2_pos e); lra).
  destruct (ilog2_spec x Hx) as [H3 H4].
  assert (ilog2 x < e + 1) by (apply pow2_lt_inv; lra).
  assert (e < ilog2 x + 1) by (apply pow2_lt_inv; lra).
  lia.
Qed.

Lemma ilog2_comp x y : (0 < x)%Q → (x == y)%Q → ilog2 x = ilog2 y.
Proof.
  intros Hx Hxy. symmetry. destruct (ilog2_spec x Hx).
  apply ilog2_unique; lra.
Qed.

Lemma ilog2_mono x y : (0 < x)%Q → (x <= y)%Q → ilog2 x ≤ ilog2 y.
Proof.
  intros Hx Hxy. destruct (ilog2_spec x Hx) as [H1 _].
  destruct (ilog2_spec y ltac:(lra)) as [_ H2].
  assert (ilog2 x < ilog2 y + 1) by (apply pow2_lt_inv; lra). lia.
Qed.

Lemma ilog2_lt x e : (0 < x)%Q → (x < pow2 e)%Q → ilog2 x < e.
Proof.
  intros Hx H. destruct (ilog2_spec x Hx). apply pow2_lt_inv. lra.
Qed.

Lemma ilog2_ge x e : (pow2 e <= x)%Q → e ≤ ilog2 x.
Proof.
  intros H. pose proof (pow2_pos e).
  destruct (ilog2_spec x ltac:(lra)).
  assert (e < ilog2 x + 1) by (apply pow2_lt_inv; lra). lia.
Qed.

(** *** The nearest integer *)

Lemma rne_cases x :
  let f := Qfloor x in
  ((x - inject_Z f < 1 # 2)%Q ∧ rne x = f)
  ∨ ((1 # 2 < x - inject_Z f)%Q ∧ rne x = f + 1)
  ∨ ((x - inject_Z f == 1 # 2)%Q ∧ (rne x = f ∨ rne x = f + 1)).
Proof.
  intros f. unfold rne. fold f.
  destruct (x - inject_Z f ?= 1 # 2)%Q eqn:Hc.
  - right; right. split; [by apply Qeq_alt|]. destruct (Z.even f); auto.
  - left. split; [by apply Qlt_alt|done].
  - right; left. split; [by apply Qgt_alt|done].
Qed.

Lemma Qfloor_frac x :
  (0 <= x - inject_Z (Qfloor x))%Q ∧ (x - inject_Z (Qfloor x) < 1)%Q.
Proof.
  pose proof (Qfloor_le x). pose proof (Qlt_floor x) as Hlt.
  rewrite inject_Z_plus in Hlt. change (inject_Z 1) with 1%Q in Hlt.
  split; lra.
Qed.

Lemma rne_comp x y : (x == y)%Q → rne x = rne y.
Proof.
  intros H. unfold rne. rewrite (Qfloor_comp _ _ H).
  assert (Hc : (x - inject_Z (Qfloor y) ?= 1 # 2)%Q
               = (y - inject_Z (Qfloor y) ?= 1 # 2)%Q).
  { apply Qcompare_comp; [|done]. by rewrite H. }
  by rewrite Hc.
Qed.

Lemma rne_Z z : rne (inject_Z z) = z.
Proof.
  unfold rne. rewrite Qfloor_Z.
  assert (Hc : (inject_Z z - inject_Z z ?= 1 # 2)%Q = Lt).
  { rewrite <- Qlt_alt. ring_simplify. done. }
  by rewrite Hc.
Qed.

Lemma rne_error x :
  (inject_Z (rne x) - x <= 1 # 2)%Q ∧ (x - inject_Z (rne x) <= 1 # 2)%Q.
Proof.
  destruct (Qfloor_frac x) as [H0 H1].
  destruct (rne_cases x) as [[H ->]|[[H ->]|[H [-> | ->]]]];
    rewrite ?inject_Z_plus; change (inject_Z 1) with 1%Q; split; lra.
Qed.

Lemma rne_mono x y : (x <= y)%Q → rne x ≤ rne y.
Proof.
  intros Hxy. pose proof (Qfloor_resp_le _ _ Hxy) as Hf.
  destruct (Qfloor_frac x) as [Hx0 Hx1]. destruct (Qfloor_frac y) as [Hy0 Hy1].
  destruct (Z.eq_dec (Qfloor x) (Qfloor y)) as [Heq|Hne].
  - destruct (rne_cases x) as [[Hx ->]|[[Hx ->]|[Hx Hrx]]];
      destruct (rne_cases y) as [[Hy ->]|[[Hy ->]|[Hy Hry]]];
      rewrite <- ?Heq in *; try lia; try (exfalso; lra).
    assert (Hxy' : (x == y)%Q) by lra. rewrite (rne_comp _ _ Hxy'). lia.
  - assert (Qfloor x + 1 ≤ Qfloor y) by lia.
    assert (rne x ≤ Qfloor x + 1).
    { destruct (rne_cases x) as [[_ ->]|[[_ ->]|[_ [-> | ->]]]]; lia. }
    assert (Qfloor y ≤ rne y).
    { destruct (rne_cases y) as [[_ ->]|[[_ ->]|[_ [-> | ->]]]]; lia. }
    lia.
Qed.

Lemma rne_nonneg x : (0 <= x)%Q → 0 ≤ rne x.
Proof. intros H. rewrite <- (rne_Z 0). by apply rne_mono. Qed.

(** *** Rounding to binary64 *)

Lemma quantum_exp_comp x y :
  (0 < x)%Q → (x == y)%Q → quantum_exp x = quantum_exp y.
Proof. intros Hx Hxy. unfold quantum_exp. by rewrite (ilog2_comp x y). Qed.

Lemma quantum_exp_mono x y :
  (0 < x)%Q → (x <= y)%Q → quantum_exp x ≤ quantum_exp y.
Proof.
  intros Hx Hxy. unfold quantum_exp. pose proof (ilog2_mono x y Hx Hxy). lia.
Qed.

Lemma round_pos_comp x y : (0 < x)%Q → (x == y)%Q → (round_pos x == round_pos y)%Q.
Proof.
  intros Hx Hxy. unfold round_pos. rewrite (quantum_exp_comp x y Hx Hxy).
  rewrite (rne_comp (x / pow2 (quantum_exp y)) (y / pow2 (quantum_exp y)));
    [reflexivity|]. by rewrite Hxy.
Qed.

Lemma scaled_nonneg x e : (0 <= x)%Q → (0 <= x / pow2 e)%Q.
Proof.
  intros Hx. pose proof (pow2_pos e). apply Qle_shift_div_l; [done|]. lra.
Qed.

Lemma round_pos_nonneg x : (0 < x)%Q → (0 <= round_pos x)%Q.
Proof.
  intros Hx. unfold round_pos. apply Qmult_le_0_compat.
  - change 0%Q with (inject_Z 0). rewrite <- Zle_Qle. apply rne_nonneg.
    apply scaled_nonneg. lra.
  - pose proof (pow2_pos (quantum_exp x)). lra.
Qed.

(** The scaled significand of a positive number is below 2^53, and at
    least 2^52 unless the number is subnormal. *)
Lemma scaled_lt x :
  (0 < x)%Q → (x / pow2 (quantum_exp x) < inject_Z (2 ^ 53))%Q.
Proof.
  intros Hx. pose proof (pow2_pos (quantum_exp x)) as Hp.
  apply Qlt_shift_div_r; [done|]. rewrite <- pow2_Z by lia.
  rewrite <- pow2_plus. destruct (ilog2_spec x Hx) as [_ H].
  eapply Qlt_le_trans; [exact H|]. apply pow2_le. unfold quantum_exp. lia.
Qed.

Lemma scaled_ge x :
  (0 < x)%Q → -1074 < quantum_exp x →
  (inject_Z (2 ^ 52) <= x / pow2 (quantum_exp x))%Q.
Proof.
  intros Hx He. pose proof (pow2_pos (quantum_exp x)) as Hp.
  apply Qle_shift_div_l; [done|]. rewrite <- pow2_Z by lia.
  rewrite <- pow2_plus. destruct (ilog2_spec x Hx) as [H _].
  eapply Qle_trans; [|exact H]. apply pow2_le. unfold quantum_exp in *. lia.
Qed.

Lemma round_pos_le_pow x :
  (0 < x)%Q → (round_pos x <= pow2 (quantum_exp x + 53))%Q.
Proof.
  intros Hx. unfold round_pos. rewrite pow2_plus, (pow2_Z 53) by lia.
  rewrite (Qmult_comm (pow2 _)). apply Qmult_le_compat_r.
  - rewrite <- Zle_Qle. rewrite <- (rne_Z (2 ^ 53)). apply rne_mono.
    apply Qlt_le_weak. by apply scaled_lt.
  - pose proof (pow2_pos (quantum_exp x)). lra.
Qed.

Lemma round_pos_ge_pow x :
  (0 < x)%Q → -1074 < quantum_exp x →
  (pow2 (quantum_exp x + 52) <= round_pos x)%Q.
Proof.
  intros Hx He. unfold round_pos. rewrite pow2_plus, (pow2_Z 52) by lia.
  rewrite (Qmult_comm (pow2 _)). apply Qmult_le_compat_r.
  - rewrite <- Zle_Qle. rewrite <- (rne_Z (2 ^ 52)). apply rne_mono.
    by apply scaled_ge.
  - pose proof (pow2_pos (quantum_exp x)). lra.
Qed.

Lemma round_pos_mono x y :
  (0 < x)%Q → (x <= y)%Q → (round_pos x <= round_pos y)%Q.
Proof.
  intros Hx Hxy. pose proof (quantum_exp_mono x y Hx Hxy) as He.
  destruct (Z.eq_dec (quantum_exp x) (quantum_exp y)) as [Heq|Hne].
  - unfold round_pos. rewrite Heq.
    pose proof (pow2_pos (quantum_exp y)) as Hp.
    apply Qmult_le_compat_r; [|lra]. rewrite <- Zle_Qle. apply rne_mono.
    apply Qmult_le_compat_r; [done|]. apply Qlt_le_weak, Qinv_lt_0_compat, Hp.
  - eapply Qle_trans; [by apply round_pos_le_pow|].
    eapply Qle_trans; [|apply round_pos_ge_pow; [lra|unfold quantum_exp in *; lia]].
    apply pow2_le. lia.
Qed.

(** Numbers that are a multiple of their own quantum are not changed. *)
Lemma round_pos_exact x m :
  (0 < x)%Q → (x == inject_Z m * pow2 (quantum_exp x))%Q → (round_pos x == x)%Q.
Proof.
  intros Hx Hm. unfold round_pos. pose proof (pow2_pos (quantum_exp x)) as Hp.
  assert (Hs : (x / pow2 (quantum_exp x) == inject_Z m)%Q).
  { rewrite Hm at 1. field. lra. }
  rewrite (rne_comp _ _ Hs), rne_Z. by rewrite <- Hm.
Qed.

Lemma round_pos_Z z :
  0 < z < 2 ^ 53 → (round_pos (inject_Z z) == inject_Z z)%Q.
Proof.
  intros [Hz0 Hz1].
  assert (Hx : (0 < inject_Z z)%Q)
    by (change 0%Q with (inject_Z 0); by rewrite <- Zlt_Qlt).
  assert (He : quantum_exp (inject_Z z) ≤ 0).
  { unfold quantum_exp.
    assert (ilog2 (inject_Z z) < 53); [|lia].
    apply ilog2_lt; [done|]. rewrite pow2_Z by lia. by rewrite <- Zlt_Qlt. }
  set (e := quantum_exp (inject_Z z)) in *.
  apply (round_pos_exact _ (z * 2 ^ (- e))); [done|]. fold e.
  rewrite inject_Z_mult, <- pow2_Z by lia. rewrite <- Qmult_assoc, <- pow2_plus.
  replace (- e + e) with 0 by lia. change (pow2 0) with 1%Q. ring.
Qed.

Lemma round_pos_error x :
  (0 < x)%Q →
  (round_pos x - x <= pow2 (quantum_exp x - 1))%Q
  ∧ (x - round_pos x <= pow2 (quantum_exp x - 1))%Q.
Proof.
  intros Hx. unfold round_pos. set (e := quantum_exp x).
  pose proof (pow2_pos e) as Hp.
  destruct (rne_error (x / pow2 e)) as [H1 H2].
  rewrite pow2_pred.
  assert (Hs : (x == x / pow2 e * pow2 e)%Q) by (field; lra).
  set (s := (x / pow2 e)%Q) in *. set (r := inject_Z (rne s)) in *.
  assert (H1' : ((r - s) * pow2 e <= (1 # 2) * pow2 e)%Q)
    by (apply Qmult_le_compat_r; lra).
  assert (H2' : ((s - r) * pow2 e <= (1 # 2) * pow2 e)%Q)
    by (apply Qmult_le_compat_r; lra).
  assert (Hh : (pow2 e / 2 == (1 # 2) * pow2 e)%Q) by field.
  rewrite Hh. clearbody s r. split; lra.
Qed.

Lemma round64_pos x : (0 < x)%Q → round64 x = round_pos x.
Proof.
  intros H. unfold round64. destruct (x ?= 0)%Q eqn:Hc; [|  |done].
  - apply Qeq_alt in Hc. lra.
  - apply Qlt_alt in Hc. lra.
Qed.

Lemma round64_neg x : (x < 0)%Q → round64 x = (- round_pos (- x))%Q.
Proof.
  intros H. unfold round64. destruct (x ?= 0)%Q eqn:Hc; [|done|].
  - apply Qeq_alt in Hc. lra.
  - apply Qgt_alt in Hc. lra.
Qed.

Lemma round64_zero x : (x == 0)%Q → round64 x = 0%Q.
Proof.
  intros H. unfold round64. destruct (x ?= 0)%Q eqn:Hc; [done| |].
  - apply Qlt_alt in Hc. lra.
  - apply Qgt_alt in Hc. lra.
Qed.

Lemma round64_comp x y : (x == y)%Q → (round64 x == round64 y)%Q.
Proof.
  intros Hxy. destruct (Q_dec x 0) as [[Hneg|Hpos]|Hz].
  - rewrite (round64_neg x), (round64_neg y) by lra.
    apply Qopp_comp, round_pos_comp; [lra|]. by rewrite Hxy.
  - rewrite (round64_pos x), (round64_pos y) by lra. by apply round_pos_comp.
  - rewrite (round64_zero x), (round64_zero y) by lra. reflexivity.
Qed.

Lemma round64_nonneg x : (0 <= x)%Q → (0 <= round64 x)%Q.
Proof.
  intros Hx. destruct (Qle_lt_or_eq _ _ Hx) as [Hpos|Hz].
  - rewrite round64_pos by done. by apply round_pos_nonneg.
  - rewrite round64_zero by lra. lra.
Qed.

Lemma round64_nonpos x : (x <= 0)%Q → (round64 x <= 0)%Q.
Proof.
  intros Hx. destruct (Qle_lt_or_eq _ _ Hx) as [Hneg|Hz].
  - rewrite round64_neg by done.
    pose proof (round_pos_nonneg (- x) ltac:(lra)). lra.
  - rewrite round64_zero by lra. lra.
Qed.

Lemma round64_opp x : (round64 (- x) == - round64 x)%Q.
Proof.
  destruct (Q_dec x 0) as [[Hneg|Hpos]|Hz].
  - rewrite (round64_neg x), (round64_pos (- x)) by lra. ring.
  - rewrite (round64_pos x), (round64_neg (- x)) by lra.
    apply Qopp_comp, round_pos_comp; [lra|]. ring.
  - rewrite (round64_zero x), (round64_zero (- x)) by lra. ring.
Qed.

(** Rounding keeps the order. *)
Lemma round64_mono x y : (x <= y)%Q → (round64 x <= round64 y)%Q.
Proof.
  intros Hxy. destruct (Q_dec x 0) as [[Hx|Hx]|Hx].
  - destruct (Qlt_le_dec y 0) as [Hy|Hy].
    + rewrite (round64_neg x), (round64_neg y) by done.
      apply Qopp_le_compat, round_pos_mono; lra.
    + pose proof (round64_nonpos x ltac:(lra)).
      pose proof (round64_nonneg y Hy). lra.
  - rewrite (round64_pos x), (round64_pos y) by lra. by apply round_pos_mono.
  - rewrite (round64_zero x) by done. apply round64_nonneg. lra.
Qed.

(** Integers below 2^53 in magnitude are binary64 numbers. *)
Lemma round64_Z z : - 2 ^ 53 < z < 2 ^ 53 → (round64 (inject_Z z) == inject_Z z)%Q.
Proof.
  intros Hz. destruct (Z.lt_trichotomy z 0) as [Hneg|[->|Hpos]].
  - rewrite round64_neg by (change 0%Q with (inject_Z 0); by rewrite <- Zlt_Qlt).
    rewrite <- inject_Z_opp, round_pos_Z by lia. rewrite inject_Z_opp. ring.
  - reflexivity.
  - rewrite round64_pos by (change 0%Q with (inject_Z 0); by rewrite <- Zlt_Qlt).
    apply round_pos_Z. lia.
Qed.

(** The rounding error: half a unit in the last place. *)
Lemma round64_error x :
  (0 <= x)%Q →
  (round64 x - x <= x * pow2 (-53) + pow2 (-1075))%Q
  ∧ (x - round64 x <= x * pow2 (-53) + pow2 (-1075))%Q.
Proof.
  intros Hx. destruct (Qle_lt_or_eq _ _ Hx) as [Hpos|Hz].
  - rewrite round64_pos by done.
    destruct (round_pos_error x Hpos) as [H1 H2].
    assert (Hq : (pow2 (quantum_exp x - 1)
                  <= x * pow2 (-53) + pow2 (-1075))%Q).
    { unfold quantum_exp. pose proof (pow2_pos (-53)). pose proof (pow2_pos (-1075)).
      destruct (ilog2_spec x Hpos) as [Hl _].
      assert (Hrel : (pow2 (ilog2 x - 52 - 1) <= x * pow2 (-53))%Q).
      { replace (ilog2 x - 52 - 1) with (ilog2 x + -53) by lia.
        rewrite pow2_plus. apply Qmult_le_compat_r; lra. }
      destruct (Z.max_spec (ilog2 x - 52) (-1074)) as [[_ ->]|[_ ->]].
      - change (-1074 - 1) with (-1075).
        pose proof (Qmult_le_0_compat x (pow2 (-53)) ltac:(lra) ltac:(lra)). lra.
      - lra. }
    split; lra.
  - rewrite round64_zero by lra. pose proof (pow2_pos (-1075)).
    assert (Hx0 : (x * pow2 (-53) == 0)%Q) by (rewrite <- Hz; ring).
    split; lra.
Qed.

(** *** The split index *)

Lemma int_of_comp x y : (x == y)%Q → int_of x = int_of y.
Proof.
  intros H. unfold int_of.
  assert (Hb : Qle_bool 0 x = Qle_bool 0 y).
  { destruct (Qle_bool 0 x) eqn:Hx, (Qle_bool 0 y) eqn:Hy; try done.
    - apply Qle_bool_iff in Hx. rewrite H in Hx. apply Qle_bool_iff in Hx.
      congruence.
    - apply Qle_bool_iff in Hy. rewrite <- H in Hy. apply Qle_bool_iff in Hy.
      congruence. }
  rewrite Hb. destruct (Qle_bool 0 y).
  - by apply Qfloor_comp.
  - unfold Qceiling. f_equal. apply Qfloor_comp. by rewrite H.
Qed.

Lemma int_of_nonneg x : (0 <= x)%Q → int_of x = Qfloor x.
Proof. intros H. unfold int_of. by rewrite (proj2 (Qle_bool_iff 0 x) H). Qed.

Lemma int_of_nonpos x : (x <= 0)%Q → int_of x = Qceiling x.
Proof.
  intros H. unfold int_of. destruct (Qle_bool 0 x) eqn:Hb; [|done].
  apply Qle_bool_iff in Hb. assert (Hx : (x == inject_Z 0)%Q) by (change (inject_Z 0) with 0%Q; lra).
  rewrite (Qfloor_comp _ _ Hx), (Qceiling_comp _ _ Hx), Qfloor_Z, Qceiling_Z.
  done.
Qed.

(** Truncation keeps the order. *)
Lemma int_of_mono x y : (x <= y)%Q → int_of x ≤ int_of y.
Proof.
  intros Hxy. destruct (Qlt_le_dec x 0) as [Hx|Hx].
  - rewrite (int_of_nonpos x) by lra. destruct (Qlt_le_dec y 0) as [Hy|Hy].
    + rewrite (int_of_nonpos y) by lra. by apply Qceiling_resp_le.
    + rewrite (int_of_nonneg y) by done.
      assert (Qceiling x ≤ 0).
      { change 0 with (Qceiling (inject_Z 0)). apply Qceiling_resp_le.
        change (inject_Z 0) with 0%Q. lra. }
      assert (0 ≤ Qfloor y).
      { change 0 with (Qfloor (inject_Z 0)). by apply Qfloor_resp_le. }
      lia.
  - rewrite (int_of_nonneg x), (int_of_nonneg y) by lra.
    by apply Qfloor_resp_le.
Qed.

Lemma round64_pow2 e : -1022 ≤ e → (round64 (pow2 e) == pow2 e)%Q.
Proof.
  intros He. pose proof (pow2_pos e) as Hp. rewrite round64_pos by done.
  assert (Hl : ilog2 (pow2 e) = e).
  { apply ilog2_unique; [apply Qle_refl|]. apply pow2_lt. lia. }
  assert (Hq : quantum_exp (pow2 e) = e - 52) by (unfold quantum_exp; lia).
  apply (round_pos_exact _ (2 ^ 52)); [done|]. rewrite Hq.
  rewrite <- pow2_Z by lia. rewrite <- pow2_plus.
  by replace (52 + (e - 52)) with e by lia.
Qed.

(** A number between two opposite powers of two rounds to a finite float
    between them. *)
Lemma binary64_bounded x e :
  -1022 ≤ e < 1024 → (- pow2 e <= x)%Q → (x <= pow2 e)%Q →
  ∃ q, binary64 x = Fin q ∧ (q == round64 x)%Q
       ∧ (- pow2 e <= q)%Q ∧ (q <= pow2 e)%Q.
Proof.
  intros He Hlo Hhi.
  assert (H1 : (round64 x <= pow2 e)%Q).
  { rewrite <- (round64_pow2 e) by lia. by apply round64_mono. }
  assert (H2 : (- pow2 e <= round64 x)%Q).
  { rewrite <- (round64_pow2 e), <- round64_opp by lia. by apply round64_mono. }
  assert (Hlim : (pow2 e < pow2 1024)%Q) by (apply pow2_lt; lia).
  unfold binary64. cbv zeta.
  destruct (Qle_bool (pow2 1024) (round64 x)) eqn:Hb1.
  { apply Qle_bool_iff in Hb1. lra. }
  destruct (Qle_bool (round64 x) (- pow2 1024)) eqn:Hb2.
  { apply Qle_bool_iff in Hb2. lra. }
  eexists. split; [done|]. rewrite Qred_correct. split; [reflexivity|]. done.
Qed.

Lemma float_of_int_small (n : nat) :
  Z.of_nat n < 2 ^ 53 →
  ∃ len, float_of_int (Z.of_nat n) = inr (Fin len)
         ∧ (len == inject_Z (Z.of_nat n))%Q.
Proof.
  intros Hn. unfold float_of_int.
  assert (Hr : (round64 (inject_Z (Z.of_nat n)) == inject_Z (Z.of_nat n))%Q)
    by (apply round64_Z; lia).
  assert (Hp : (inject_Z (Z.of_nat n) <= pow2 53)%Q).
  { rewrite pow2_Z by lia. rewrite <- Zle_Qle. lia. }
  assert (Hm : (- pow2 53 <= inject_Z (Z.of_nat n))%Q).
  { pose proof (pow2_pos 53).
    assert (0 <= inject_Z (Z.of_nat n))%Q; [|lra].
    change 0%Q with (inject_Z 0). rewrite <- Zle_Qle. lia. }
  destruct (binary64_bounded (inject_Z (Z.of_nat n)) 53 ltac:(lia) Hm Hp)
    as (q & -> & Hq & _).
  exists q. split; [done|]. by rewrite Hq.
Qed.

Lemma Qmult_le_nonneg_l (x y z : Q) :
  (0 <= z)%Q → (x <= y)%Q → (z * x <= z * y)%Q.
Proof.
  intros Hz Hxy. rewrite !(Qmult_comm z). by apply Qmult_le_compat_r.
Qed.

Lemma pow2_double e : (pow2 e + pow2 e == pow2 (e + 1))%Q.
Proof. rewrite pow2_succ. ring. Qed.

(** With a table of fewer than 2^53 rows and a fraction of magnitude at
    most 2^900 nothing overflows, and the index is the truncated
    [cut_value]. *)
Lemma split_index_value (n : nat) (t : Q) :
  Z.of_nat n < 2 ^ 53 → (- pow2 900 <= t)%Q → (t <= pow2 900)%Q →
  split_index n t = inr (int_of (cut_value n t)).
Proof.
  intros Hn Hlo Hhi. unfold split_index.
  destruct (float_of_int_small n Hn) as (len & -> & Hlen).
  rewrite result_bind_inr.
  destruct (binary64_bounded t 900 ltac:(lia) Hlo Hhi)
    as (tq & -> & Htq & Htlo & Hthi).
  unfold fsub64, of_Z. cbn [fsub rounded].
  pose proof (pow2_pos 900) as Hp900.
  assert (H1 : (1 <= pow2 900)%Q).
  { change 1%Q with (pow2 0). apply pow2_le. lia. }
  pose proof (pow2_double 900) as Hd. change (900 + 1) with 901 in Hd.
  destruct (binary64_bounded (Qred (inject_Z 1 - tq)) 901 ltac:(lia))
    as (uq & -> & Huq & Hulo & Huhi).
  { rewrite Qred_correct. change (inject_Z 1) with 1%Q. lra. }
  { rewrite Qred_correct. change (inject_Z 1) with 1%Q. lra. }
  unfold fmul64. cbn [fmul rounded].
  assert (Hn0 : (0 <= inject_Z (Z.of_nat n))%Q).
  { change 0%Q with (inject_Z 0). rewrite <- Zle_Qle. lia. }
  assert (Hn53 : (inject_Z (Z.of_nat n) <= pow2 53)%Q).
  { rewrite pow2_Z by lia. rewrite <- Zle_Qle. lia. }
  assert (Hprod : (pow2 53 * pow2 901 == pow2 954)%Q).
  { rewrite <- pow2_plus. reflexivity. }
  pose proof (pow2_pos 901) as Hp901.
  destruct (binary64_bounded (Qred (len * uq)) 954 ltac:(lia))
    as (pq & -> & Hpq & _).
  { rewrite Qred_correct, Hlen, <- Hprod.
    assert (Ha : (inject_Z (Z.of_nat n) * - pow2 901
                  <= inject_Z (Z.of_nat n) * uq)%Q)
      by (apply Qmult_le_nonneg_l; [done|lra]).
    assert (Hb : (inject_Z (Z.of_nat n) * pow2 901 <= pow2 53 * pow2 901)%Q)
      by (apply Qmult_le_compat_r; lra).
    lra. }
  { rewrite Qred_correct, Hlen, <- Hprod.
    assert (Ha : (inject_Z (Z.of_nat n) * uq
                  <= inject_Z (Z.of_nat n) * pow2 901)%Q)
      by (apply Qmult_le_nonneg_l; [done|lra]).
    assert (Hb : (inject_Z (Z.of_nat n) * pow2 901 <= pow2 53 * pow2 901)%Q)
      by (apply Qmult_le_compat_r; lra).
    lra. }
  cbn [int_]. unfold ok. f_equal. apply int_of_comp.
  rewrite Hpq. unfold cut_value. apply round64_comp.
  rewrite Qred_correct, Hlen, Huq.
  apply Qmult_comp; [reflexivity|]. apply round64_comp.
  rewrite Qred_correct, Htq. reflexivity.
Qed.

Lemma inject_nat_nonneg (n : nat) : (0 <= inject_Z (Z.of_nat n))%Q.
Proof. change 0%Q with (inject_Z 0). rewrite <- Zle_Qle. lia. Qed.

Lemma round64_0 : round64 0 = 0%Q.
Proof. reflexivity. Qed.

Lemma round64_1 : (round64 1 == 1)%Q.
Proof. apply (round64_Z 1). lia. Qed.

(** Rounding keeps a number of the unit interval in the unit interval. *)
Lemma round64_unit x :
  (0 <= x)%Q → (x <= 1)%Q → (0 <= round64 x)%Q ∧ (round64 x <= 1)%Q.
Proof.
  intros H0 H1. split; [by apply round64_nonneg|].
  rewrite <- round64_1. by apply round64_mono.
Qed.

(** A larger fraction never gives a larger product. *)
Lemma cut_value_mono (n : nat) (t1 t2 : Q) :
  (t1 <= t2)%Q → (cut_value n t2 <= cut_value n t1)%Q.
Proof.
  intros Ht. unfold cut_value. apply round64_mono.
  apply Qmult_le_nonneg_l; [apply inject_nat_nonneg|].
  apply round64_mono. pose proof (round64_mono _ _ Ht). lra.
Qed.

Lemma cut_value_zero (n : nat) (t : Q) :
  Z.of_nat n < 2 ^ 53 → (t == 0)%Q →
  (cut_value n t == inject_Z (Z.of_nat n))%Q.
Proof.
  intros Hn Ht. unfold cut_value.
  assert (H1 : (round64 (1 - round64 t) == 1)%Q).
  { rewrite <- round64_1 at 2. apply round64_comp.
    rewrite (round64_comp _ _ Ht), round64_0. ring. }
  rewrite <- (round64_Z (Z.of_nat n)) at 2 by lia. apply round64_comp.
  rewrite H1. ring.
Qed.

Lemma cut_value_one (n : nat) (t : Q) : (t == 1)%Q → (cut_value n t == 0)%Q.
Proof.
  intros Ht. unfold cut_value.
  assert (H0 : (round64 (1 - round64 t) == 0)%Q).
  { rewrite <- round64_0. apply round64_comp.
    rewrite (round64_comp _ _ Ht), round64_1. ring. }
  rewrite <- round64_0. apply round64_comp. rewrite H0. ring.
Qed.

(** For a fraction in [0, 1] the product lies between 0 and the number of
    rows. *)
Lemma cut_value_range (n : nat) (t : Q) :
  Z.of_nat n < 2 ^ 53 → (0 <= t)%Q → (t <= 1)%Q →
  (0 <= cut_value n t)%Q ∧ (cut_value n t <= inject_Z (Z.of_nat n))%Q.
Proof.
  intros Hn H0 H1. split.
  - rewrite <- (cut_value_one n 1) by reflexivity. by apply cut_value_mono.
  - rewrite <- (cut_value_zero n 0) by done. by apply cut_value_mono.
Qed.

Lemma cut_value_negative (n : nat) (t : Q) :
  Z.of_nat n < 2 ^ 53 → (t <= 0)%Q →
  (inject_Z (Z.of_nat n) <= cut_value n t)%Q.
Proof.
  intros Hn Ht. rewrite <- (cut_value_zero n 0) by done.
  by apply cut_value_mono.
Qed.

Lemma cut_value_above_one (n : nat) (t : Q) :
  (1 <= t)%Q → (cut_value n t <= 0)%Q.
Proof.
  intros Ht. rewrite <- (cut_value_one n 1) by reflexivity.
  by apply cut_value_mono.
Qed.

(** The three roundings move the product by less than one row. *)
Lemma cut_value_near (n : nat) (t : Q) :
  Z.of_nat n < 2 ^ 50 → (0 <= t)%Q → (t <= 1)%Q →
  (cut_value n t - inject_Z (Z.of_nat n) * (1 - t) < 1)%Q
  ∧ (inject_Z (Z.of_nat n) * (1 - t) - cut_value n t < 1)%Q.
Proof.
  intros Hn H0 H1. unfold cut_value.
  set (N := inject_Z (Z.of_nat n)).
  assert (HN0 : (0 <= N)%Q) by apply inject_nat_nonneg.
  assert (HN50 : (N <= pow2 50)%Q).
  { unfold N. rewrite pow2_Z by lia. rewrite <- Zle_Qle. lia. }
  set (E := pow2 (-53)). set (D := pow2 (-1075)).
  assert (HE : (0 < E)%Q) by apply pow2_pos.
  assert (HD : (0 < D)%Q) by apply pow2_pos.
  assert (HNE : (N * E <= 1 # 8)%Q).
  { assert (pow2 50 * E == 1 # 8)%Q by (unfold E; rewrite <- pow2_plus; reflexivity).
    assert (N * E <= pow2 50 * E)%Q by (apply Qmult_le_compat_r; lra). lra. }
  assert (HDs : (D <= 1 # 64)%Q).
  { change (1 # 64)%Q with (pow2 (-6)). apply pow2_le. lia. }
  assert (HND : (N * D <= 1 # 64)%Q).
  { assert (pow2 50 * D == pow2 (-1025))%Q by (unfold D; rewrite <- pow2_plus; reflexivity).
    assert (pow2 (-1025) <= 1 # 64)%Q.
    { change (1 # 64)%Q with (pow2 (-6)). apply pow2_le. lia. }
    assert (N * D <= pow2 50 * D)%Q by (apply Qmult_le_compat_r; lra). lra. }
  destruct (round64_unit t H0 H1) as [Ht0 Ht1].
  destruct (round64_error t H0) as [Hta Htb]. fold E D in Hta, Htb.
  set (t' := round64 t) in *.
  assert (HtE : (t * E <= E)%Q).
  { assert (t * E <= 1 * E)%Q by (apply Qmult_le_compat_r; lra). lra. }
  set (s := (1 - t')%Q).
  assert (Hs0 : (0 <= s)%Q) by (unfold s; lra).
  assert (Hs1 : (s <= 1)%Q) by (unfold s; lra).
  destruct (round64_unit s Hs0 Hs1) as [Hu0 Hu1].
  destruct (round64_error s Hs0) as [Hua Hub]. fold E D in Hua, Hub.
  set (u := round64 s) in *.
  assert (HsE : (s * E <= E)%Q).
  { assert (s * E <= 1 * E)%Q by (apply Qmult_le_compat_r; lra). lra. }
  assert (Hm0 : (0 <= N * u)%Q) by (by apply Qmult_le_0_compat).
  assert (HmN : (N * u <= N)%Q).
  { assert (N * u <= N * 1)%Q by (by apply Qmult_le_nonneg_l). lra. }
  destruct (round64_error (N * u) Hm0) as [Hpa Hpb]. fold E D in Hpa, Hpb.
  set (p := round64 (N * u)) in *.
  assert (HmE : (N * u * E <= N * E)%Q) by (apply Qmult_le_compat_r; lra).
  (* the two inner errors, scaled by the number of rows *)
  assert (Ha1 : (N * (u - s) <= N * (E + D))%Q)
    by (apply Qmult_le_nonneg_l; [done|lra]).
  assert (Ha2 : (N * (s - u) <= N * (E + D))%Q)
    by (apply Qmult_le_nonneg_l; [done|lra]).
  assert (Hb1 : (N * (t' - t) <= N * (E + D))%Q)
    by (apply Qmult_le_nonneg_l; [done|lra]).
  assert (Hb2 : (N * (t - t') <= N * (E + D))%Q)
    by (apply Qmult_le_nonneg_l; [done|lra]).
  unfold s in *. clearbody p u t' N E D. split; lra.
Qed.

Lemma Qfloor_near x y :
  (x - y < 1)%Q → (y - x < 1)%Q → Qfloor y - 1 ≤ Qfloor x ≤ Qfloor y + 1.
Proof.
  intros H1 H2.
  pose proof (Qfloor_le x) as Hx1. pose proof (Qlt_floor x) as Hx2.
  pose proof (Qfloor_le y) as Hy1. pose proof (Qlt_floor y) as Hy2.
  rewrite inject_Z_plus in Hx2, Hy2. change (inject_Z 1) with 1%Q in Hx2, Hy2.
  assert (Ha : (inject_Z (Qfloor x) < inject_Z (Qfloor y + 2))%Q).
  { rewrite inject_Z_plus. change (inject_Z 2) with 2%Q. lra. }
  assert (Hb : (inject_Z (Qfloor y) < inject_Z (Qfloor x + 2))%Q).
  { rewrite inject_Z_plus. change (inject_Z 2) with 2%Q. lra. }
  rewrite <- Zlt_Qlt in Ha, Hb. lia.
Qed.

Lemma unit_fraction_bounded (t : Q) :
  (0 <= t)%Q → (t <= 1)%Q → (- pow2 900 <= t)%Q ∧ (t <= pow2 900)%Q.
Proof.
  intros H0 H1.
  assert (1 <= pow2 900)%Q by (change 1%Q with (pow2 0); apply pow2_le; lia).
  split; lra.
Qed.

(** For a fraction in [0, 1] and a table of fewer than 2^53 rows the
    index is computed without an error and lies between 0 and the number
    of rows, so the slice takes it as it is; below 2^50 rows it is the
    floor of the exact product up to one row. *)
Lemma split_index_fraction (n : nat) (t : Q) :
  Z.of_nat n < 2 ^ 53 → (0 <= t)%Q → (t <= 1)%Q →
  ∃ idx, split_index n t = inr idx
         ∧ 0 ≤ idx ≤ Z.of_nat n
         ∧ slice_bound n idx = Z.to_nat idx
         ∧ (Z.of_nat n < 2 ^ 50 →
            Qfloor (inject_Z (Z.of_nat n) * (1 - t)) - 1 ≤ idx
            ∧ idx ≤ Qfloor (inject_Z (Z.of_nat n) * (1 - t)) + 1).
Proof.
  intros Hn H0 H1. destruct (unit_fraction_bounded t H0 H1) as [Hlo Hhi].
  exists (int_of (cut_value n t)).
  split; [by apply split_index_value|].
  destruct (cut_value_range n t Hn H0 H1) as [Hc0 Hcn].
  rewrite (int_of_nonneg _ Hc0).
  assert (Hf0 : 0 ≤ Qfloor (cut_value n t)).
  { change 0 with (Qfloor (inject_Z 0)). by apply Qfloor_resp_le. }
  assert (Hfn : Qfloor (cut_value n t) ≤ Z.of_nat n).
  { rewrite <- (Qfloor_Z (Z.of_nat n)). by apply Qfloor_resp_le. }
  split; [done|]. split.
  { unfold slice_bound. destruct (Z.ltb_spec (Qfloor (cut_value n t)) 0); lia. }
  intros Hn50. destruct (cut_value_near n t Hn50 H0 H1) as [Ha Hb].
  pose proof (Qfloor_near _ _ Ha Hb). lia.
Qed.

Lemma sorted_frame_length argsort data :
  argsort_spec argsort →
  length (features data) = length (raw data) →
  length (labels data) = length (raw data) →
  length (sort_values_Date argsort (assign_dead_stock_Date data))
  = length (raw data).
Proof.
  intros Hsort Hf Hl. rewrite (sort_values_Date_Permutation argsort Hsort).
  unfold assign_dead_stock_Date.
  rewrite length_zip_with, length_zip_with, length_fmap. lia.
Qed.

(** The columns of the frame the splitter sorts are the three views of the
    dataset. *)
Lemma assign_columns data :
  length (features data) = length (raw data) →
  length (labels data) = length (raw data) →
  s_features <$> assign_dead_stock_Date data = features data
  ∧ dead_stock <$> assign_dead_stock_Date data = labels data
  ∧ s_Date <$> assign_dead_stock_Date data
    = (λ r, Date (e_raw (l_eng r))) <$> raw data.
Proof.
  intros Hf Hl. unfold assign_dead_stock_Date.
  split; [|split]; apply list_eq; intros i;
    rewrite !list_lookup_fmap, lookup_zip_with;
    rewrite (lookup_zip_with pair), list_lookup_fmap;
    destruct (features data !! i) as [f|] eqn:Ef;
    destruct (labels data !! i) as [l|] eqn:El;
    destruct (raw data !! i) as [r|] eqn:Er; cbn; try done;
    repeat match goal with
           | H : _ !! _ = Some _ |- _ => apply lookup_lt_Some in H
           | H : _ !! _ = None |- _ => apply lookup_ge_None in H
           end; lia.
Qed.

Lemma omap_lookup_take {A} (l : list A) (order : list nat) k :
  Forall (λ i, (i < length l)%nat) order →
  take k (omap (λ i, l !! i) order) = omap (λ i, l !! i) (take k order)
  ∧ drop k (omap (λ i, l !! i) order) = omap (λ i, l !! i) (drop k order).
Proof.
  intros Hall. revert k.
  induction Hall as [|i order Hi _ IH]; intros k; [by destruct k|].
  destruct (lookup_lt_is_Some_2 l i Hi) as [x Hx].
  destruct k as [|k]; cbn; rewrite Hx; [done|]. cbn.
  destruct (IH k) as [-> ->]. done.
Qed.

Lemma length_omap_lookup {A} (l : list A) (order : list nat) :
  Forall (λ i, (i < length l)%nat) order →
  length (omap (λ i, l !! i) order) = length order.
Proof.
  induction 1 as [|i order Hi _ IH]; [done|].
  destruct (lookup_lt_is_Some_2 l i Hi) as [x Hx]. cbn. rewrite Hx. cbn.
  by rewrite IH.
Qed.

Lemma argsort_in_range argsort (dates : list Z) :
  argsort_spec argsort →
  Forall (λ i, (i < length dates)%nat) (argsort dates).
Proof.
  intros Hsort. rewrite (argsort_perm _ Hsort). apply Forall_forall.
  intros i Hi. apply elem_of_seq in Hi. lia.
Qed.


#[global] Instance by_date_total : Total by_date.
Proof. intros a b. unfold by_date. lia. Qed.

Lemma omap_lookup_pairs (dates : list Z) (ps : list (nat * Z)) :
  Forall (λ p, dates !! p.1 = Some p.2) ps →
  omap (λ i, dates !! i) (ps.*1) = ps.*2.
Proof.
  induction 1 as [|[i d] ps Hp _ IH]; cbn; [done|].
  cbn in Hp. by rewrite Hp, IH.
Qed.

Lemma merge_argsort_spec : argsort_spec merge_argsort.
Proof.
  split; intros dates; unfold merge_argsort.
  - rewrite merge_sort_Permutation. rewrite fst_zip; [done|].
    by rewrite length_seq.
  - rewrite omap_lookup_pairs.
    + apply (Sorted_fmap snd by_date Z.le); [done|].
      apply Sorted_merge_sort. apply _.
    + rewrite merge_sort_Permutation. apply Forall_forall.
      intros [i d] Hin.
      apply elem_of_lookup_zip_with in Hin as (j & x & y & [= -> ->] & Hx & Hy).
      apply lookup_seq in Hx as [-> _]. done.
Qed.

(** The parts of a split, read off the dataset: for an indexer that
    orders the dates, the four frames are the feature rows and the labels
    of the dataset at the first [k], and at the other, positions of the
    order. *)
Lemma train_test_split_parts argsort data test_size random_state
    X_train X_test y_train y_test :
  argsort_spec argsort →
  length (features data) = length (raw data) →
  length (labels data) = length (raw data) →
  train_test_split argsort data test_size random_state
  = inr (X_train, X_test, y_train, y_test) →
  let n := length (raw data) in
  let dates := (λ r, Date (e_raw (l_eng r))) <$> raw data in
  let order := argsort dates in
  ∃ idx,
    split_index n test_size = inr idx
    ∧ order ≡ₚ seq 0 n
    ∧ Forall (λ i, (i < n)%nat) order
    ∧ StronglySorted Z.le (omap (λ i, dates !! i) order)
    ∧ X_train = omap (λ i, features data !! i) (take (slice_bound n idx) order)
    ∧ X_test = omap (λ i, features data !! i) (drop (slice_bound n idx) order)
    ∧ y_train = omap (λ i, labels data !! i) (take (slice_bound n idx) order)
    ∧ y_test = omap (λ i, labels data !! i) (drop (slice_bound n idx) order).
Proof.
  intros Hsort Hf Hl Hsplit n dates order.
  destruct (assign_columns data Hf Hl) as (Hcf & Hcl & Hcd).
  pose proof (sorted_frame_length argsort data Hsort Hf Hl) as Hlen.
  assert (Hn : length dates = n) by (unfold dates; by rewrite length_fmap).
  assert (Hrange : Forall (λ i, (i < n)%nat) order).
  { rewrite <- Hn. by apply argsort_in_range. }
  assert (Hframe : length (assign_dead_stock_Date data) = n).
  { rewrite <- (length_fmap s_Date), Hcd. exact Hn. }
  revert Hsplit. unfold train_test_split. cbv zeta.
  rewrite Hlen. fold n.
  destruct (split_index n test_size) as [err|idx]; [done|].
  rewrite result_bind_inr. unfold iloc_to, iloc_from. rewrite Hlen. fold n.
  unfold sort_values_Date. rewrite Hcd. fold dates order.
  assert (Hrange' : Forall (λ i, (i < length (assign_dead_stock_Date data))%nat)
                      order) by (by rewrite Hframe).
  destruct (omap_lookup_take (assign_dead_stock_Date data) order
              (slice_bound n idx) Hrange') as [-> ->].
  rewrite !fmap_omap_lookup, Hcf, Hcl.
  intros Hres. apply (inj inr) in Hres.
  injection Hres as <- <- <- <-.
  exists idx. split; [done|]. split.
  { unfold order. rewrite (argsort_perm _ Hsort). by rewrite Hn. }
  split; [done|]. split.
  { apply Sorted_StronglySorted; [apply _|]. apply (argsort_sorted _ Hsort). }
  done.
Qed.

(** C5 (as the code has it): the splitter orders the rows of the dataset
    by their dates, ascending, and cuts the order at a position [k]: the
    train frame and labels are the feature rows and labels of the dataset
    at the first [k] positions of the order, the test frame and labels
    those at the other positions, so the parts hold [n] rows together, each
    row with its own label, and no train date is after a test date.  The
    position is the slice bound of [int(n * (1 - test_size))], computed in
    binary64.  For a fraction in [0, 1] (and fewer than 2^50 rows) the
    splitter returns, the index lies in [0, n] and is the number of train
    rows, and it is [floor (n * (1 - test_size))] up to one row. *)
Theorem chronological_split argsort data test_size random_state :
  argsort_spec argsort →
  length (features data) = length (raw data) →
  length (labels data) = length (raw data) →
  let n := length (raw data) in
  let dates := (λ r, Date (e_raw (l_eng r))) <$> raw data in
  (∀ X_train X_test y_train y_test,
     train_test_split argsort data test_size random_state
     = inr (X_train, X_test, y_train, y_test) →
     ∃ (order : list nat) (idx : Z) (k : nat),
       order ≡ₚ seq 0 n
       ∧ StronglySorted Z.le (omap (λ i, dates !! i) order)
       ∧ split_index n test_size = inr idx
       ∧ k = slice_bound n idx
       ∧ (k ≤ n)%nat
       ∧ X_train = omap (λ i, features data !! i) (take k order)
       ∧ X_test = omap (λ i, features data !! i) (drop k order)
       ∧ y_train = omap (λ i, labels data !! i) (take k order)
       ∧ y_test = omap (λ i, labels data !! i) (drop k order)
       ∧ length X_train = k ∧ length y_train = k
       ∧ (length X_train + length X_test = n)%nat
       ∧ (length y_train + length y_test = n)%nat
       ∧ (∀ i j di dj, i ∈ take k order → j ∈ drop k order →
            dates !! i = Some di → dates !! j = Some dj → di ≤ dj))
  ∧ ((0 <= test_size)%Q → (test_size <= 1)%Q → Z.of_nat n < 2 ^ 50 →
     ∃ idx X_train X_test y_train y_test,
       split_index n test_size = inr idx
       ∧ train_test_split argsort data test_size random_state
         = inr (X_train, X_test, y_train, y_test)
       ∧ 0 ≤ idx ≤ Z.of_nat n
       ∧ length X_train = Z.to_nat idx
       ∧ Qfloor (inject_Z (Z.of_nat n) * (1 - test_size)) - 1 ≤ idx
       ∧ idx ≤ Qfloor (inject_Z (Z.of_nat n) * (1 - test_size)) + 1).
Proof.
  intros Hsort Hf Hl n dates.
  assert (Hparts : ∀ X_train X_test y_train y_test,
     train_test_split argsort data test_size random_state
     = inr (X_train, X_test, y_train, y_test) →
     ∃ (order : list nat) (idx : Z) (k : nat),
       order ≡ₚ seq 0 n
       ∧ StronglySorted Z.le (omap (λ i, dates !! i) order)
       ∧ split_index n test_size = inr idx
       ∧ k = slice_bound n idx
       ∧ (k ≤ n)%nat
       ∧ X_train = omap (λ i, features data !! i) (take k order)
       ∧ X_test = omap (λ i, features data !! i) (drop k order)
       ∧ y_train = omap (λ i, labels data !! i) (take k order)
       ∧ y_test = omap (λ i, labels data !! i) (drop k order)
       ∧ length X_train = k ∧ length y_train = k
       ∧ (length X_train + length X_test = n)%nat
       ∧ (length y_train + length y_test = n)%nat
       ∧ (∀ i j di dj, i ∈ take k order → j ∈ drop k order →
            dates !! i = Some di → dates !! j = Some dj → di ≤ dj)).
  { intros X_train X_test y_train y_test Hsplit.
    destruct (train_test_split_parts argsort data test_size random_state
                _ _ _ _ Hsort Hf Hl Hsplit)
      as (idx & Hidx & Hperm & Hrange & Hsorted & -> & -> & -> & ->).
    fold n dates in Hidx, Hperm, Hrange, Hsorted |- *.
    set (order := argsort dates) in *. set (k := slice_bound n idx).
    assert (Hk : (k ≤ n)%nat) by apply slice_bound_le.
    assert (Horder : length order = n) by (by rewrite Hperm, length_seq).
    assert (Hrf : ∀ o, o `sublist_of` order →
                       Forall (λ i, (i < length (features data))%nat) o).
    { intros o Ho. rewrite Hf. eapply Forall_impl; [|by intros i Hi; exact Hi].
      apply Forall_forall. intros i Hi. rewrite Forall_forall in Hrange.
      apply Hrange. by eapply elem_of_sublist. }
    assert (Hrl : ∀ o, o `sublist_of` order →
                       Forall (λ i, (i < length (labels data))%nat) o).
    { intros o Ho. rewrite Hl. apply Forall_forall. intros i Hi.
      rewrite Forall_forall in Hrange. apply Hrange.
      by eapply elem_of_sublist. }
    exists order, idx, k.
    rewrite !length_omap_lookup
      by (first [apply Hrf | apply Hrl];
          first [apply sublist_take | apply sublist_drop]).
    rewrite length_take, length_drop, Horder.
    repeat (split; [first [done | lia]|]).
    intros i j di dj Hi Hj Hdi Hdj.
    rewrite <- (take_drop k order), omap_app in Hsorted.
    eapply (StronglySorted_app_1_elem_of _ _ _ _ _ Hsorted);
      apply list_elem_of_omap; eauto. }
  split; [exact Hparts|].
  intros H0 H1 Hn50.
  destruct (split_index_fraction n test_size ltac:(lia) H0 H1)
    as (idx & Hidx & Hrange & Hslice & Hnear).
  destruct (Hnear Hn50) as [Hlo Hhi].
  pose proof (sorted_frame_length argsort data Hsort Hf Hl) as Hlen.
  destruct (train_test_split argsort data test_size random_state)
    as [err|[[[X_train X_test] y_train] y_test]] eqn:Hsplit.
  { exfalso. revert Hsplit. unfold train_test_split. cbv zeta.
    rewrite Hlen. fold n. by rewrite Hidx. }
  exists idx, X_train, X_test, y_train, y_test.
  split; [done|]. split; [done|]. split; [done|]. split; [|done].
  destruct (Hparts _ _ _ _ eq_refl)
    as (order & idx' & k & _ & _ & Hidx' & -> & _ & _ & _ & _ & _ & Hk & _).
  rewrite Hidx in Hidx'. apply (inj inr) in Hidx'. subst idx'.
  by rewrite Hk.
Qed.

(** The two-group dataset split 80/20 with the merge-sort indexer: the
    index is within [0, 5] and is the number of train rows. *)
Lemma chronological_split_witness :
  ∃ idx X_train X_test y_train y_test,
    split_index (length (raw data_two_groups)) (2 # 10) = inr idx
    ∧ train_test_split merge_argsort data_two_groups (2 # 10) 42
      = inr (X_train, X_test, y_train, y_test)
    ∧ 0 ≤ idx ≤ 5
    ∧ length X_train = Z.to_nat idx.
Proof.
  destruct (proj2 (chronological_split merge_argsort data_two_groups (2 # 10) 42
                     merge_argsort_spec
                     ltac:(vm_compute; reflexivity)
                     ltac:(vm_compute; reflexivity))
              ltac:(vm_compute; discriminate)
              ltac:(vm_compute; discriminate)
              ltac:(vm_compute; reflexivity))
    as (idx & X_train & X_test & y_train & y_test & Hidx & Hsplit & Hrange
        & Hlen & _).
  exists idx, X_train, X_test, y_train, y_test.
  split; [exact Hidx|]. split; [exact Hsplit|]. split; [exact Hrange|exact Hlen].
Defined.

(** C5 as the specification words it fails: the train part need not hold
    [floor (n * (1 - t))] rows.  With 5 rows and a test fraction of 0.8 the
    float [1 - 0.8] is 0.19999999999999996 and five times it is
    0.9999999999999998, so the index is 0 and the train part is empty, while
    [floor (5 * (1 - 0.8))] is 1. *)
Lemma chronological_split_floor_counterexample :
  ¬ (∀ argsort data test_size random_state X_train X_test y_train y_test,
       argsort_spec argsort →
       length (features data) = length (raw data) →
       length (labels data) = length (raw data) →
       (0 <= test_size)%Q → (test_size <= 1)%Q →
       train_test_split argsort data test_size random_state
       = inr (X_train, X_test, y_train, y_test) →
       length X_train
       = Z.to_nat (Qfloor (inject_Z (Z.of_nat (length (raw data)))
                           * (1 - test_size)))).
Proof.
  intros H.
  assert (Hsplit : ∃ X_test y_train y_test,
            train_test_split merge_argsort data_two_groups (8 # 10) 42
            = inr ([], X_test, y_train, y_test))
    by (vm_compute; do 3 eexists; reflexivity).
  destruct Hsplit as (X_test & y_train & y_test & Hsplit).
  specialize (H merge_argsort data_two_groups (8 # 10) 42 _ _ _ _
                merge_argsort_spec
                ltac:(vm_compute; reflexivity) ltac:(vm_compute; reflexivity)
                ltac:(vm_compute; discriminate) ltac:(vm_compute; discriminate)
                Hsplit).
  vm_compute in H. discriminate H.
Qed.


(** ** In-place updates *)

Lemma l_eng_zip_with (e : list ERow) (old : list LRow) :
  length e = length old →
  l_eng <$> zip_with (λ x l, {| l_eng := x;
                               dead_stock_label := dead_stock_label l;
                               risk_score := risk_score l |}) e old = e.
Proof.
  revert old. induction e as [|x e IH]; intros [|l old] Hlen; try done.
  cbn. f_equal. apply IH. cbn in Hlen. lia.
Qed.

Lemma engineered_keeps_input f f' :
  Store.engineered f = inr f' → Store.input_rows f' = Store.input_rows f.
Proof.
  unfold Store.engineered, mbind, result_bind.
  destruct (engineer_features (Store.input_rows f)) as [?|e] eqn:He; [done|].
  apply engineer_features_columns in He.
  pose proof (co_raw _ _ He) as Hraw. pose proof (co_length _ _ He) as Hlen.
  intros [= <-]. destruct f as [rows|rows|old]; cbn in *; [done|done|].
  rewrite list_fmap_compose, l_eng_zip_with; [done|].
  by rewrite Hlen, length_fmap.
Qed.

Lemma labeled_keeps_engineered f f' :
  Store.labeled f = inr f' →
  ∃ rows, Store.engineered_rows f = Some rows
          ∧ Store.engineered_rows f' = Some rows
          ∧ f' = FLabeled (label_dead_stock rows).
Proof.
  assert (Hl : ∀ rows, l_eng <$> label_dead_stock rows = rows).
  { intros rows. unfold label_dead_stock. rewrite <- list_fmap_compose.
    apply list_eq. intros i. rewrite list_lookup_fmap.
    by destruct (rows !! i). }
  destruct f as [rows|rows|old]; cbn; [done|..]; intros [= <-]; cbn.
  - exists rows. by rewrite Hl.
  - exists (l_eng <$> old). by rewrite Hl.
Qed.

Lemma update_in_place_inv step (h h' : gmap loc frame) df out f :
  h !! df = Some f → Store.update_in_place step h df = inr (h', out) →
  out = df ∧ ∃ f', step f = inr f' ∧ h' = <[df := f']> h.
Proof.
  intros Hf. unfold Store.update_in_place, mbind, result_bind. rewrite Hf.
  destruct (step f) as [?|f']; [done|]. intros [= <- <-]. eauto.
Qed.

Lemma update_in_place_ok step (h : gmap loc frame) df f f' :
  h !! df = Some f → step f = inr f' →
  Store.update_in_place step h df = inr (<[df := f']> h, df).
Proof.
  intros Hf Hs. unfold Store.update_in_place, mbind, result_bind.
  by rewrite Hf, Hs.
Qed.

Lemma label_columns_zip_with (e : list ERow) (old : list LRow) :
  length e = length old →
  (λ l, (dead_stock_label l, risk_score l))
    <$> zip_with (λ x l, {| l_eng := x;
                            dead_stock_label := dead_stock_label l;
                            risk_score := risk_score l |}) e old
  = (λ l, (dead_stock_label l, risk_score l)) <$> old.
Proof.
  revert old. induction e as [|x e IH]; intros [|l old] Hlen; try done.
  cbn. f_equal. apply IH. cbn in Hlen. lia.
Qed.

(** What the assignments of [engineer_features] leave on a frame. *)
Lemma engineered_spec f f' :
  Store.engineered f = inr f' →
  ∃ e, engineer_features (Store.input_rows f) = inr e
       ∧ Store.engineered_rows f' = Some e
       ∧ Store.input_rows f' = Store.input_rows f
       ∧ Store.label_columns f' = Store.label_columns f.
Proof.
  intros Hs. pose proof (engineered_keeps_input f f' Hs) as Hin.
  revert Hs. unfold Store.engineered, mbind, result_bind.
  destruct (engineer_features (Store.input_rows f)) as [?|e] eqn:He; [done|].
  pose proof (engineer_features_columns _ _ He) as Hcols.
  pose proof (co_length _ _ Hcols) as Hlen.
  intros Hf'. apply (inj inr) in Hf'. subst f'.
  exists e. split; [done|].
  destruct f as [rows|rows|old]; cbn in *; try done.
  rewrite length_fmap in Hlen.
  by rewrite l_eng_zip_with, label_columns_zip_with.
Qed.

Lemma labeled_keeps_input f f' :
  Store.labeled f = inr f' → Store.input_rows f' = Store.input_rows f.
Proof.
  intros Hs. destruct (labeled_keeps_engineered f f' Hs) as (rows & H1 & _ & ->).
  cbn [Store.input_rows]. unfold label_dead_stock.
  rewrite <- list_fmap_compose.
  destruct f as [r|r|old]; cbn in H1; [done|..]; injection H1 as <-; cbn.
  - by apply list_fmap_ext.
  - rewrite <- list_fmap_compose. by apply list_fmap_ext.
Qed.

(** C6 (as the code has it): [engineer_features] and [label_dead_stock]
    assign their columns on the table object they are given and return
    that same object, so a caller that holds the input sees the table with
    the new columns.  [engineer_features] sets the derived columns to the
    values computed from the input columns of the table, replacing derived
    columns the table already had, and leaves the input columns and any
    label columns as they were; it returns on every table with a row.
    [label_dead_stock] sets the two label columns from the derived columns
    of the table and leaves the input and the derived columns as they were;
    it returns on every table with derived columns and raises [KeyError]
    on a table without them.  No other table changes. *)
Theorem stages_update_in_place (h : gmap loc frame) df f :
  h !! df = Some f →
  (∀ h' out, Store.engineer_features h df = inr (h', out) →
     out = df
     ∧ (∀ l, l ≠ df → h' !! l = h !! l)
     ∧ ∃ f' e, h' !! df = Some f'
               ∧ engineer_features (Store.input_rows f) = inr e
               ∧ Store.engineered_rows f' = Some e
               ∧ Store.input_rows f' = Store.input_rows f
               ∧ Store.label_columns f' = Store.label_columns f)
  ∧ (Store.input_rows f ≠ [] →
     ∃ h', Store.engineer_features h df = inr (h', df))
  ∧ (∀ h' out, Store.label_dead_stock h df = inr (h', out) →
     out = df
     ∧ (∀ l, l ≠ df → h' !! l = h !! l)
     ∧ ∃ f' rows, h' !! df = Some f'
                  ∧ Store.engineered_rows f = Some rows
                  ∧ Store.engineered_rows f' = Some rows
                  ∧ Store.input_rows f' = Store.input_rows f
                  ∧ f' = FLabeled (label_dead_stock rows))
  ∧ (is_Some (Store.engineered_rows f) →
     ∃ h', Store.label_dead_stock h df = inr (h', df))
  ∧ (Store.engineered_rows f = None →
     Store.label_dead_stock h df = inl (KeyError "rolling_inventory_30")).
Proof.
  intros Hf. split; [|split; [|split; [|split]]].
  - intros h' out Hcall.
    apply (update_in_place_inv _ _ _ _ _ _ Hf) in Hcall as (-> & f' & Hs & ->).
    split; [done|]. split; [by intros l Hl; rewrite lookup_insert_ne|].
    destruct (engineered_spec f f' Hs) as (e & He & Hrows & Hin & Hlab).
    exists f', e. by rewrite lookup_insert_eq.
  - intros Hne. destruct (engineer_features_ok _ Hne) as [e He].
    assert (Hs : ∃ f', Store.engineered f = inr f').
    { unfold Store.engineered, mbind, result_bind. rewrite He. eauto. }
    destruct Hs as [f' Hs]. eexists.
    by apply (update_in_place_ok Store.engineered h df f f').
  - intros h' out Hcall.
    apply (update_in_place_inv _ _ _ _ _ _ Hf) in Hcall as (-> & f' & Hs & ->).
    split; [done|]. split; [by intros l Hl; rewrite lookup_insert_ne|].
    pose proof (labeled_keeps_input f f' Hs) as Hin.
    apply labeled_keeps_engineered in Hs as (rows & H1 & H2 & H3).
    exists f', rows. by rewrite lookup_insert_eq.
  - intros [rows Hrows].
    assert (Hs : ∃ f', Store.labeled f = inr f').
    { destruct f as [r|r|old]; cbn in *; [done|eauto|eauto]. }
    destruct Hs as [f' Hs]. eexists.
    by apply (update_in_place_ok Store.labeled h df f f').
  - intros Hnone. unfold Store.label_dead_stock, Store.update_in_place.
    rewrite Hf. by destruct f as [r|r|old].
Qed.

(** A loaded one-row table: after the call the same reference holds the
    engineered table, with the row it had. *)
Lemma stages_update_in_place_witness :
  store_loaded !! 1%positive = Some (FLoaded table_0) ∧
  ∃ h' f' e,
    Store.engineer_features store_loaded 1%positive = inr (h', 1%positive) ∧
    h' !! 1%positive = Some f' ∧
    Store.engineered_rows f' = Some e ∧
    Store.input_rows f' = table_0.
Proof.
  split; [reflexivity|].
  destruct (Store.engineer_features store_loaded 1%positive)
    as [err|[h' out]] eqn:Hcall; [vm_compute in Hcall; discriminate Hcall|].
  destruct (proj1 (stages_update_in_place store_loaded 1%positive
                     (FLoaded table_0) eq_refl) h' out Hcall)
    as (-> & _ & f' & e & Hf' & _ & He & Hin & _).
  exists h', f', e. split; [reflexivity|]. split; [exact Hf'|].
  split; [exact He|exact Hin].
Defined.

(** C6 as the specification words it fails for both functions: the table
    the caller passed is not what it was before the call. *)
Lemma stages_mutate_input_counterexample :
  ¬ (∀ (h h' : gmap loc frame) df out f,
       h !! df = Some f →
       Store.engineer_features h df = inr (h', out) → h' !! df = Some f)
  ∧ ¬ (∀ (h h' : gmap loc frame) df out f,
       h !! df = Some f →
       Store.label_dead_stock h df = inr (h', out) → h' !! df = Some f).
Proof.
  destruct (engineer_features table_0) as [err|e] eqn:He;
    [vm_compute in He; discriminate He|].
  split; intros H.
  - assert (Hs : Store.engineered (FLoaded table_0) = inr (FEngineered e)).
    { unfold Store.engineered, mbind, result_bind. cbn [Store.input_rows].
      by rewrite He. }
    pose proof (update_in_place_ok Store.engineered store_loaded 1%positive
                  _ _ eq_refl Hs) as Hcall.
    specialize (H store_loaded _ 1%positive _ (FLoaded table_0) eq_refl Hcall).
    rewrite lookup_insert_eq in H. discriminate H.
  - assert (Hh : store_engineered = {[ 1%positive := FEngineered e ]})
      by (unfold store_engineered; by rewrite He).
    assert (Hf : store_engineered !! 1%positive = Some (FEngineered e))
      by (by rewrite Hh, lookup_singleton_eq).
    pose proof (update_in_place_ok Store.labeled store_engineered 1%positive
                  _ _ Hf eq_refl) as Hcall.
    specialize (H store_engineered _ 1%positive _ (FEngineered e) Hf Hcall).
    rewrite lookup_insert_eq in H. discriminate H.
Qed.

(** ** Worked examples *)

(** The float nearest to 0.3 is 5404319552844595 / 2^54, just below 0.3;
    1 - 0.8 is 0.19999999999999996 as a float, 900719925474099 / 2^52. *)
Example binary64_three_tenths :
  binary64 (3 # 10) = Fin (5404319552844595 # 18014398509481984).
Proof. vm_compute. reflexivity. Qed.

Example one_minus_eight_tenths :
  fsub64 (of_Z 1) (binary64 (8 # 10))
  = Fin (900719925474099 # 4503599627370496).
Proof. vm_compute. reflexivity. Qed.

(** Split indices as Python computes them: [int(90 * (1 - 0.3))] is 62,
    [int(90 * (1 - 1.7))] is -62, [int(5 * (1 - 0.8))] is 0 and
    [int(5 * (1 - 0.2))] is 4. *)
Example split_index_values :
  split_index 90 (3 # 10) = inr 62
  ∧ split_index 90 (17 # 10) = inr (-62)
  ∧ split_index 5 (8 # 10) = inr 0
  ∧ split_index 5 (2 # 10) = inr 4.
Proof. repeat split; vm_compute; reflexivity. Qed.

(** Sales 5, 0, 0 in one group give the counters 0, 1, 2. *)
Example days_since_sale_500 :
  fmap days_since_sale <$> engineer_features table_500 = inr [0; 1; 2].
Proof. vm_compute. reflexivity. Qed.

(** Two interleaved groups keep separate counters and separate windows. *)
Example two_groups_columns :
  fmap (λ r, (days_since_sale r, rolling_sales_7 r))
    <$> engineer_features table_two_groups
  = inr [(0, Fin 2); (1, Fin 0); (0, Fin 3); (0, Fin (7 # 2)); (1, Fin (7 # 3))].
Proof. vm_compute. reflexivity. Qed.

(** A row with inventory 100 against a forecast of 40 and a sell-through
    below 0.3 is labelled through the overstock rule alone: with an infinite
    threshold no row counts as high inventory. *)
Example overstock_row_labelled :
  fmap (dead_stock_label ∘ label_row PInf) <$> engineer_features table_500
  = inr [1; 1; 1].
Proof. vm_compute. reflexivity. Qed.

(** An empty table does not get through the feature engineer. *)
Example engineer_features_empty :
  engineer_features []
  = inl (ValueError
           "zero-size array to reduction operation fmin which has no identity").
Proof. reflexivity. Qed.

(** * Further properties of the pipeline *)

(** ** The loader *)

Lemma stable_sort_sorted_id {A} (R : relation A) `{∀ x y, Decision (R x y)} l :
  Sorted R l → stable_sort R l = l.
Proof.
  induction 1 as [|x l Hl IH Hhd]; cbn; [done|]. rewrite IH.
  destruct Hhd as [|y l' Hxy]; cbn; [done|]. by rewrite decide_True.
Qed.

Lemma load_data_frame read_csv t :
  "Date" ∈ columns t →
  load_data read_csv (SrcFrame t) = inr (stable_sort row_le (rows t)).
Proof. intros Hd. unfold load_data. by rewrite bool_decide_eq_true_2. Qed.



(** X2: loading a table the loader has returned gives that table back:
    a sorted table is left as it is. *)
Theorem load_data_idempotent read_csv source df cols :
  load_data read_csv source = inr df → "Date" ∈ cols →
  load_data read_csv (SrcFrame {| columns := cols; rows := df |}) = inr df.
Proof.
  intros Hl Hd. rewrite load_data_frame by done. cbn. f_equal.
  apply stable_sort_sorted_id.
  unfold load_data, mbind, result_bind in Hl.
  destruct (match source with SrcPath _ => _ | _ => _ end) as [?|df0]; [done|].
  injection Hl as <-. apply stable_sort_Sorted, _.
Qed.

Lemma load_data_idempotent_witness :
  ∃ df,
    load_data no_files (SrcFrame frame_two_groups) = inr df ∧
    ("Date" ∈ all_columns) ∧
    load_data no_files (SrcFrame {| columns := all_columns; rows := df |})
    = inr df.
Proof.
  assert (H : "Date" ∈ all_columns)
    by (apply (bool_decide_eq_true_1 _); vm_compute; reflexivity).
  eexists. split; [vm_compute; reflexivity|]. split; [exact H|].
  refine (load_data_idempotent no_files (SrcFrame frame_two_groups) _ _ _ H).
  vm_compute. reflexivity.
Defined.

Lemma row_le_antisym_keys a b :
  row_le a b → row_le b a →
  Store_ID a = Store_ID b ∧ Product_ID a = Product_ID b ∧ Date a = Date b.
Proof.
  pose proof (@StrictOrder_Irreflexive _ _ String_as_OT.lt_strorder) as Hirr.
  pose proof (@StrictOrder_Transitive _ _ String_as_OT.lt_strorder) as Htr.
  rewrite !row_le_spec.
  intros [Hab|(Hs & Hab)] [Hba|(Hs' & Hba)].
  - exfalso. eapply Hirr, Htr; eassumption.
  - exfalso. rewrite Hs' in Hab. by eapply Hirr.
  - exfalso. rewrite Hs in Hba. by eapply Hirr.
  - split; [done|].
    destruct Hab as [Hab|(Hp & Hab)], Hba as [Hba|(Hp' & Hba)].
    + exfalso. eapply Hirr, Htr; eassumption.
    + exfalso. rewrite Hp' in Hab. by eapply Hirr.
    + exfalso. rewrite Hp in Hba. by eapply Hirr.
    + split; [done|lia].
Qed.

(** X3: when no two rows share (store, product, date), the order of the
    rows in the source does not matter: two in-memory tables with the same
    rows load to the same table, and the whole pipeline gives the same
    result for both. *)
Theorem load_data_order_independent read_csv t1 t2 :
  "Date" ∈ columns t1 → "Date" ∈ columns t2 →
  rows t1 ≡ₚ rows t2 → unique_keys (rows t1) →
  load_data read_csv (SrcFrame t1) = load_data read_csv (SrcFrame t2)
  ∧ prepare_dataset read_csv (SrcFrame t1)
    = prepare_dataset read_csv (SrcFrame t2).
Proof.
  intros H1 H2 Hp Hu.
  assert (Hl : load_data read_csv (SrcFrame t1)
               = load_data read_csv (SrcFrame t2)).
  { rewrite !load_data_frame by done. f_equal.
    apply (StronglySorted_unique_strong row_le).
    - intros a b Ha Hb Hab Hba.
      rewrite stable_sort_Permutation in Ha, Hb. rewrite <- Hp in Hb.
      destruct (row_le_antisym_keys a b Hab Hba) as (? & ? & ?).
      by apply Hu.
    - apply Sorted_StronglySorted; [apply _|]. apply stable_sort_Sorted, _.
    - apply Sorted_StronglySorted; [apply _|]. apply stable_sort_Sorted, _.
    - by rewrite !stable_sort_Permutation. }
  split; [done|]. unfold prepare_dataset. by rewrite Hl.
Qed.

Lemma load_data_order_independent_witness :
  ("Date" ∈ columns frame_two_groups) ∧
  ("Date" ∈ columns frame_two_groups_rev) ∧
  rows frame_two_groups ≡ₚ rows frame_two_groups_rev ∧
  unique_keys (rows frame_two_groups) ∧
  load_data no_files (SrcFrame frame_two_groups)
  = load_data no_files (SrcFrame frame_two_groups_rev).
Proof.
  assert (H1 : "Date" ∈ columns frame_two_groups)
    by (apply (bool_decide_eq_true_1 _); vm_compute; reflexivity).
  assert (H2 : "Date" ∈ columns frame_two_groups_rev)
    by (apply (bool_decide_eq_true_1 _); vm_compute; reflexivity).
  assert (Hp : rows frame_two_groups ≡ₚ rows frame_two_groups_rev)
    by (change (table_two_groups ≡ₚ reverse table_two_groups);
        by rewrite reverse_Permutation).
  assert (Hu : unique_keys (rows frame_two_groups)).
  { intros a b Ha Hb. cbn in Ha, Hb. unfold table_two_groups in Ha, Hb.
    repeat (apply elem_of_cons in Ha as [->|Ha]);
      try (by apply elem_of_nil in Ha);
      repeat (apply elem_of_cons in Hb as [->|Hb]);
      try (by apply elem_of_nil in Hb);
      cbn; intros; try done; try discriminate. }
  split; [exact H1|]. split; [exact H2|]. split; [exact Hp|].
  split; [exact Hu|].
  exact (proj1 (load_data_order_independent no_files _ _ H1 H2 Hp Hu)).
Defined.

(** ** The feature engineer: failure, rows, counters and trends *)

(** X4: [engineer_features] raises the [ValueError] of [np.nanmin] exactly
    on the table without rows; on any other table it returns, with the
    input rows kept one for one, in order. *)
Theorem engineer_features_fails_iff_empty df :
  ((∃ err, engineer_features df = inl err) ↔ df = [])
  ∧ (df = [] →
     engineer_features df
     = inl (ValueError
              "zero-size array to reduction operation fmin which has no identity"))
  ∧ (df ≠ [] →
     ∃ e, engineer_features df = inr e ∧ length e = length df
          ∧ e_raw <$> e = df).
Proof.
  assert (Hok : df ≠ [] → ∃ e, engineer_features df = inr e
                               ∧ length e = length df ∧ e_raw <$> e = df).
  { intros Hne. destruct (engineer_features_ok df Hne) as [e He].
    exists e. split; [done|]. apply engineer_features_columns in He.
    split; [apply (co_length _ _ He)|apply (co_raw _ _ He)]. }
  split; [|split; [by intros ->|done]]. split.
  - intros [err Herr]. destruct df as [|r df]; [done|].
    destruct Hok as (e & He & _); [done|]. congruence.
  - intros ->. eauto.
Qed.



(** The counter after a run of values is the length of the run of values
    without a sale the run ends with. *)
Lemma counter_after_run values :
  ∃ k : nat,
    counter_after 0 values = Z.of_nat k
    ∧ (k ≤ length values)%nat
    ∧ Forall (λ v, ¬ (0 < v)%Q) (last_n k values)
    ∧ (k = length values
       ∨ ∃ v, values !! (length values - S k)%nat = Some v ∧ (0 < v)%Q).
Proof.
  induction values as [|v l IH] using rev_ind.
  { exists 0%nat. split; [done|]. split; [done|].
    split; [apply Forall_nil_2|by left]. }
  destruct IH as (k & Hc & Hk & Hrun & Hstop).
  rewrite counter_after_snoc, Hc. unfold counter_step.
  destruct (Qpos v) eqn:Hv.
  - exists 0%nat. rewrite length_app. cbn. split; [done|]. split; [lia|].
    split.
    { unfold last_n. rewrite length_app. cbn.
      rewrite drop_ge by (rewrite length_app; cbn; lia). constructor. }
    right. exists v. split; [|by apply Qpos_true].
    replace (length l + 1 - 1)%nat with (length l) by lia.
    by rewrite list_lookup_middle.
  - exists (S k). rewrite length_app. cbn. split; [lia|]. split; [lia|].
    split.
    { unfold last_n in *. rewrite length_app. cbn.
      replace (length l + 1 - S k)%nat with (length l - k)%nat by lia.
      rewrite drop_app_le by lia. apply Forall_app. split; [done|].
      constructor; [|constructor]. intros Hpos. apply Qpos_true in Hpos.
      congruence. }
    destruct Hstop as [->|(v0 & Hv0 & Hpos)]; [left; lia|].
    right. exists v0. split; [|done].
    replace (length l + 1 - S (S k))%nat with (length l - S k)%nat by lia.
    apply lookup_app_l_Some. done.
Qed.

(** X6: [days_since_sale] of a row is the number of rows without a sale
    that its group ends with at that row: it counts the row itself when the
    row has no sale, stops at the latest row with a sale, and runs back to
    the first row of the group when there was no sale yet. *)
Theorem days_since_sale_run df e i r er :
  engineer_features df = inr e → df !! i = Some r → e !! i = Some er →
  ∃ k : nat,
    days_since_sale er = Z.of_nat k
    ∧ (k ≤ length (group_prefix df i r))%nat
    ∧ Forall no_sale (last_n k (group_prefix df i r))
    ∧ (k = length (group_prefix df i r)
       ∨ ∃ x, group_prefix df i r
                !! (length (group_prefix df i r) - S k)%nat = Some x
              ∧ (0 < Units_Sold x)%Q).
Proof.
  intros He Hr Her. rewrite (days_since_sale_at df e i r er He Hr Her).
  destruct (counter_after_run (Units_Sold <$> group_prefix df i r))
    as (k & Hc & Hk & Hrun & Hstop).
  rewrite length_fmap in Hk, Hstop. exists k. split; [done|]. split; [done|].
  split.
  - rewrite last_n_fmap, Forall_fmap in Hrun. exact Hrun.
  - destruct Hstop as [?|(v & Hv & Hpos)]; [by left|]. right.
    rewrite list_lookup_fmap in Hv.
    destruct (group_prefix df i r !! _) as [x|]; [|done].
    injection Hv as <-. eauto.
Qed.

Lemma days_since_sale_run_witness :
  ∃ e r er,
    engineer_features table_500 = inr e ∧
    table_500 !! 2%nat = Some r ∧ e !! 2%nat = Some er ∧
    days_since_sale er = 2 ∧
    ∃ k : nat, days_since_sale er = Z.of_nat k
               ∧ (k ≤ length (group_prefix table_500 2 r))%nat.
Proof.
  eexists _, _, _.
  split; [vm_compute; reflexivity|]. split; [reflexivity|].
  split; [reflexivity|]. split; [reflexivity|].
  destruct (days_since_sale_run table_500 _ 2%nat _ _
              ltac:(vm_compute; reflexivity) eq_refl eq_refl)
    as (k & Hk & Hle & _).
  exists k. split; [exact Hk|exact Hle].
Defined.

Lemma engineer_features_inventory_trend df e :
  engineer_features df = inr e →
  inventory_trend <$> e
  = transform (group_cols <$> df) (λ s, fillna (of_Z 0) <$> pct_change s) NaN
      (Inventory_Level <$> df).
Proof.
  unfold engineer_features. cbv zeta.
  set (cI := transform _ (rolling_mean 30 1) NaN (Inventory_Level <$> df)).
  set (cD := transform _ _days_since_last_sale 0 _).
  unfold mbind, result_bind.
  destruct (minmax_norm cI) as [?|n1]; [done|].
  destruct (minmax_norm (of_Z <$> cD)) as [?|n2]; [done|].
  destruct (max_norm _) as [?|n3]; [done|].
  intros [= <-]. apply imap_column; [|done].
  by rewrite length_transform, length_fmap.
Qed.

Lemma pct_from_lookup prev a p c b :
  pct_from prev (a ++ p :: c :: b) !! S (length a)
  = Some (fsub (fdiv (of_Q c) (of_Q p)) (of_Z 1)).
Proof.
  revert prev. induction a as [|x a IH]; intros prev; cbn; [done|]. apply IH.
Qed.

Lemma pct_change_lookup a p c b :
  pct_change (a ++ p :: c :: b) !! S (length a)
  = Some (fsub (fdiv (of_Q c) (of_Q p)) (of_Z 1)).
Proof. destruct a as [|x a]; cbn; [done|]. apply pct_from_lookup. Qed.

(** The trend cell of a row, from the rows of its group before it. *)
Lemma inventory_trend_at df e i r er :
  engineer_features df = inr e → df !! i = Some r → e !! i = Some er →
  inventory_trend er
  = match last (List.filter (in_group_of r) (take i df)) with
    | None => Fin 0
    | Some x =>
        fillna (Fin 0)
          (fsub (fdiv (of_Q (Inventory_Level r)) (of_Q (Inventory_Level x)))
                (Fin 1))
    end.
Proof.
  intros He Hr Her. apply engineer_features_inventory_trend in He.
  apply (f_equal (λ l, l !! i)) in He.
  rewrite list_lookup_fmap, Her in He. cbn in He.
  rewrite (transform_at group_cols Inventory_Level _ NaN df i r Hr) in He.
  cbv zeta in He.
  change (List.filter (λ x, bool_decide (group_cols x = group_cols r)) (take i df))
    with (List.filter (in_group_of r) (take i df)) in He.
  destruct (List.filter (in_group_of r) (take i df)) as [|x0 pre0] eqn:Hpre
    using rev_ind.
  - cbn in He. by injection He as ->.
  - rewrite last_snoc. rewrite <- app_assoc, fmap_app in He. cbn in He.
    rewrite length_app in He. cbn in He.
    rewrite list_lookup_fmap in He.
    replace (length pre0 + 1)%nat with (S (length (Inventory_Level <$> pre0)))
      in He by (rewrite length_fmap; lia).
    rewrite pct_change_lookup in He. cbn in He. by injection He as ->.
Qed.

(** X7: [inventory_trend] of a row is 0 on the first row of its group and
    otherwise the change of [Inventory Level] against the previous row of
    the group, [cur / prev - 1]; it is never NaN; when the previous
    inventory is 0 the division is not guarded: the trend is +inf or -inf
    with the sign of the current inventory, and 0 when both are 0. *)
Theorem inventory_trend_change df e i r er :
  engineer_features df = inr e → df !! i = Some r → e !! i = Some er →
  isnan (inventory_trend er) = false
  ∧ (List.filter (in_group_of r) (take i df) = [] → inventory_trend er = Fin 0)
  ∧ (∀ x, last (List.filter (in_group_of r) (take i df)) = Some x →
       (¬ (Inventory_Level x == 0)%Q →
        ∃ q, inventory_trend er = Fin q
             ∧ (q == Inventory_Level r / Inventory_Level x - 1)%Q)
       ∧ ((Inventory_Level x == 0)%Q →
          inventory_trend er
          = match (Inventory_Level r ?= 0)%Q with
            | Gt => PInf
            | Lt => NInf
            | Eq => Fin 0
            end)).
Proof.
  intros He Hr Her. rewrite (inventory_trend_at df e i r er He Hr Her).
  split; [|split].
  - destruct (last _) as [x|]; [|done]. unfold fillna.
    destruct (isnan (fsub _ _)) eqn:Hn; [done|exact Hn].
  - intros ->. done.
  - intros x ->. unfold of_Q, fdiv, Qzero. split.
    + intros Hnz.
      destruct (Qeq_bool (Qred (Inventory_Level x)) 0) eqn:Hz.
      { apply Qeq_bool_iff in Hz. rewrite Qred_correct in Hz. done. }
      cbn. eexists. split; [done|]. by rewrite !Qred_correct.
    + intros Hz.
      rewrite (proj2 (Qeq_bool_iff (Qred (Inventory_Level x)) 0))
        by (by rewrite Qred_correct).
      unfold Qsign. rewrite Qred_correct.
      destruct (Inventory_Level r ?= 0)%Q; done.
Qed.

Lemma inventory_trend_change_witness :
  ∃ e r er,
    engineer_features table_500 = inr e ∧
    table_500 !! 1%nat = Some r ∧ e !! 1%nat = Some er ∧
    inventory_trend er = Fin (-1 # 20) ∧
    isnan (inventory_trend er) = false.
Proof.
  eexists _, _, _.
  split; [vm_compute; reflexivity|]. split; [reflexivity|].
  split; [reflexivity|]. split; [reflexivity|].
  refine (proj1 (inventory_trend_change table_500 _ 1%nat _ _ _ _ _));
    [vm_compute; reflexivity | reflexivity | reflexivity].
Defined.

(** ** Min-max normalisation: the range of the companions *)

Lemma fmin_Fin a b :
  fmin (Fin a) (Fin b) = if Qle_bool a b then Fin a else Fin b.
Proof. unfold fmin. cbn. by destruct (Qle_bool a b). Qed.

Lemma fmax_Fin a b :
  fmax (Fin a) (Fin b) = if Qle_bool b a then Fin a else Fin b.
Proof. unfold fmax. cbn. by destruct (Qle_bool b a). Qed.

Lemma foldl_fmin_finite a l :
  Forall (λ x, is_finite x = true) l →
  ∃ m, foldl fmin (Fin a) l = Fin m
       ∧ Fin m ∈ Fin a :: l
       ∧ (m <= a)%Q
       ∧ (∀ q, Fin q ∈ l → (m <= q)%Q).
Proof.
  intros Hl. revert a. induction Hl as [|x l Hx _ IH]; intros a; cbn [foldl].
  { exists a. repeat split; [apply list_elem_of_here|apply Qle_refl|].
    intros q Hq. by apply elem_of_nil in Hq. }
  apply is_finite_Fin in Hx as [b ->]. rewrite fmin_Fin.
  destruct (Qle_bool a b) eqn:Hab.
  - apply Qle_bool_iff in Hab.
    destruct (IH a) as (m & -> & Hin & Hma & Hall). exists m.
    split; [done|]. split.
    { apply elem_of_cons in Hin as [->|Hin]; [apply list_elem_of_here|].
      by do 2 apply list_elem_of_further. }
    split; [done|]. intros q Hq.
    apply elem_of_cons in Hq as [[= ->]|Hq]; [|by apply Hall].
    by apply (Qle_trans _ a).
  - assert (Hba : (b <= a)%Q).
    { apply Qlt_le_weak, Qnot_le_lt. intros H.
      apply Qle_bool_iff in H. congruence. }
    destruct (IH b) as (m & -> & Hin & Hmb & Hall). exists m.
    split; [done|]. split; [by apply list_elem_of_further|].
    split; [by apply (Qle_trans _ b)|]. intros q Hq.
    apply elem_of_cons in Hq as [[= ->]|Hq]; [done|by apply Hall].
Qed.

Lemma foldl_fmax_finite a l :
  Forall (λ x, is_finite x = true) l →
  ∃ m, foldl fmax (Fin a) l = Fin m
       ∧ Fin m ∈ Fin a :: l
       ∧ (a <= m)%Q
       ∧ (∀ q, Fin q ∈ l → (q <= m)%Q).
Proof.
  intros Hl. revert a. induction Hl as [|x l Hx _ IH]; intros a; cbn [foldl].
  { exists a. repeat split; [apply list_elem_of_here|apply Qle_refl|].
    intros q Hq. by apply elem_of_nil in Hq. }
  apply is_finite_Fin in Hx as [b ->]. rewrite fmax_Fin.
  destruct (Qle_bool b a) eqn:Hab.
  - apply Qle_bool_iff in Hab.
    destruct (IH a) as (m & -> & Hin & Hma & Hall). exists m.
    split; [done|]. split.
    { apply elem_of_cons in Hin as [->|Hin]; [apply list_elem_of_here|].
      by do 2 apply list_elem_of_further. }
    split; [done|]. intros q Hq.
    apply elem_of_cons in Hq as [[= ->]|Hq]; [|by apply Hall].
    by apply (Qle_trans _ a).
  - assert (Hba : (a <= b)%Q).
    { apply Qlt_le_weak, Qnot_le_lt. intros H.
      apply Qle_bool_iff in H. congruence. }
    destruct (IH b) as (m & -> & Hin & Hmb & Hall). exists m.
    split; [done|]. split; [by apply list_elem_of_further|].
    split; [by apply (Qle_trans _ b)|]. intros q Hq.
    apply elem_of_cons in Hq as [[= ->]|Hq]; [done|by apply Hall].
Qed.

(** One cell of the loop, for a value between the minimum and the maximum. *)
Lemma norm_cell_range v m M :
  (m <= v)%Q → (v <= M)%Q →
  ∃ q, nan_to_num (fdiv (fsub (Fin v) (Fin m))
                     (if truthy (fsub (Fin M) (Fin m))
                      then fsub (Fin M) (Fin m) else of_Z 1)) = Fin q
       ∧ (0 <= q <= 1)%Q
       ∧ ((v == m)%Q → q = 0%Q)
       ∧ (¬ (M == m)%Q → (v == M)%Q → q = 1%Q).
Proof.
  intros Hmv HvM. cbn [fsub truthy]. unfold Qzero.
  destruct (Qeq_bool (Qred (M - m)) 0) eqn:Hs; cbn [negb].
  - apply Qeq_bool_iff in Hs. rewrite Qred_correct in Hs.
    assert (Hvm : (v == m)%Q) by lra.
    assert (Hq : Qred (Qred (v - m) / inject_Z 1) = 0%Q).
    { change 0%Q with (Qred 0). apply Qred_complete.
      rewrite Qred_correct. change (inject_Z 1) with 1%Q. field_simplify. lra. }
    exists 0%Q. cbn. rewrite Hq. repeat split; try done. intros Hne. lra.
  - assert (Hpos : (0 < M - m)%Q).
    { apply Qeq_bool_neq in Hs. rewrite Qred_correct in Hs. lra. }
    cbn [fdiv]. unfold Qzero. rewrite Hs. cbn [nan_to_num].
    eexists. split; [done|].
    assert (Hq : (Qred (Qred (v - m) / Qred (M - m)) == (v - m) / (M - m))%Q)
      by (by rewrite !Qred_correct).
    split; [|split].
    + rewrite Hq. split.
      * apply Qle_shift_div_l; [done|]. lra.
      * apply Qle_shift_div_r; [done|]. lra.
    + intros Hvm. change 0%Q with (Qred 0). apply Qred_complete.
      rewrite !Qred_correct. rewrite Hvm. field_simplify_eq; lra.
    + intros _ HvM'. change 1%Q with (Qred 1). apply Qred_complete.
      rewrite !Qred_correct. rewrite HvM'. field. lra.
Qed.

Lemma minmax_norm_range values out i v :
  Forall (λ x, is_finite x = true) values →
  minmax_norm values = inr out → values !! i = Some (Fin v) →
  ∃ q, out !! i = Some (Fin q)
       ∧ (0 <= q <= 1)%Q
       ∧ ((∀ w, Fin w ∈ values → (v <= w)%Q) → q = 0%Q)
       ∧ ((∀ w, Fin w ∈ values → (w <= v)%Q) →
          (∃ w, Fin w ∈ values ∧ (w < v)%Q) → q = 1%Q).
Proof.
  intros Hfin Hout Hv. unfold minmax_norm, nanmin, nanmax in Hout.
  destruct values as [|x l]; [done|].
  inversion_clear Hfin as [|? ? Hx Hl]. apply is_finite_Fin in Hx as [a ->].
  destruct (foldl_fmin_finite a l Hl) as (m & Hmin & Hmin_in & Hma & Hmall).
  destruct (foldl_fmax_finite a l Hl) as (M & Hmax & Hmax_in & HaM & HMall).
  unfold mbind, result_bind, ok in Hout. rewrite Hmin, Hmax in Hout.
  apply (inj inr) in Hout. subst out.
  assert (Hvin : Fin v ∈ Fin a :: l) by (by eapply list_elem_of_lookup_2).
  assert (Hlow : ∀ w, Fin w ∈ Fin a :: l → (m <= w)%Q).
  { intros w Hw. apply elem_of_cons in Hw as [[= ->]|Hw]; [done|by apply Hmall]. }
  assert (Hhigh : ∀ w, Fin w ∈ Fin a :: l → (w <= M)%Q).
  { intros w Hw. apply elem_of_cons in Hw as [[= ->]|Hw]; [done|by apply HMall]. }
  destruct (norm_cell_range v m M (Hlow v Hvin) (Hhigh v Hvin))
    as (q & Hq & Hrange & Hzero & Hone).
  exists q. split.
  { rewrite list_lookup_fmap, Hv. exact (f_equal Some Hq). }
  split; [done|]. split.
  - intros Hleast. apply Hzero.
    apply Qle_antisym; [by apply Hleast|by apply Hlow].
  - intros Hmost (w & Hw & Hwv). apply Hone.
    + intros HMm. pose proof (Hlow w Hw). pose proof (Hhigh v Hvin). lra.
    + apply Qle_antisym; [by apply Hhigh|by apply Hmost].
Qed.

Lemma rolling_inventory_30_finite df e :
  engineer_features df = inr e →
  Forall (λ x, is_finite x = true) (rolling_inventory_30 <$> e).
Proof.
  intros He. apply engineer_features_columns in He.
  rewrite (co_rolling_inventory_30 _ _ He).
  apply Forall_lookup. intros i x Hx.
  assert (Hi : (i < length df)%nat).
  { apply lookup_lt_Some in Hx. by rewrite length_transform, length_fmap in Hx. }
  destruct (lookup_lt_is_Some_2 df i Hi) as [r Hr].
  rewrite (transform_rolling_at Inventory_Level 30 df i r ltac:(lia) Hr) in Hx.
  injection Hx as <-. apply mean_is_finite.
  rewrite (group_prefix_snoc df i r Hr). intros Hnil.
  apply (f_equal length) in Hnil.
  rewrite length_fmap, last_n_length, length_app in Hnil.
  cbn [length] in Hnil. lia.
Qed.

(** X8: on every row the two min-max companions are numbers between 0 and
    1; a row that holds the smallest value of the column gets 0, and, unless
    the column is constant, a row that holds the largest value gets 1. *)
Theorem minmax_norms_in_unit_interval df e i er :
  engineer_features df = inr e → e !! i = Some er →
  (∃ q, rolling_inventory_30_norm er = Fin q ∧ (0 <= q <= 1)%Q
        ∧ ((∀ x, x ∈ e →
                 fle (rolling_inventory_30 er) (rolling_inventory_30 x)) →
           q = 0%Q)
        ∧ ((∀ x, x ∈ e →
                 fle (rolling_inventory_30 x) (rolling_inventory_30 er)) →
           (∃ x, x ∈ e ∧ flt (rolling_inventory_30 x) (rolling_inventory_30 er)) →
           q = 1%Q))
  ∧ (∃ q, days_since_sale_norm er = Fin q ∧ (0 <= q <= 1)%Q
          ∧ ((∀ x, x ∈ e → days_since_sale er ≤ days_since_sale x) → q = 0%Q)
          ∧ ((∀ x, x ∈ e → days_since_sale x ≤ days_since_sale er) →
             (∃ x, x ∈ e ∧ days_since_sale x < days_since_sale er) →
             q = 1%Q)).
Proof.
  intros He Her. pose proof (rolling_inventory_30_finite df e He) as Hfin.
  apply engineer_features_columns in He. split.
  - assert (Hv : ∃ v, rolling_inventory_30 er = Fin v).
    { apply is_finite_Fin. rewrite Forall_fmap, Forall_forall in Hfin.
      apply Hfin. by eapply list_elem_of_lookup_2. }
    destruct Hv as [v Hv].
    destruct (minmax_norm_range (rolling_inventory_30 <$> e) _ i v Hfin
                (co_rolling_inventory_30_norm _ _ He))
      as (q & Hq & Hrange & Hzero & Hone).
    { by rewrite list_lookup_fmap, Her, <- Hv. }
    rewrite list_lookup_fmap, Her in Hq. injection Hq as Hq.
    exists q. split; [done|]. split; [done|]. rewrite Hv. split.
    + intros Hleast. apply Hzero. intros w Hw.
      apply list_elem_of_fmap in Hw as (x & Hx & Hin).
      specialize (Hleast x Hin). by rewrite <- Hx in Hleast.
    + intros Hmost (x & Hin & Hlt). apply Hone.
      * intros w Hw. apply list_elem_of_fmap in Hw as (y & Hy & Hyin).
        specialize (Hmost y Hyin). by rewrite <- Hy in Hmost.
      * assert (Hw : ∃ w, rolling_inventory_30 x = Fin w).
        { apply is_finite_Fin. rewrite Forall_fmap, Forall_forall in Hfin.
          by apply Hfin. }
        destruct Hw as [w Hw]. rewrite Hw in Hlt.
        exists w. split; [|done]. rewrite <- Hw. by apply list_elem_of_fmap_2.
  - assert (Hfin' : Forall (λ x, is_finite x = true)
                      (of_Z <$> (days_since_sale <$> e))).
    { rewrite Forall_fmap. by apply Forall_forall. }
    destruct (minmax_norm_range _ _ i (inject_Z (days_since_sale er)) Hfin'
                (co_days_since_sale_norm _ _ He))
      as (q & Hq & Hrange & Hzero & Hone).
    { by rewrite !list_lookup_fmap, Her. }
    rewrite list_lookup_fmap, Her in Hq. injection Hq as Hq.
    exists q. split; [done|]. split; [done|].
    assert (Hcol : ∀ w, Fin w ∈ of_Z <$> (days_since_sale <$> e) →
                        ∃ x, x ∈ e ∧ w = inject_Z (days_since_sale x)).
    { intros w Hw. apply list_elem_of_fmap in Hw as (d & Hd & Hin).
      apply list_elem_of_fmap in Hin as (x & -> & Hin).
      injection Hd as ->. eauto. }
    split.
    + intros Hleast. apply Hzero. intros w Hw.
      destruct (Hcol w Hw) as (x & Hin & ->). rewrite <- Zle_Qle. by apply Hleast.
    + intros Hmost (x & Hin & Hlt). apply Hone.
      * intros w Hw. destruct (Hcol w Hw) as (y & Hyin & ->).
        rewrite <- Zle_Qle. by apply Hmost.
      * exists (inject_Z (days_since_sale x)). split.
        { apply (list_elem_of_fmap_2 of_Z), list_elem_of_fmap_2, Hin. }
        by rewrite <- Zlt_Qlt.
Qed.

Lemma minmax_norms_in_unit_interval_witness :
  ∃ e er,
    engineer_features table_two_groups = inr e ∧ e !! 0%nat = Some er ∧
    rolling_inventory_30_norm er = Fin (1 # 15) ∧
    ∃ q, rolling_inventory_30_norm er = Fin q ∧ (0 <= q <= 1)%Q.
Proof.
  eexists _, _.
  split; [vm_compute; reflexivity|]. split; [reflexivity|].
  split; [reflexivity|].
  destruct (proj1 (minmax_norms_in_unit_interval table_two_groups _ 0%nat _
                     ltac:(vm_compute; reflexivity) eq_refl))
    as (q & Hq & Hr & _).
  exists q. split; [exact Hq|exact Hr].
Defined.

(** ** The label rule: what its parts can and cannot do *)










(** ** The cut of the splitter as a function of [test_size] *)

Lemma int_of_Z z : int_of (inject_Z z) = z.
Proof.
  unfold int_of. destruct (Qle_bool 0 (inject_Z z)).
  - apply Qfloor_Z.
  - apply Qceiling_Z.
Qed.

Lemma split_index_zero (n : nat) (t : Q) :
  Z.of_nat n < 2 ^ 53 → (t == 0)%Q → split_index n t = inr (Z.of_nat n).
Proof.
  intros Hn Ht.
  destruct (unit_fraction_bounded t ltac:(lra) ltac:(lra)) as [Hlo Hhi].
  rewrite (split_index_value n t Hn Hlo Hhi). f_equal.
  rewrite (int_of_comp _ _ (cut_value_zero n t Hn Ht)). apply int_of_Z.
Qed.

Lemma split_index_one (n : nat) (t : Q) :
  Z.of_nat n < 2 ^ 53 → (t == 1)%Q → split_index n t = inr 0.
Proof.
  intros Hn Ht.
  destruct (unit_fraction_bounded t ltac:(lra) ltac:(lra)) as [Hlo Hhi].
  rewrite (split_index_value n t Hn Hlo Hhi). f_equal.
  rewrite (int_of_comp _ 0%Q (cut_value_one n t Ht)). apply (int_of_Z 0).
Qed.

Lemma take_prefix_drop_suffix {A} (df : list A) (k1 k2 : nat) :
  (k2 ≤ k1)%nat →
  take k2 df `prefix_of` take k1 df ∧ drop k1 df `suffix_of` drop k2 df.
Proof.
  intros Hk. split.
  - exists (take (k1 - k2) (drop k2 df)).
    rewrite take_take_drop. f_equal. lia.
  - exists (take (k1 - k2) (drop k2 df)).
    rewrite <- (take_drop (k1 - k2) (drop k2 df)) at 1.
    f_equal. rewrite drop_drop. f_equal. lia.
Qed.

Lemma fmap_prefix {A B} (f : A → B) (l k : list A) :
  l `prefix_of` k → f <$> l `prefix_of` f <$> k.
Proof. intros [r ->]. rewrite fmap_app. by eexists. Qed.

Lemma fmap_suffix {A B} (f : A → B) (l k : list A) :
  l `suffix_of` k → f <$> l `suffix_of` f <$> k.
Proof. intros [r ->]. rewrite fmap_app. by eexists. Qed.

(** What the splitter returns once the index is known. *)
Lemma train_test_split_at argsort data test_size random_state idx :
  split_index
    (length (sort_values_Date argsort (assign_dead_stock_Date data)))
    test_size = inr idx →
  let df := sort_values_Date argsort (assign_dead_stock_Date data) in
  let k := slice_bound (length df) idx in
  train_test_split argsort data test_size random_state
  = inr (s_features <$> take k df, s_features <$> drop k df,
         dead_stock <$> take k df, dead_stock <$> drop k df).
Proof.
  intros Hidx. unfold train_test_split. cbv zeta. by rewrite Hidx.
Qed.

(** X11: for a table of fewer than 2^53 rows and test fractions
    [0 <= t1 <= t2 <= 1] both calls return, and the larger fraction only
    moves rows from the end of the train part to the front of the test
    part: the train frame and labels for [t2] are a prefix of those for
    [t1], and the test frame and labels for [t1] are a suffix of those for
    [t2]; at fraction 0 the test part is empty and at fraction 1 the train
    part is empty. *)
Theorem train_test_split_nested argsort data t1 t2 rs1 rs2 :
  argsort_spec argsort →
  length (features data) = length (raw data) →
  length (labels data) = length (raw data) →
  Z.of_nat (length (raw data)) < 2 ^ 53 →
  (0 <= t1)%Q → (t1 <= t2)%Q → (t2 <= 1)%Q →
  ∃ X_train1 X_test1 y_train1 y_test1 X_train2 X_test2 y_train2 y_test2,
    train_test_split argsort data t1 rs1
    = inr (X_train1, X_test1, y_train1, y_test1)
    ∧ train_test_split argsort data t2 rs2
      = inr (X_train2, X_test2, y_train2, y_test2)
    ∧ X_train2 `prefix_of` X_train1 ∧ y_train2 `prefix_of` y_train1
    ∧ X_test1 `suffix_of` X_test2 ∧ y_test1 `suffix_of` y_test2
    ∧ ((t1 == 0)%Q → X_test1 = [] ∧ y_test1 = [])
    ∧ ((t2 == 1)%Q → X_train2 = [] ∧ y_train2 = []).
Proof.
  intros Hsort Hf Hl Hn H0 H12 H1.
  pose proof (sorted_frame_length argsort data Hsort Hf Hl) as Hlen.
  set (n := length (raw data)) in *.
  destruct (split_index_fraction n t1 Hn H0 ltac:(lra))
    as (idx1 & Hidx1 & Hr1 & Hs1 & _).
  destruct (split_index_fraction n t2 Hn ltac:(lra) H1)
    as (idx2 & Hidx2 & Hr2 & Hs2 & _).
  assert (Hmono : idx2 ≤ idx1).
  { destruct (unit_fraction_bounded t1 H0 ltac:(lra)) as [Hlo1 Hhi1].
    destruct (unit_fraction_bounded t2 ltac:(lra) H1) as [Hlo2 Hhi2].
    rewrite (split_index_value n t1 Hn Hlo1 Hhi1) in Hidx1.
    rewrite (split_index_value n t2 Hn Hlo2 Hhi2) in Hidx2.
    apply (inj inr) in Hidx1, Hidx2. subst idx1 idx2.
    by apply int_of_mono, cut_value_mono. }
  rewrite <- Hlen in Hidx1, Hidx2.
  pose proof (train_test_split_at argsort data t1 rs1 idx1 Hidx1) as E1.
  pose proof (train_test_split_at argsort data t2 rs2 idx2 Hidx2) as E2.
  cbv zeta in E1, E2. rewrite Hlen in E1, E2.
  set (df := sort_values_Date argsort (assign_dead_stock_Date data)) in *.
  do 8 eexists. split; [exact E1|]. split; [exact E2|].
  assert (Hk : (slice_bound n idx2 ≤ slice_bound n idx1)%nat)
    by (rewrite Hs1, Hs2; lia).
  destruct (take_prefix_drop_suffix df _ _ Hk) as [Hpre Hsuf].
  split; [by apply fmap_prefix|]. split; [by apply fmap_prefix|].
  split; [by apply fmap_suffix|]. split; [by apply fmap_suffix|].
  split.
  - intros Ht. rewrite Hlen in Hidx1.
    rewrite (split_index_zero n t1 Hn Ht) in Hidx1.
    apply (inj inr) in Hidx1. subst idx1.
    rewrite Hs1, Nat2Z.id, drop_ge by lia. done.
  - intros Ht. rewrite Hlen in Hidx2.
    rewrite (split_index_one n t2 Hn Ht) in Hidx2.
    apply (inj inr) in Hidx2. subst idx2. rewrite Hs2. done.
Qed.

Lemma train_test_split_nested_witness :
  ∃ X_train1 X_train2,
    (λ r, r.1.1.1) <$> train_test_split merge_argsort data_two_groups (1 # 5) 42
    = inr X_train1
    ∧ (λ r, r.1.1.1)
        <$> train_test_split merge_argsort data_two_groups (1 # 2) 42
      = inr X_train2
    ∧ X_train2 `prefix_of` X_train1.
Proof.
  destruct (train_test_split_nested merge_argsort data_two_groups
              (1 # 5) (1 # 2) 42 42 merge_argsort_spec
              ltac:(vm_compute; reflexivity) ltac:(vm_compute; reflexivity)
              ltac:(vm_compute; reflexivity)
              ltac:(vm_compute; discriminate) ltac:(vm_compute; discriminate)
              ltac:(vm_compute; discriminate))
    as (X_train1 & X_test1 & y_train1 & y_test1
        & X_train2 & X_test2 & y_train2 & y_test2 & E1 & E2 & Hpre & _).
  exists X_train1, X_train2. rewrite E1, E2.
  split; [reflexivity|]. split; [reflexivity|exact Hpre].
Defined.

Lemma split_index_overflow (n : nat) (t : Q) :
  Z.of_nat n < 2 ^ 53 → (0 < n)%nat → (pow2 1024 <= t)%Q →
  split_index n t
  = inl (OverflowError "cannot convert float infinity to integer").
Proof.
  intros Hn Hpos Ht. unfold split_index.
  destruct (float_of_int_small n Hn) as (len & -> & Hlen).
  rewrite result_bind_inr.
  assert (Hinf : binary64 t = PInf).
  { unfold binary64. cbv zeta.
    assert (Hr : (pow2 1024 <= round64 t)%Q).
    { rewrite <- (round64_pow2 1024) by lia. by apply round64_mono. }
    apply Qle_bool_iff in Hr. by rewrite Hr. }
  rewrite Hinf. unfold fsub64, fmul64, of_Z. cbn [fsub rounded fmul].
  assert (Hsign : Qsign len = Gt).
  { unfold Qsign. rewrite <- Qgt_alt. rewrite Hlen.
    change 0%Q with (inject_Z 0). rewrite <- Zlt_Qlt. lia. }
  rewrite Hsign. done.
Qed.

(** X12: [test_size] is not checked.  On a dataset of [n] rows (fewer
    than 2^53) and for a fraction of magnitude at most 2^900 the splitter
    returns, the two parts hold [n] rows together and each has as many
    labels as rows.  A negative fraction sends every row to the train part.
    A fraction above 1 makes the index zero or negative: at zero the train
    part is empty, and a negative index counts from the end of the frame,
    so the train part holds all but the last [- idx] rows.  A fraction of
    2^1024 or more is an infinite float, and [int] of the infinite product
    raises [OverflowError]. *)
Theorem train_test_split_fraction_unchecked argsort data test_size
    random_state :
  argsort_spec argsort →
  length (features data) = length (raw data) →
  length (labels data) = length (raw data) →
  Z.of_nat (length (raw data)) < 2 ^ 53 →
  let n := length (raw data) in
  ((- pow2 900 <= test_size)%Q → (test_size <= pow2 900)%Q →
   ∃ idx X_train X_test y_train y_test,
     split_index n test_size = inr idx
     ∧ train_test_split argsort data test_size random_state
       = inr (X_train, X_test, y_train, y_test)
     ∧ length y_train = length X_train ∧ length y_test = length X_test
     ∧ (length X_train + length X_test = n)%nat
     ∧ ((test_size < 0)%Q →
        Z.of_nat n ≤ idx ∧ length X_train = n ∧ X_test = [])
     ∧ ((1 < test_size)%Q →
        idx ≤ 0
        ∧ (idx = 0 → X_train = [] ∧ length X_test = n)
        ∧ (idx < 0 → length X_train = (n - Z.to_nat (- idx))%nat)))
  ∧ ((pow2 1024 <= test_size)%Q → (0 < n)%nat →
     train_test_split argsort data test_size random_state
     = inl (OverflowError "cannot convert float infinity to integer")).
Proof.
  intros Hsort Hf Hl Hn n.
  pose proof (sorted_frame_length argsort data Hsort Hf Hl) as Hlen.
  fold n in Hn, Hlen. split.
  - intros Hlo Hhi.
    pose proof (split_index_value n test_size Hn Hlo Hhi) as Hidx.
    set (idx := int_of (cut_value n test_size)) in *.
    pose proof Hidx as Hidx'. rewrite <- Hlen in Hidx'.
    pose proof (train_test_split_at argsort data test_size random_state
                  idx Hidx') as E.
    cbv zeta in E. rewrite Hlen in E.
    set (df := sort_values_Date argsort (assign_dead_stock_Date data)) in *.
    pose proof (slice_bound_le n idx) as Hk.
    do 5 eexists. split; [exact Hidx|]. split; [exact E|].
    rewrite !length_fmap, length_take, length_drop, Hlen.
    split; [done|]. split; [done|]. split; [lia|]. split.
    + intros Ht.
      assert (Hge : Z.of_nat n ≤ idx).
      { unfold idx. rewrite <- (int_of_Z (Z.of_nat n)) at 1.
        apply int_of_mono, cut_value_negative; [done|lra]. }
      assert (Hs : slice_bound n idx = n).
      { unfold slice_bound. destruct (Z.ltb_spec idx 0); lia. }
      rewrite Hs. split; [done|]. split; [lia|].
      rewrite drop_ge by lia. done.
    + intros Ht.
      assert (Hle : idx ≤ 0).
      { unfold idx. rewrite <- (int_of_Z 0).
        apply int_of_mono, cut_value_above_one. lra. }
      split; [done|]. split.
      * intros Hz. rewrite Hz. unfold slice_bound.
        change (0 <? 0) with false. cbv iota.
        replace (Z.to_nat (0 `min` Z.of_nat n)) with 0%nat by lia.
        split; [done|lia].
      * intros Hneg. unfold slice_bound.
        destruct (Z.ltb_spec idx 0); lia.
  - intros Ht Hpos. unfold train_test_split. cbv zeta. rewrite Hlen.
    by rewrite (split_index_overflow n test_size Hn Hpos Ht).
Qed.

Lemma train_test_split_fraction_unchecked_witness :
  ∃ idx X_train X_test y_train y_test,
    split_index (length (raw data_two_groups)) (17 # 10) = inr idx
    ∧ train_test_split merge_argsort data_two_groups (17 # 10) 42
      = inr (X_train, X_test, y_train, y_test)
    ∧ idx ≤ 0.
Proof.
  assert (Hlo : (- pow2 900 <= 17 # 10)%Q) by (vm_compute; discriminate).
  assert (Hhi : (17 # 10 <= pow2 900)%Q) by (vm_compute; discriminate).
  destruct (proj1 (train_test_split_fraction_unchecked merge_argsort
                     data_two_groups (17 # 10) 42 merge_argsort_spec
                     ltac:(vm_compute; reflexivity)
                     ltac:(vm_compute; reflexivity)
                     ltac:(vm_compute; reflexivity)) Hlo Hhi)
    as (idx & X_train & X_test & y_train & y_test & Hidx & Hsplit & _ & _ & _
        & _ & Habove).
  exists idx, X_train, X_test, y_train, y_test.
  split; [exact Hidx|]. split; [exact Hsplit|].
  apply Habove. vm_compute. reflexivity.
Defined.


(** ** The dashboard: recommendations *)

Lemma Qgtb_spec a b : Qgtb a b = true ↔ (b < a)%Q.
Proof.
  unfold Qgtb. rewrite negb_true_iff, <- not_true_iff_false, Qle_bool_iff.
  split; [apply Qnot_le_lt | apply Qlt_not_le].
Qed.

Lemma Qzero_spec q : Qzero q = true ↔ (q == 0)%Q.
Proof. unfold Qzero. apply Qeq_bool_iff. Qed.

Lemma at_least_weaken q1 q2 p :
  (q1 <= q2)%Q → at_least q2 p → at_least q1 p.
Proof.
  unfold at_least, of_Q, fle. destruct p as [| | |b]; try done.
  rewrite !Qred_correct. intros. lra.
Qed.

Lemma at_least_nan q : ¬ at_least q NaN.
Proof. unfold at_least, of_Q, fle. tauto. Qed.

(** A closed decidable proposition is replaced by its truth value. *)
Ltac settle P :=
  first
    [ let H := fresh in
      assert (H : P ↔ True)
        by (split; [done|intros _; apply (bool_decide_unpack P); vm_compute; exact I]);
      rewrite H; clear H
    | let H := fresh in
      assert (H : P ↔ False)
        by (split; [let K := fresh in
                    intros K; apply (bool_decide_pack P) in K; vm_compute in K;
                    exact K|done]);
      rewrite H; clear H ].

(** All combinations of the tests of [generate_recommendation]. *)
Ltac recommendation_cases row :=
  unfold generate_recommendation, recommendation_actions, at_least,
    reorders_exceed_sales, undiscounted_overstock;
  pose proof (at_least_weaken (6 # 10) (75 # 100) (model_probability row)
                ltac:(vm_compute; discriminate)) as Hweak;
  unfold at_least in Hweak;
  rewrite <- ?fleb_spec, <- ?Qgtb_spec, <- ?Qzero_spec in *;
  destruct (fleb (of_Q (75 # 100)) (model_probability row));
  destruct (fleb (of_Q (6 # 10)) (model_probability row));
  try (specialize (Hweak eq_refl); discriminate Hweak);
  destruct (Qgtb (Units_Ordered (sc_row row)) (Units_Sold (sc_row row)));
  destruct (Qzero (Discount (sc_row row)));
  destruct (Qgtb (Inventory_Level (sc_row row)) (Demand_Forecast (sc_row row)));
  repeat match goal with
         | |- context [?x ∈ ?l] => settle (x ∈ l)
         | |- context [@eq string ?a ?b] => settle (a = b)
         | |- context [NoDup ?l] => settle (NoDup l)
         end;
  intuition congruence.

Lemma clearance_action_iff row :
  "Launch clearance promo" ∈ recommendation_actions row
  ↔ at_least (75 # 100) (model_probability row).
Proof. recommendation_cases row. Qed.

Lemma bundle_action_iff row :
  "Bundle w/ fast movers" ∈ recommendation_actions row
  ↔ at_least (6 # 10) (model_probability row)
    ∧ ¬ at_least (75 # 100) (model_probability row).
Proof. recommendation_cases row. Qed.

Lemma monitor_iff row :
  generate_recommendation row = "Monitor weekly trend"
  ↔ ¬ at_least (6 # 10) (model_probability row)
    ∧ ¬ reorders_exceed_sales (sc_row row)
    ∧ ¬ undiscounted_overstock (sc_row row).
Proof. recommendation_cases row. Qed.

(** X13: what [generate_recommendation] advises.  The clearance promo is
    advised exactly at a probability of 0.75 or more and the bundle exactly
    from 0.6 up to, but not including, 0.75, so never both; freezing
    re-orders exactly when more units were ordered than sold; a markdown
    exactly for an undiscounted item with more stock than forecast.  The
    advice is "Monitor weekly trend" exactly when none of these applies, in
    particular for a NaN probability; it is never empty and names no action
    twice. *)
Theorem generate_recommendation_cases row :
  ("Launch clearance promo" ∈ recommendation_actions row
   ↔ at_least (75 # 100) (model_probability row))
  ∧ ("Bundle w/ fast movers" ∈ recommendation_actions row
     ↔ at_least (6 # 10) (model_probability row)
       ∧ ¬ at_least (75 # 100) (model_probability row))
  ∧ ("Freeze re-orders" ∈ recommendation_actions row
     ↔ reorders_exceed_sales (sc_row row))
  ∧ ("Introduce markdown" ∈ recommendation_actions row
     ↔ undiscounted_overstock (sc_row row))
  ∧ (generate_recommendation row = "Monitor weekly trend"
     ↔ ¬ at_least (6 # 10) (model_probability row)
       ∧ ¬ reorders_exceed_sales (sc_row row)
       ∧ ¬ undiscounted_overstock (sc_row row))
  ∧ generate_recommendation row ≠ ""
  ∧ NoDup (recommendation_actions row).
Proof. recommendation_cases row. Qed.

(** ** The dashboard: scoring *)

Lemma run_inference_inr load_model prepared dataset :
  run_inference load_model prepared = inr dataset →
  ∃ model, load_model = inr model
    ∧ length (model (features prepared)) = length (raw prepared)
    ∧ sc_raw <$> dataset = raw prepared
    ∧ model_probability <$> dataset = model (features prepared)
    ∧ ∀ r, r ∈ dataset →
           predicted_label r
           = if fleb (of_Q (5 # 10)) (model_probability r) then 1 else 0.
Proof.
  unfold run_inference. destruct load_model as [err|model]; [done|].
  rewrite result_bind_inr. cbv zeta. case_bool_decide as Hlen; [|done].
  intros Hd. apply (inj inr) in Hd. subst dataset.
  exists model. split; [done|]. split; [done|]. split; [|split].
  - apply fmap_zip_with_l; [done|lia].
  - apply fmap_zip_with_r; [done|lia].
  - intros r Hr. apply elem_of_zip_with in Hr as (lr & p & -> & _). done.
Qed.

Lemma predicted_label_cases p :
  ((if fleb (of_Q (5 # 10)) p then 1 else 0) = 1 ↔ at_least (5 # 10) p)
  ∧ ((if fleb (of_Q (5 # 10)) p then 1 else 0) = 0 ↔ ¬ at_least (5 # 10) p).
Proof.
  unfold at_least. rewrite <- fleb_spec.
  destruct (fleb (of_Q (5 # 10)) p); intuition congruence.
Qed.

(** X14: [run_inference] returns a table exactly when the model loads and
    gives one probability per row of [raw]: an error of the loader is
    passed on and a wrong number of probabilities is a [ValueError].  The
    table it returns is [raw] with two more columns: the raw rows are kept
    as they are and in order, the probabilities are those of the model in
    the model's order, and the predicted label is 1 exactly at a
    probability of 0.5 or more and 0 otherwise, hence 0 for NaN. *)
Theorem run_inference_outcomes load_model prepared :
  ((∃ dataset, run_inference load_model prepared = inr dataset)
   ↔ ∃ model, load_model = inr model
              ∧ length (model (features prepared)) = length (raw prepared))
  ∧ (∀ err, load_model = inl err →
            run_inference load_model prepared = inl err)
  ∧ (∀ model, load_model = inr model →
       length (model (features prepared)) ≠ length (raw prepared) →
       run_inference load_model prepared
       = inl (ValueError "Length of values does not match length of index"))
  ∧ (∀ dataset model,
       run_inference load_model prepared = inr dataset →
       load_model = inr model →
       sc_raw <$> dataset = raw prepared
       ∧ model_probability <$> dataset = model (features prepared)
       ∧ ∀ r, r ∈ dataset →
              (predicted_label r = 1 ↔ at_least (5 # 10) (model_probability r))
              ∧ (predicted_label r = 0
                 ↔ ¬ at_least (5 # 10) (model_probability r))
              ∧ (model_probability r = NaN → predicted_label r = 0)).
Proof.
  split; [split|split; [|split]].
  - intros [dataset Hd]. apply run_inference_inr in Hd as (model & ? & ? & _).
    eauto.
  - intros (model & -> & Hlen). unfold run_inference.
    rewrite result_bind_inr. cbv zeta. rewrite bool_decide_eq_true_2 by done.
    eauto.
  - intros err ->. done.
  - intros model -> Hlen. unfold run_inference. rewrite result_bind_inr.
    cbv zeta. by rewrite bool_decide_eq_false_2.
  - intros dataset model Hd Hm.
    apply run_inference_inr in Hd as (model' & Hm' & _ & Hraw & Hp & Hlab).
    rewrite Hm in Hm'. apply (inj inr) in Hm'. subst model'.
    split; [done|]. split; [done|]. intros r Hr. rewrite (Hlab r Hr).
    destruct (predicted_label_cases (model_probability r)) as [H1 H0].
    split; [done|]. split; [done|]. intros ->. done.
Qed.

Lemma run_inference_outcomes_witness :
  ∃ dataset,
    run_inference (inr sample_model) data_two_groups = inr dataset
    ∧ sc_raw <$> dataset = raw data_two_groups
    ∧ model_probability <$> dataset = sample_model (features data_two_groups).
Proof.
  eexists. split; [vm_compute; reflexivity|].
  destruct (proj2 (proj2 (proj2
              (run_inference_outcomes (inr sample_model) data_two_groups)))
              _ sample_model ltac:(vm_compute; reflexivity) eq_refl)
    as (Hraw & Hp & _).
  split; [exact Hraw|exact Hp].
Defined.

(** ** The dashboard: filters and alerts *)

Lemma filter_mask_spec stores categories date_range r :
  filter_mask stores categories date_range r = true
  ↔ selected stores categories date_range (sc_row r).
Proof.
  unfold filter_mask, selected.
  rewrite !andb_true_iff, !bool_decide_eq_true, !Z.leb_le. tauto.
Qed.

Lemma elem_of_List_filter {X} (f : X → bool) (l : list X) x :
  x ∈ List.filter f l ↔ x ∈ l ∧ f x = true.
Proof. rewrite !list_elem_of_In. apply filter_In. Qed.

Lemma List_filter_sublist_mono {X} (f g : X → bool) (l : list X) :
  (∀ x, x ∈ l → f x = true → g x = true) →
  List.filter f l `sublist_of` List.filter g l.
Proof.
  induction l as [|x l IH]; intros H; cbn; [done|].
  assert (IH' : List.filter f l `sublist_of` List.filter g l).
  { apply IH. intros y Hy. apply H. by apply list_elem_of_further. }
  destruct (f x) eqn:Hf.
  - rewrite (H x (list_elem_of_here _ _) Hf). by apply sublist_skip.
  - destruct (g x); [by apply sublist_cons|done].
Qed.

Lemma List_filter_sublist {X} (f : X → bool) (l : list X) :
  List.filter f l `sublist_of` l.
Proof.
  induction l as [|x l IH]; cbn; [done|].
  destruct (f x); [by apply sublist_skip|by apply sublist_cons].
Qed.

Lemma List_filter_id_iff {X} (f : X → bool) (l : list X) :
  List.filter f l = l ↔ ∀ x, x ∈ l → f x = true.
Proof.
  split.
  - intros Heq x Hx. rewrite <- Heq in Hx.
    by apply elem_of_List_filter in Hx as [_ ?].
  - intros H. apply forallb_filter_id, forallb_forall.
    intros x Hx. apply H. by apply list_elem_of_In.
Qed.

Lemma List_filter_nil_iff {X} (f : X → bool) (l : list X) :
  (∀ x, x ∈ l → f x = false) → List.filter f l = [].
Proof.
  induction l as [|x l IH]; intros H; cbn; [done|].
  rewrite (H x (list_elem_of_here _ _)). apply IH.
  intros y Hy. apply H. by apply list_elem_of_further.
Qed.

Lemma List_filter_comm {X} (f g : X → bool) (l : list X) :
  List.filter f (List.filter g l) = List.filter g (List.filter f l).
Proof.
  induction l as [|x l IH]; cbn; [done|].
  destruct (f x) eqn:Hf, (g x) eqn:Hg; cbn; rewrite ?Hf, ?Hg, IH; done.
Qed.

(** X15: [filter_data] returns the rows of the table that are selected
    (store among the stores, category among the categories, date within
    the range, both ends included), and only these, in the order of the
    table.  It gives the table back exactly when every row is selected;
    filtering twice with the same selection changes nothing and two
    selections can be applied in either order; an empty store or category
    list, or a range whose start is after its end, leaves no row. *)
Theorem filter_data_selects df stores categories date_range :
  filter_data df stores categories date_range `sublist_of` df
  ∧ (∀ r, r ∈ filter_data df stores categories date_range
          ↔ r ∈ df ∧ selected stores categories date_range (sc_row r))
  ∧ (filter_data df stores categories date_range = df
     ↔ ∀ r, r ∈ df → selected stores categories date_range (sc_row r))
  ∧ filter_data (filter_data df stores categories date_range)
      stores categories date_range
    = filter_data df stores categories date_range
  ∧ (∀ stores' categories' date_range',
       filter_data (filter_data df stores categories date_range)
         stores' categories' date_range'
       = filter_data (filter_data df stores' categories' date_range')
           stores categories date_range)
  ∧ (stores = [] ∨ categories = [] ∨ date_range.2 < date_range.1 →
     filter_data df stores categories date_range = []).
Proof.
  unfold filter_data. split; [apply List_filter_sublist|].
  split; [intros r; by rewrite elem_of_List_filter, filter_mask_spec|].
  split.
  { rewrite List_filter_id_iff. by setoid_rewrite filter_mask_spec. }
  split.
  { apply List_filter_id_iff. intros r Hr.
    by apply elem_of_List_filter in Hr as [_ ?]. }
  split; [intros; apply List_filter_comm|].
  intros Hempty. apply List_filter_nil_iff. intros r _.
  apply not_true_is_false. rewrite filter_mask_spec. unfold selected.
  destruct Hempty as [-> | [-> | Hrange]].
  - intros [H _]. by apply elem_of_nil in H.
  - intros (_ & H & _). by apply elem_of_nil in H.
  - intros (_ & _ & H). lia.
Qed.

Lemma high_risk_spec filtered t r :
  r ∈ high_risk filtered t ↔ r ∈ filtered ∧ at_least t (model_probability r).
Proof.
  unfold high_risk, at_least. by rewrite elem_of_List_filter, fleb_spec.
Qed.

(** X16: what the dashboard advises for the rows it flags.  A row among
    the high-risk rows of a filtered, scored table is a row of the scored
    table with a probability at or above the alert threshold.  With a
    threshold of 0.6 or more (the slider starts at 0.6) every flagged row
    has predicted label 1 and is advised the clearance promo or the bundle,
    so "Monitor weekly trend" is never shown; from 0.75 on the clearance
    promo is advised for every flagged row.  A row with predicted label 0
    is never advised the promo or the bundle. *)
Theorem flagged_rows_get_an_action load_model prepared dataset
    stores categories date_range risk_threshold r :
  run_inference load_model prepared = inr dataset →
  r ∈ high_risk (filter_data dataset stores categories date_range)
        risk_threshold →
  r ∈ dataset
  ∧ selected stores categories date_range (sc_row r)
  ∧ at_least risk_threshold (model_probability r)
  ∧ ((6 # 10 <= risk_threshold)%Q →
     predicted_label r = 1
     ∧ generate_recommendation r ≠ "Monitor weekly trend"
     ∧ ("Launch clearance promo" ∈ recommendation_actions r
        ∨ "Bundle w/ fast movers" ∈ recommendation_actions r))
  ∧ ((75 # 100 <= risk_threshold)%Q →
     "Launch clearance promo" ∈ recommendation_actions r)
  ∧ (predicted_label r = 0 →
     ("Launch clearance promo" ∉ recommendation_actions r)
     ∧ ("Bundle w/ fast movers" ∉ recommendation_actions r)).
Proof.
  intros Hd Hr. apply high_risk_spec in Hr as [Hr Hp].
  unfold filter_data in Hr. apply elem_of_List_filter in Hr as [Hr Hsel].
  apply filter_mask_spec in Hsel.
  apply run_inference_inr in Hd as (_ & _ & _ & _ & _ & Hlab).
  specialize (Hlab r Hr).
  destruct (predicted_label_cases (model_probability r)) as [H1 H0].
  rewrite <- Hlab in H1, H0.
  split; [done|]. split; [done|]. split; [done|]. split; [|split].
  - intros Ht.
    pose proof (at_least_weaken _ _ _ Ht Hp) as H6.
    split.
    { apply H1. apply (at_least_weaken (5 # 10) (6 # 10)); [|done].
      vm_compute. discriminate. }
    split.
    { rewrite monitor_iff. tauto. }
    rewrite clearance_action_iff, bundle_action_iff.
    unfold at_least in *. rewrite <- !fleb_spec in *.
    destruct (fleb (of_Q (75 # 100)) (model_probability r));
      intuition congruence.
  - intros Ht. apply clearance_action_iff.
    by apply (at_least_weaken _ _ _ Ht).
  - intros Hzero. apply H0 in Hzero.
    rewrite clearance_action_iff, bundle_action_iff. split.
    + intros H75. apply Hzero.
      apply (at_least_weaken (5 # 10) (75 # 100)); [|done].
      vm_compute. discriminate.
    + intros [H6 _]. apply Hzero.
      apply (at_least_weaken (5 # 10) (6 # 10)); [|done].
      vm_compute. discriminate.
Qed.

Lemma flagged_rows_get_an_action_witness :
  ∃ r, scored_two_groups !! 0%nat = Some r
       ∧ predicted_label r = 1
       ∧ "Launch clearance promo" ∈ recommendation_actions r.
Proof.
  eexists. split; [vm_compute; reflexivity|].
  match goal with
  | |- predicted_label ?r = 1 ∧ _ =>
      assert (Hr : r ∈ high_risk
                     (filter_data scored_two_groups ["S001"; "S002"]
                        ["Toys"; "Groceries"] (0, 100000)) (75 # 100))
  end.
  { apply high_risk_spec. split.
    - unfold filter_data. apply elem_of_List_filter. split.
      + apply (list_elem_of_lookup_2 _ 0%nat). vm_compute. reflexivity.
      + vm_compute. reflexivity.
    - unfold at_least. apply fleb_spec. vm_compute. reflexivity. }
  destruct (flagged_rows_get_an_action (inr sample_model) data_two_groups
              scored_two_groups _ _ _ _ _
              ltac:(vm_compute; reflexivity) Hr)
    as (_ & _ & _ & H6 & H75 & _).
  split.
  - apply H6. vm_compute. discriminate.
  - apply H75. vm_compute. discriminate.
Defined.

Lemma Qdiv_count_le (a b n : nat) :
  (a ≤ b)%nat → (0 < n)%nat →
  (inject_Z (Z.of_nat a) / inject_Z (Z.of_nat n)
   <= inject_Z (Z.of_nat b) / inject_Z (Z.of_nat n))%Q.
Proof.
  intros Hab Hn. unfold Qdiv. apply Qmult_le_compat_r.
  - rewrite <- Zle_Qle. lia.
  - apply Qinv_le_0_compat. change 0%Q with (inject_Z 0).
    rewrite <- Zle_Qle. lia.
Qed.

Lemma Qdiv_count_self (n : nat) :
  (0 < n)%nat → (inject_Z (Z.of_nat n) / inject_Z (Z.of_nat n) == 1)%Q.
Proof.
  intros Hn. apply Qmult_inv_r. change 0%Q with (inject_Z 0).
  rewrite inject_Z_injective. lia.
Qed.

(** X17: the share of high-risk rows the dashboard shows lies between 0
    and 1, is 0 for an empty selection, and never grows when the alert
    threshold is raised: the rows flagged at the higher threshold are among
    those flagged at the lower one, in the same order.  A row with a NaN
    probability is never flagged. *)
Theorem risk_ratio_bounds filtered t1 t2 :
  (t1 <= t2)%Q →
  (0 <= risk_ratio filtered t2)%Q
  ∧ (risk_ratio filtered t2 <= risk_ratio filtered t1)%Q
  ∧ (risk_ratio filtered t1 <= 1)%Q
  ∧ high_risk filtered t2 `sublist_of` high_risk filtered t1
  ∧ high_risk filtered t1 `sublist_of` filtered
  ∧ (filtered = [] → risk_ratio filtered t1 = 0%Q)
  ∧ (∀ r, r ∈ high_risk filtered t1 → model_probability r ≠ NaN).
Proof.
  intros Ht.
  assert (Hsub : high_risk filtered t2 `sublist_of` high_risk filtered t1).
  { unfold high_risk. apply List_filter_sublist_mono. intros r _.
    rewrite !fleb_spec. apply (at_least_weaken t1 t2 _ Ht). }
  assert (Hsub1 : ∀ t, high_risk filtered t `sublist_of` filtered)
    by (intros t; apply List_filter_sublist).
  pose proof (sublist_length _ _ Hsub) as Hlen.
  pose proof (sublist_length _ _ (Hsub1 t1)) as Hlen1.
  assert (Hratio : ∀ t, (0 <= risk_ratio filtered t)%Q).
  { intros t. unfold risk_ratio.
    destruct (Nat.eqb_spec (length filtered) 0); [done|].
    rewrite <- (Qmult_0_l (/ inject_Z (Z.of_nat (length filtered)))).
    change (0 * / inject_Z (Z.of_nat (length filtered)))%Q
      with (inject_Z (Z.of_nat 0) / inject_Z (Z.of_nat (length filtered)))%Q.
    apply Qdiv_count_le; lia. }
  split; [apply Hratio|]. split; [|split; [|split; [done|split; [done|split]]]].
  - unfold risk_ratio. destruct (Nat.eqb_spec (length filtered) 0); [done|].
    apply Qdiv_count_le; lia.
  - unfold risk_ratio. destruct (Nat.eqb_spec (length filtered) 0); [done|].
    rewrite <- (Qdiv_count_self (length filtered)) by lia.
    apply Qdiv_count_le; lia.
  - intros ->. done.
  - intros r Hr Hnan. apply high_risk_spec in Hr as [_ Hp].
    rewrite Hnan in Hp. by apply at_least_nan in Hp.
Qed.

Lemma risk_ratio_bounds_witness :
  (risk_ratio scored_two_groups (75 # 100)
   <= risk_ratio scored_two_groups (6 # 10))%Q.
Proof.
  refine (proj1 (proj2 (risk_ratio_bounds scored_two_groups
                          (6 # 10) (75 # 100) _))).
  vm_compute. discriminate.
Defined.

(** ** The columns of the training pipeline *)

(** X18: the three column lists [build_pipeline] hands to its
    transformers are, together, the columns of the feature frame of
    [prepare_dataset], each exactly once: no feature column is left to the
    column transformer's default (which drops it), no listed column is
    missing from the frame, and no column reaches two transformers.  The
    frame holds neither the date nor the label. *)
Theorem pipeline_columns_partition_features :
  pipeline_numeric_features ++ pipeline_boolean_features
    ++ pipeline_categorical_features ≡ₚ features_columns
  ∧ NoDup (pipeline_numeric_features ++ pipeline_boolean_features
             ++ pipeline_categorical_features)
  ∧ length features_columns = 26%nat
  ∧ ("Date" ∉ features_columns)
  ∧ ("dead_stock_label" ∉ features_columns).
Proof.
  assert (Hnd1 : NoDup (pipeline_numeric_features ++ pipeline_boolean_features
                          ++ pipeline_categorical_features))
    by (apply (bool_decide_unpack _); vm_compute; exact I).
  assert (Hnd2 : NoDup features_columns)
    by (apply (bool_decide_unpack _); vm_compute; exact I).
  split; [|split; [done|split; [done|split]]].
  - apply NoDup_Permutation; [done|done|]. intros x. split; revert x.
    + apply Forall_forall. apply (bool_decide_unpack _). vm_compute. exact I.
    + apply Forall_forall. apply (bool_decide_unpack _). vm_compute. exact I.
  - intros H. apply (bool_decide_pack _) in H. vm_compute in H. exact H.
  - intros H. apply (bool_decide_pack _) in H. vm_compute in H. exact H.
Qed.

(** ** The sell-through companion on stock data *)

Lemma Qsum_nonneg xs : Forall (λ q, (0 <= q)%Q) xs → (0 <= Qsum xs)%Q.
Proof.
  induction 1 as [|x l Hx _ IH]; cbn [Qsum]; [apply Qle_refl|lra].
Qed.

Lemma Qzero_false q : ¬ (q == 0)%Q → Qzero q = false.
Proof.
  intros Hq. apply not_true_is_false. by rewrite Qzero_spec.
Qed.

Lemma fdiv_nonneg a b :
  (0 <= a)%Q → (0 < b)%Q →
  ∃ s, fdiv (Fin a) (Fin b) = Fin s ∧ (0 <= s)%Q ∧ (s == a / b)%Q.
Proof.
  intros Ha Hb. cbn [fdiv]. rewrite Qzero_false by lra.
  eexists. split; [done|]. rewrite Qred_correct. split; [|reflexivity].
  apply Qle_shift_div_l; [done|]. lra.
Qed.

Lemma mean_nonneg xs :
  xs ≠ [] → Forall (λ q, (0 <= q)%Q) xs → ∃ m, mean xs = Fin m ∧ (0 <= m)%Q.
Proof.
  intros Hne Hxs. unfold mean, of_Q, of_Z.
  destruct (fdiv_nonneg (Qred (Qsum xs)) (inject_Z (Z.of_nat (length xs))))
    as (s & Hs & Hs0 & _).
  - rewrite Qred_correct. by apply Qsum_nonneg.
  - change 0%Q with (inject_Z 0). rewrite <- Zlt_Qlt.
    destruct xs; [done|]. cbn [length]. lia.
  - eauto.
Qed.

Lemma rolling_cell_nonneg (col : Row → Q) w df i x :
  (1 ≤ w)%nat → (∀ r, r ∈ df → (0 <= col r)%Q) →
  transform (group_cols <$> df) (rolling_mean w 1) NaN (col <$> df) !! i
  = Some x →
  ∃ m, x = Fin m ∧ (0 <= m)%Q.
Proof.
  intros Hw Hcol Hx.
  assert (Hi : (i < length df)%nat).
  { apply lookup_lt_Some in Hx. by rewrite length_transform, length_fmap in Hx. }
  destruct (lookup_lt_is_Some_2 df i Hi) as [r Hr].
  rewrite (transform_rolling_at col w df i r Hw Hr) in Hx.
  injection Hx as <-. apply mean_nonneg.
  - rewrite (group_prefix_snoc df i r Hr). intros Hnil.
    apply (f_equal length) in Hnil.
    rewrite length_fmap, last_n_length, length_app in Hnil.
    cbn [length] in Hnil. lia.
  - rewrite Forall_fmap, Forall_forall. intros y Hy. apply Hcol.
    unfold last_n in Hy.
    assert (Hy1 : y ∈ group_prefix df i r)
      by (eapply elem_of_sublist; [exact Hy|apply sublist_drop]).
    unfold group_prefix in Hy1. apply elem_of_List_filter in Hy1 as [Hy1 _].
    eapply elem_of_sublist; [exact Hy1|apply sublist_take].
Qed.

Lemma foldl_fmax_nonneg a l :
  (0 <= a)%Q → Forall (λ x, ∃ q, x = Fin q ∧ (0 <= q)%Q) l →
  ∃ M, foldl fmax (Fin a) l = Fin M ∧ (0 <= M)%Q ∧ (a <= M)%Q
       ∧ (∀ q, Fin q ∈ l → (q <= M)%Q).
Proof.
  intros Ha Hl.
  assert (Hfin : Forall (λ x, is_finite x = true) l).
  { eapply Forall_impl; [exact Hl|]. by intros x (q & -> & _). }
  destruct (foldl_fmax_finite a l Hfin) as (M & HM & _ & HaM & Hall).
  exists M. split; [done|]. split; [lra|]. split; done.
Qed.

Lemma max_norm_range values out i v :
  Forall (λ x, ∃ q, x = Fin q ∧ (0 <= q)%Q) values →
  max_norm values = inr out → values !! i = Some (Fin v) →
  ∃ q, out !! i = Some (Fin q)
       ∧ (0 <= q <= 1)%Q
       ∧ ((v == 0)%Q → q = 0%Q)
       ∧ ((∀ w, Fin w ∈ values → (w <= v)%Q) → (0 < v)%Q → q = 1%Q).
Proof.
  intros Hnn Hout Hv. unfold max_norm, nanmax in Hout.
  destruct values as [|x l]; [done|].
  inversion_clear Hnn as [|? ? Hx Hl]. destruct Hx as (a & -> & Ha).
  destruct (foldl_fmax_nonneg a l Ha Hl) as (M & HM & HM0 & HaM & Hall).
  unfold mbind, result_bind, ok in Hout. rewrite HM in Hout. cbv zeta in Hout.
  apply (inj inr) in Hout. subst out.
  assert (Hvin : Fin v ∈ Fin a :: l) by (by eapply list_elem_of_lookup_2).
  assert (HvM : (v <= M)%Q).
  { apply elem_of_cons in Hvin as [[= ->]|Hvin]; [done|by apply Hall]. }
  assert (Hv0 : (0 <= v)%Q).
  { apply elem_of_cons in Hvin as [[= ->]|Hvin]; [done|].
    rewrite Forall_forall in Hl. by destruct (Hl _ Hvin) as (q & [= <-] & ?). }
  rewrite list_lookup_fmap, Hv. cbn [fmap option_fmap option_map].
  unfold for_, truthy. destruct (Qzero M) eqn:HMz; cbn [negb].
  - apply Qzero_spec in HMz.
    assert (Hvz : (v == 0)%Q) by lra.
    destruct (fdiv_nonneg v (inject_Z 1) Hv0 ltac:(done)) as (s & Hs & Hs0 & Hsv).
    unfold of_Z. rewrite Hs. cbn [nan_to_num].
    assert (Hq : s = 0%Q).
    { cbn [fdiv] in Hs. rewrite Qzero_false in Hs by done.
      injection Hs as <-. change 0%Q with (Qred 0). apply Qred_complete.
      rewrite Hvz. reflexivity. }
    exists s. split; [done|]. subst s. split; [split; done|].
    split; [done|]. intros _ Hpos. lra.
  - assert (HMpos : (0 < M)%Q).
    { apply not_true_iff_false in HMz. rewrite Qzero_spec in HMz. lra. }
    destruct (fdiv_nonneg v M Hv0 HMpos) as (s & Hs & Hs0 & Hsv).
    rewrite Hs. cbn [nan_to_num]. exists s. split; [done|].
    cbn [fdiv] in Hs. rewrite Qzero_false in Hs by lra. injection Hs as Hs.
    split; [|split].
    + split; [done|]. rewrite Hsv. apply Qle_shift_div_r; [done|]. lra.
    + intros Hvz. rewrite <- Hs. change 0%Q with (Qred 0).
      apply Qred_complete. rewrite Hvz. unfold Qdiv. ring.
    + intros Hmost Hpos.
      assert (HMv : (M == v)%Q).
      { apply Qle_antisym; [|done].
        destruct (foldl_fmax_finite a l) as (M' & HM' & Hin & _).
        { eapply Forall_impl; [exact Hl|]. by intros x (q & -> & _). }
        rewrite HM in HM'. injection HM' as <-. by apply Hmost. }
      rewrite <- Hs. change 1%Q with (Qred 1). apply Qred_complete.
      rewrite HMv. field. lra.
Qed.

Lemma sell_through_rate_nonneg df e :
  engineer_features df = inr e →
  (∀ r, r ∈ df → (0 <= Units_Sold r)%Q ∧ (0 <= Inventory_Level r)%Q) →
  Forall (λ x, ∃ q, x = Fin q ∧ (0 <= q)%Q) (sell_through_rate <$> e).
Proof.
  intros He Hnn. apply engineer_features_columns in He.
  apply Forall_lookup. intros j x Hx.
  rewrite (co_sell_through_rate _ _ He) in Hx.
  apply lookup_zip_with_Some in Hx as (a & b & -> & Ha & Hb).
  rewrite (co_rolling_sales_30 _ _ He) in Ha.
  rewrite (co_rolling_inventory_30 _ _ He) in Hb.
  apply (rolling_cell_nonneg Units_Sold) in Ha as (a' & -> & Ha');
    [|lia|intros r Hr; by apply Hnn].
  apply (rolling_cell_nonneg Inventory_Level) in Hb as (b' & -> & Hb');
    [|lia|intros r Hr; by apply Hnn].
  unfold eps, of_Q. cbn [fadd].
  destruct (fdiv_nonneg a' (Qred (b' + Qred (1 # 1000))) Ha')
    as (s & Hs & Hs0 & _).
  - rewrite !Qred_correct.
    assert (0 < 1 # 1000)%Q by done. lra.
  - eauto.
Qed.

(** X19: on a table without negative sales or stock, the sell-through
    rate of every row is a non-negative number and its companion
    [sell_through_rate_norm] lies between 0 and 1: it is 0 where the rate is
    0 and 1 on a row that holds the largest rate of the table, unless that
    rate is 0. *)
Theorem sell_through_norm_in_unit_interval df e i er :
  engineer_features df = inr e →
  (∀ r, r ∈ df → (0 <= Units_Sold r)%Q ∧ (0 <= Inventory_Level r)%Q) →
  e !! i = Some er →
  ∃ s q, sell_through_rate er = Fin s ∧ (0 <= s)%Q
         ∧ sell_through_rate_norm er = Fin q ∧ (0 <= q <= 1)%Q
         ∧ ((s == 0)%Q → q = 0%Q)
         ∧ ((∀ x, x ∈ e →
                  fle (sell_through_rate x) (sell_through_rate er)) →
            (0 < s)%Q → q = 1%Q).
Proof.
  intros He Hnn Her.
  pose proof (sell_through_rate_nonneg df e He Hnn) as Hrate.
  apply engineer_features_columns in He.
  assert (Hs : ∃ s, sell_through_rate er = Fin s ∧ (0 <= s)%Q).
  { rewrite Forall_fmap, Forall_forall in Hrate. apply Hrate.
    by eapply list_elem_of_lookup_2. }
  destruct Hs as (s & Hs & Hs0).
  destruct (max_norm_range (sell_through_rate <$> e)
              (sell_through_rate_norm <$> e) i s Hrate
              (co_sell_through_rate_norm _ _ He))
    as (q & Hq & Hrange & Hzero & Hone).
  { by rewrite list_lookup_fmap, Her, <- Hs. }
  rewrite list_lookup_fmap, Her in Hq. cbn in Hq. injection Hq as Hq.
  exists s, q. split; [done|]. split; [done|]. split; [done|].
  split; [done|]. split; [done|].
  intros Hmost Hpos. apply Hone; [|done].
  intros w Hw. apply list_elem_of_fmap in Hw as (x & Hx & Hxin).
  specialize (Hmost x Hxin). by rewrite <- Hx, Hs in Hmost.
Qed.

Lemma sell_through_norm_in_unit_interval_witness :
  ∃ e er q,
    engineer_features table_two_groups = inr e ∧ e !! 0%nat = Some er
    ∧ sell_through_rate_norm er = Fin q ∧ (0 <= q <= 1)%Q.
Proof.
  assert (Hnn : ∀ r, r ∈ table_two_groups →
                     (0 <= Units_Sold r)%Q ∧ (0 <= Inventory_Level r)%Q).
  { apply Forall_forall.
    repeat (apply Forall_cons; split; [split; vm_compute; discriminate|]).
    apply Forall_nil_2. }
  destruct (sell_through_norm_in_unit_interval table_two_groups _ 0%nat _
              ltac:(vm_compute; reflexivity) Hnn eq_refl)
    as (s & q & _ & _ & Hq & Hrange & _).
  eexists _, _, q. split; [vm_compute; reflexivity|].
  split; [reflexivity|]. split; [exact Hq|exact Hrange].
Defined.

(** ** One dataset for training and for the dashboard *)

(** X20: the training script prepares its dataset from the path of the
    CSV file, the dashboard from the table it has read from that file.
    Both get the same result: when the file reads as a table with a Date
    column, loading the path and loading the table give the same rows and
    [build_dataset] of the table is [prepare_dataset] of the path; when the
    file cannot be read, the reader's exception is what the loader and the
    pipeline raise. *)
Theorem dashboard_dataset_matches_training read_csv path :
  (∀ err, read_csv path = inl err →
          load_data read_csv (SrcPath path) = inl err
          ∧ prepare_dataset read_csv (SrcPath path) = inl err)
  ∧ (∀ t, read_csv path = inr (rows t) → "Date" ∈ columns t →
          load_data read_csv (SrcPath path) = load_data read_csv (SrcFrame t)
          ∧ build_dataset read_csv t
            = prepare_dataset read_csv (SrcPath path)).
Proof.
  split.
  - intros err Herr.
    assert (Hl : load_data read_csv (SrcPath path) = inl err).
    { unfold load_data. by rewrite Herr. }
    split; [done|]. unfold prepare_dataset. by rewrite Hl.
  - intros t Hread Hdate.
    assert (Hl : load_data read_csv (SrcPath path)
                 = load_data read_csv (SrcFrame t)).
    { rewrite (load_data_frame read_csv t Hdate). unfold load_data.
      by rewrite Hread, result_bind_inr. }
    split; [done|]. unfold build_dataset, prepare_dataset. by rewrite Hl.
Qed.

Lemma dashboard_dataset_matches_training_witness :
  build_dataset one_file frame_two_groups
  = prepare_dataset one_file (SrcPath "retail_store_inventory.csv").
Proof.
  refine (proj2 (proj2 (dashboard_dataset_matches_training one_file
                          "retail_store_inventory.csv")
                   frame_two_groups _ _)).
  - vm_compute. reflexivity.
  - apply (bool_decide_unpack _). vm_compute. exact I.
Defined.
